(** * Keyword clustering workers: a shallow embedding and its properties

  The development follows two Python modules of the workers package:

  - [advanced_clustering.py] (class [AdvancedClusteringWorker]): cluster-count
    estimation, the three clustering strategies, topic coherence, the hybrid
    refiner and the hierarchy builder;
  - [cluster_worker.py] (class [ClusterWorker]): the HDBSCAN based worker.

  Conventions of the embedding.

  - Python exceptions are values of [Py.exn]; code that may raise lives in
    [Py.result], code that also mutates keyword dictionaries or draws
    identifiers lives in the state monad [Py.M].
  - Python floats are modelled by rationals ([Q]); rounding is not modelled.
    The properties below are order and counting facts that do not depend on
    it, or (for means) are stated up to [Qeq].
  - A NumPy 2-d array is a list of rows.
  - Calls into scikit-learn, hdbscan and sentence-transformers are fields of
    the class [External]: they are oracles that either return a value or
    raise. *)

From Stdlib Require Import QArith Ascii.
From stdpp Require Import gmap strings list pretty sorting.
From Equations Require Import Equations.

Set Warnings "-register-all".

(** ** Exceptions, results, values, and the state monad *)

Module Py.

Inductive exn : Type :=
| ValueError (msg : string)
| KeyError (key : string)
| TypeError (msg : string)
| IndexError (msg : string)
| AttributeError (msg : string)
| LibraryError (origin : string).

Inductive result (A : Type) : Type :=
| Ok (a : A)
| Raise (e : exn).
Arguments Ok {A} a.
Arguments Raise {A} e.

#[global] Instance result_ret : MRet result := λ A a, Ok a.
#[global] Instance result_bind : MBind result := λ A B f m,
  match m with Ok a => f a | Raise e => Raise e end.
#[global] Instance result_fmap : FMap result := λ A B f m,
  match m with Ok a => Ok (f a) | Raise e => Raise e end.

(** [try: body except Exception as e: handler e] *)
Definition try_except {A} (body : result A) (handler : exn → result A) : result A :=
  match body with Ok a => Ok a | Raise e => handler e end.

(** [try: body except Exception: return d], for helpers that never raise. *)
Definition try_return {A} (body : result A) (d : A) : A :=
  match body with Ok a => a | Raise _ => d end.

(** Values stored in keyword dictionaries ([Dict[str, Any]]). *)
Inductive Val : Type :=
| VNone
| VInt (n : Z)
| VFloat (q : Q)
| VStr (s : string)
| VList (l : list Val).

(** [v == s] for a string [s]. *)
Definition eq_str (v : Val) (s : string) : bool :=
  match v with VStr t => bool_decide (t = s) | _ => false end.

(** Truthiness, as tested by [if not v]. *)
Definition truthy (v : Val) : bool :=
  match v with
  | VNone => false
  | VInt n => negb (n =? 0)%Z
  | VFloat q => negb (Qeq_bool q 0)
  | VStr s => negb (bool_decide (s = ""))
  | VList l => negb (bool_decide (length l = 0))
  end.

(** A keyword record is a mutable dictionary. The caller's list of records
    is the heap; a reference to a record is its position in that list, so
    that the lists the worker builds from it ([cluster_keywords],
    [keyword_data]) alias the caller's objects as they do in Python. The
    heap also carries the supply [uuid.uuid4()] draws from. *)
Abbreviation ref := nat (only parsing).

Record heap : Type := Heap {
  kw_objects : list (gmap string Val);
  uuid_supply : nat;
}.

Definition M (A : Type) : Type := heap → result A * heap.

#[global] Instance M_ret : MRet M := λ A a h, (Ok a, h).
#[global] Instance M_bind : MBind M := λ A B f m h,
  match m h with
  | (Ok a, h') => f a h'
  | (Raise e, h') => (Raise e, h')
  end.

Definition lift {A} (r : result A) : M A := λ h, (r, h).
Definition raise {A} (e : exn) : M A := λ h, (Raise e, h).

Definition try_exceptM {A} (body : M A) (handler : exn → M A) : M A := λ h,
  match body h with
  | (Ok a, h') => (Ok a, h')
  | (Raise e, h') => handler e h'
  end.

(** [except Exception as e: self.logger.error(...); raise] *)
Definition reraise {A} (body : M A) : M A := try_exceptM body raise.

(** [kw.get(key, default)] *)
Definition kw_get (kw : ref) (key : string) (dflt : Val) : M Val := λ h,
  (Ok (default dflt (kw_objects h !! kw ≫= lookup key)), h).

(** [kw[key] = v] *)
Definition kw_set (kw : ref) (key : string) (v : Val) : M unit := λ h,
  (Ok (), Heap (alter (insert key v) kw (kw_objects h)) (uuid_supply h)).

(** [str(uuid.uuid4())]: the next identifier of a supply without repeats. *)
Definition uuid4 : M string := λ h,
  (Ok ("uuid-" +:+ pretty (uuid_supply h)), Heap (kw_objects h) (S (uuid_supply h))).

(** [for x in l: body x] *)
Fixpoint for_ {A} (l : list A) (body : A → M unit) : M unit :=
  match l with
  | [] => mret ()
  | x :: l' => body x;; for_ l' body
  end.

(** [enumerate(l)] *)
Definition enumerate {A} (l : list A) : list (nat * A) := imap (λ i x, (i, x)) l.

(** A loop that threads its variables [acc] through the passes, in either
    monad. *)
Fixpoint foldM `{MBind T, MRet T} {A B} (body : B → A → T B) (acc : B) (l : list A) : T B :=
  match l with
  | [] => mret acc
  | x :: l' => acc' ← body acc x; foldM body acc' l'
  end.

End Py.
Import Py.

(** ** The NumPy operations the workers use *)

Module Np.

Abbreviation ndarray := (list (list Q)) (only parsing).

Definition Qgtb (a b : Q) : bool := negb (Qle_bool a b).

(** [np.diff]: consecutive differences [a[i+1] - a[i]]. *)
Fixpoint diff (a : list Q) : list Q :=
  match a with
  | x :: (y :: _) as rest => (y - x)%Q :: diff rest
  | _ => []
  end.

(** Scan of [np.argmax]: [best] is the running maximum found at index
    [besti], [i] is the index of the head of the remaining list. Only a
    strictly larger entry replaces the maximum, so the first one wins. *)
Fixpoint argmax_from (best : Q) (besti i : nat) (a : list Q) : nat :=
  match a with
  | [] => besti
  | x :: rest =>
      if Qgtb x best then argmax_from x i (S i) rest
      else argmax_from best besti (S i) rest
  end.

Definition argmax (a : list Q) : result nat :=
  match a with
  | [] => Raise (ValueError "attempt to get argmax of an empty sequence")
  | x :: rest => Ok (argmax_from x 0 1 rest)
  end.

(** Indexing [a[i]] with a non-negative index. *)
Definition index {A} (a : list A) (i : nat) : result A :=
  match a !! i with
  | Some x => Ok x
  | None => Raise (IndexError "index out of range")
  end.

(** Indexing [a[-1]]. *)
Definition index_last {A} (a : list A) : result A :=
  match last a with
  | Some x => Ok x
  | None => Raise (IndexError "index out of range")
  end.

(** Indexing [a[i]] with a possibly negative index. *)
Definition index_Z {A} (a : list A) (i : Z) : result A :=
  if decide (0 ≤ i)%Z then index a (Z.to_nat i)
  else if decide (- Z.of_nat (length a) ≤ i)%Z then index a (Z.to_nat (Z.of_nat (length a) + i))
  else Raise (IndexError "index out of range").

(** [np.unique]: the distinct entries in increasing order. *)
Definition unique (a : list Z) : list Z := merge_sort Z.le (remove_dups a).

(** [np.where(a == x)[0]]: the positions holding [x], in increasing order. *)
Definition where_eq (a : list Z) (x : Z) : list nat :=
  (filter (λ p, p.2 = x) (enumerate a)).*1.

Definition Qsum (a : list Q) : Q := foldr Qplus 0%Q a.

(** [np.mean] of a 1-d array. *)
Definition mean (a : list Q) : Q := (Qsum a / inject_Z (Z.of_nat (length a)))%Q.

(** [np.mean(rows, axis=0)]: the mean of every column. *)
Definition mean_axis0 (rows : ndarray) : list Q :=
  match rows with
  | [] => []
  | r :: _ => (λ j, mean ((λ row, default 0%Q (row !! j)) <$> rows)) <$> seq 0 (length r)
  end.

(** The inner product of two rows, an entry of [np.dot(X, X.T)]. *)
Definition dot (u v : list Q) : Q := Qsum (zip_with Qmult u v).

(** [np.dot(X, X.T)] *)
Definition gram (X : ndarray) : ndarray := (λ u, dot u <$> X) <$> X.

(** [np.array(rows)] for a list of lists of floats: the rows must have one
    common length. *)
Definition array (rows : list (list Q)) : result ndarray :=
  match rows with
  | [] => Ok []
  | r :: _ =>
      if decide (Forall (λ r', length r' = length r) rows) then Ok rows
      else Raise (ValueError "setting an array element with a sequence")
  end.

(** [X[i, j]], read only at positions inside the array. *)
Definition at2 (X : ndarray) (i j : nat) : Q := default 0%Q (X !! i ≫= lookup j).

(** [u - v] on 1-d arrays of one length. *)
Definition sub (u v : list Q) : list Q := zip_with Qminus u v.

End Np.

(** ** External numerical libraries *)

(** The outcome of fitting a topic decomposition on the TF-IDF matrix of some
    texts, as far as the worker reads it:
    - [topic_distributions]: the result of [fit_transform], one row per text;
    - [components_top]: for every row [topic] of [components_], the words
      [feature_names[i]] for [i] in [top_words_idx = topic.argsort()[-10:][::-1]]
      and the weights [topic[top_words_idx]];
    - [perplexity]: [perplexity(tfidf_matrix)]. *)
Record TopicFit : Type := {
  topic_distributions : Np.ndarray;
  components_top : list (list string * list Q);
  perplexity : result Q;
}.

(** What the workers ask of scikit-learn, hdbscan, NumPy's [linalg] and
    sentence-transformers. Each call returns or raises; nothing else is
    assumed of them. Hyper-parameters that come from the caller's keyword
    arguments are passed on as the caller gave them. *)
Class External := {
  (** [self.sentence_model.encode(texts)] *)
  encode : list Val → result Np.ndarray;
  (** [KMeans(n_clusters=k, random_state=42, n_init=10)], then
      [fit_predict(X)]: the labels and [inertia_]. *)
  KMeans_fit_predict : nat → Np.ndarray → result (list Z * Q);
  (** [silhouette_score(X, labels)] *)
  silhouette_score : Np.ndarray → list Val → result Q;
  (** [calinski_harabasz_score(X, labels)] *)
  calinski_harabasz_score : Np.ndarray → list Val → result Q;
  (** [AgglomerativeClustering(n_clusters, linkage, distance_threshold)],
      then [fit_predict(X)]. *)
  Agglomerative_fit_predict : Val → Val → Val → Np.ndarray → result (list Z);
  (** [TfidfVectorizer(max_features=1000, stop_words='english',
      ngram_range=(1, 2))], then [LatentDirichletAllocation] (when the flag is
      set) or [NMF], with [n_components], [random_state=42], [max_iter=100]. *)
  decompose : bool → Val → list Val → result TopicFit;
  (** [np.linalg.norm] of a 1-d array. *)
  linalg_norm : list Q → Q;
  (** [hdbscan.HDBSCAN(min_cluster_size=2, min_samples=1, metric='euclidean',
      cluster_selection_method='eom')], then [fit_predict(X)]. *)
  HDBSCAN_fit_predict : Np.ndarray → result (list Z);
}.

(** ** String operations *)

Module Str.

Definition lower_ascii (c : ascii) : ascii :=
  let n := nat_of_ascii c in
  if decide (65 ≤ n ≤ 90) then ascii_of_nat (n + 32) else c.

(** [s.lower()], on ASCII letters. *)
Fixpoint lower (s : string) : string :=
  match s with
  | EmptyString => EmptyString
  | String c s' => String (lower_ascii c) (lower s')
  end.

(** [w in s]: [w] occurs in [s] as a substring. *)
Fixpoint contains (w s : string) : bool :=
  String.prefix w s ||
  match s with
  | EmptyString => false
  | String _ s' => contains w s'
  end.

(** [v.lower()] for a dictionary value: only strings have the method. *)
Definition val_lower (v : Val) : result string :=
  match v with
  | VStr s => Ok (lower s)
  | _ => Raise (AttributeError "object has no attribute 'lower'")
  end.

End Str.

(** ** [advanced_clustering.py] *)

Module AdvancedClusteringWorker.

(** An entry of a cluster's [sub_topics] list. *)
Record SubTopic : Type := {
  st_id : string;
  st_label : string;
  st_keywords : list Val;
  st_topic_words : list string;
}.

(** A cluster object. The worker builds two shapes of dictionary, one in
    [_create_cluster_objects] and one in [_create_topic_clusters]; a key that
    only one of them sets, or that the hybrid refiner adds, is an [option].
    [c_keyword_data] holds references to the caller's keyword records. The
    [created_at] time stamp is left out. *)
Record Cluster : Type := {
  c_id : string;
  c_label : string;
  c_keywords : list Val;
  c_keyword_data : list ref;
  c_centroid : option (list Q);
  c_size : nat;
  c_density : option Q;
  c_topic_id : option Z;
  c_topic_words : option (list string);
  c_topic_distribution : option (list Q);
  c_sub_topics : option (list SubTopic);
}.

(** [refined_cluster['sub_topics'] = subs] *)
Definition set_sub_topics (c : Cluster) (subs : list SubTopic) : Cluster :=
  {| c_id := c_id c; c_label := c_label c; c_keywords := c_keywords c;
     c_keyword_data := c_keyword_data c; c_centroid := c_centroid c;
     c_size := c_size c; c_density := c_density c; c_topic_id := c_topic_id c;
     c_topic_words := c_topic_words c;
     c_topic_distribution := c_topic_distribution c;
     c_sub_topics := Some subs |}.

(** [word_freq[word] += 1] on a [defaultdict(int)], in insertion order. *)
Fixpoint count_word (word : string) (word_freq : list (string * nat)) : list (string * nat) :=
  match word_freq with
  | [] => [(word, 1)]
  | (w, n) :: rest =>
      if decide (w = word) then (w, S n) :: rest else (w, n) :: count_word word rest
  end.

Fixpoint insert_by_count (x : string * nat) (l : list (string * nat)) : list (string * nat) :=
  match l with
  | [] => [x]
  | y :: l' => if decide (y.2 ≤ x.2) then x :: y :: l' else y :: insert_by_count x l'
  end.

(** [sorted(items, key=lambda x: x[1], reverse=True)]: by decreasing count,
    equal counts in their original order. *)
Definition sorted_by_count (items : list (string * nat)) : list (string * nat) :=
  foldr insert_by_count [] items.

(** All pairs [(a[i], a[j])] with [i < j], in the order of the nested loops
    [for i ...: for j in range(i + 1, ...)]. *)
Fixpoint pairs {A} (a : list A) : list (A * A) :=
  match a with
  | [] => []
  | x :: rest => ((λ y, (x, y)) <$> rest) ++ pairs rest
  end.

Section worker.
Context `{External}.

Definition _generate_embeddings (texts : list Val) : M Np.ndarray :=
  reraise (lift (encode texts)).

(** *** Cluster-count estimation *)

(** [range(2, max_clusters + 1)] *)
Definition k_range (max_clusters : nat) : list nat :=
  seq 2 (max_clusters + 1 - 2).

Definition _find_elbow_point (k_range : list nat) (inertias : list Q) : nat :=
  try_return
    (let second_derivative := Np.diff (Np.diff inertias) in
     i ← Np.argmax second_derivative;
     let elbow_idx := i + 2 in
     if decide (elbow_idx < length k_range) then Np.index k_range elbow_idx
     else Np.index_last k_range)
    5.

(** One pass of the loop [for k in k_range]: the inertia and the mean
    silhouette of the trial partition at [k]. *)
Definition trial (embeddings : Np.ndarray) (k : nat) : result (Q * Q) :=
  '(cluster_labels, inertia) ← KMeans_fit_predict k embeddings;
  s ← silhouette_score embeddings (VInt <$> cluster_labels);
  mret (inertia, s).

Definition trials (embeddings : Np.ndarray) (ks : list nat) : result (list (Q * Q)) :=
  mapM (trial embeddings) ks.

Definition _estimate_optimal_clusters (embeddings : Np.ndarray) : nat :=
  try_return
    (let max_clusters := Nat.min 20 (length embeddings / 5) in
     if decide (max_clusters < 2) then mret 2
     else
       let k_range := k_range max_clusters in
       ts ← trials embeddings k_range;
       let inertias := ts.*1 in
       let silhouette_scores := ts.*2 in
       let elbow_k := _find_elbow_point k_range inertias in
       i ← Np.argmax silhouette_scores;
       best_silhouette_k ← Np.index k_range i;
       let optimal_k := Nat.min elbow_k best_silhouette_k in
       mret optimal_k)
    5.

(** *** Building cluster objects *)

(** [[kw.get('keyword', '') for kw in cluster_keywords]] *)
Definition keyword_texts_of (keywords : list ref) : M (list Val) :=
  mapM (λ kw, kw_get kw "keyword" (VStr "")) keywords.

Definition _generate_cluster_label (cluster_keywords : list ref) : M string :=
  try_exceptM
    (keywords ← mapM (λ kw, v ← kw_get kw "keyword" (VStr ""); lift (Str.val_lower v))
                     cluster_keywords;
     let word_freq :=
       foldl (λ word_freq keyword,
                foldl (λ word_freq word,
                         if decide (3 < String.length word) then count_word word word_freq
                         else word_freq)
                      word_freq (String.words keyword))
             [] keywords in
     let common_words := take 3 (sorted_by_count word_freq) in
     match common_words with
     | _ :: _ => mret ("Cluster: " +:+ String.concat ", " common_words.*1)
     | [] => mret ("Cluster " +:+ pretty (length cluster_keywords) +:+ " keywords")
     end)
    (λ _, mret "Unnamed Cluster").

Definition _calculate_cluster_density (cluster_embeddings : Np.ndarray) : Q :=
  if decide (length cluster_embeddings < 2) then 0%Q
  else
    let distances := (λ p, linalg_norm (Np.sub p.1 p.2)) <$> pairs cluster_embeddings in
    match distances with
    | _ :: _ => Np.mean distances
    | [] => 0%Q
    end.

(** The body of the loop [for label in unique_labels] of
    [_create_cluster_objects]; [clusters] is the list built so far. *)
Definition cluster_object_of (keywords : list ref) (cluster_labels : list Z)
    (embeddings : Np.ndarray) (clusters : list Cluster) (label : Z) : M (list Cluster) :=
  if decide (label = (-1)%Z) then mret clusters
  else
    let cluster_indices := Np.where_eq cluster_labels label in
    cluster_keywords ← lift (mapM (Np.index keywords) cluster_indices);
    cluster_embeddings ← lift (mapM (Np.index embeddings) cluster_indices);
    let centroid := Np.mean_axis0 cluster_embeddings in
    cluster_label ← _generate_cluster_label cluster_keywords;
    id ← uuid4;
    texts ← keyword_texts_of cluster_keywords;
    let cluster_obj :=
      {| c_id := id; c_label := cluster_label; c_keywords := texts;
         c_keyword_data := cluster_keywords; c_centroid := Some centroid;
         c_size := length cluster_keywords;
         c_density := Some (_calculate_cluster_density cluster_embeddings);
         c_topic_id := None; c_topic_words := None;
         c_topic_distribution := None; c_sub_topics := None |} in
    for_ cluster_keywords (λ kw,
      kw_set kw "cluster_id" (VStr (c_id cluster_obj));;
      kw_set kw "cluster_label" (VStr cluster_label));;
    mret (clusters ++ [cluster_obj]).

Definition _create_cluster_objects (keywords : list ref) (cluster_labels : list Z)
    (embeddings : Np.ndarray) : M (list Cluster) :=
  reraise
    (let unique_labels := Np.unique cluster_labels in
     foldM (cluster_object_of keywords cluster_labels embeddings) [] unique_labels).

(** The body of the loop [for label in unique_labels] of
    [_create_topic_clusters]. *)
Definition topic_cluster_of (keywords : list ref) (cluster_labels : list Z)
    (topic_model : TopicFit) (clusters : list Cluster) (label : Z) : M (list Cluster) :=
  let cluster_indices := Np.where_eq cluster_labels label in
  cluster_keywords ← lift (mapM (Np.index keywords) cluster_indices);
  rows ← lift (mapM (Np.index (topic_distributions topic_model)) cluster_indices);
  let cluster_topic_dist := Np.mean_axis0 rows in
  top_words ← lift (fst <$> Np.index_Z (components_top topic_model) label);
  id ← uuid4;
  texts ← keyword_texts_of cluster_keywords;
  let cluster_obj :=
    {| c_id := id;
       c_label := "Topic " +:+ pretty (label + 1)%Z +:+ ": "
                    +:+ String.concat ", " (take 3 top_words);
       c_keywords := texts;
       c_keyword_data := cluster_keywords; c_centroid := None;
       c_size := length cluster_keywords; c_density := None;
       c_topic_id := Some label; c_topic_words := Some top_words;
       c_topic_distribution := Some cluster_topic_dist;
       c_sub_topics := None |} in
  for_ cluster_keywords (λ kw,
    kw_set kw "cluster_id" (VStr (c_id cluster_obj));;
    kw_set kw "cluster_label" (VStr (c_label cluster_obj));;
    kw_set kw "topic_id" (VInt label));;
  mret (clusters ++ [cluster_obj]).

Definition _create_topic_clusters (keywords : list ref) (cluster_labels : list Z)
    (topic_model : TopicFit) : M (list Cluster) :=
  reraise
    (let unique_labels := Np.unique cluster_labels in
     foldM (topic_cluster_of keywords cluster_labels topic_model) [] unique_labels).

(** *** The clustering strategies *)

Definition _hierarchical_clustering (embeddings : Np.ndarray) (keywords : list ref)
    (n_clusters linkage distance_threshold : Val) : M (list Cluster) :=
  reraise
    (let n_clusters :=
       match n_clusters with
       | VNone => VInt (Z.of_nat (_estimate_optimal_clusters embeddings))
       | _ => n_clusters
       end in
     cluster_labels ←
       lift (Agglomerative_fit_predict n_clusters linkage distance_threshold embeddings);
     _create_cluster_objects keywords cluster_labels embeddings).

Definition _topic_modeling_clustering (keyword_texts : list Val) (keywords : list ref)
    (n_topics method : Val) : M (list Cluster) :=
  reraise
    (topic_model ← lift (decompose (eq_str method "lda") n_topics keyword_texts);
     cluster_labels ← lift (mapM Np.argmax (topic_distributions topic_model));
     _create_topic_clusters keywords (Z.of_nat <$> cluster_labels) topic_model).

Definition _refine_cluster_with_topics (cluster : Cluster) (topic_clusters : list Cluster)
    : Cluster :=
  try_return
    (let refined_cluster := cluster in
     let sub_topics :=
       foldl (λ sub_topics topic_cluster,
                sub_topics ++ [{| st_id := c_id topic_cluster;
                                  st_label := c_label topic_cluster;
                                  st_keywords := c_keywords topic_cluster;
                                  st_topic_words := default [] (c_topic_words topic_cluster) |}])
             [] topic_clusters in
     mret (set_sub_topics refined_cluster sub_topics))
    cluster.

(** [[kw for kw in keywords if kw.get('cluster_id') == id]] *)
Definition keywords_of_cluster (keywords : list ref) (id : string) : M (list ref) :=
  foldM (λ acc kw,
           v ← kw_get kw "cluster_id" VNone;
           mret (if eq_str v id then acc ++ [kw] else acc))
        [] keywords.

(** The body of the loop [for cluster in semantic_clusters] of
    [_hybrid_clustering]. *)
Definition refine_step (keywords : list ref) (refined_clusters : list Cluster)
    (cluster : Cluster) : M (list Cluster) :=
  cluster_keywords ← keywords_of_cluster keywords (c_id cluster);
  cluster_texts ← keyword_texts_of cluster_keywords;
  if decide (5 < length cluster_texts) then
    cluster_embeddings ← _generate_embeddings cluster_texts;
    topic_clusters ←
      _topic_modeling_clustering cluster_texts cluster_keywords
        (VInt (Z.of_nat (Nat.min 3 (length cluster_texts / 2)))) (VStr "lda");
    let refined_cluster := _refine_cluster_with_topics cluster topic_clusters in
    mret (refined_clusters ++ [refined_cluster])
  else mret (refined_clusters ++ [cluster]).

Definition _hybrid_clustering (embeddings : Np.ndarray) (keyword_texts : list Val)
    (keywords : list ref) (n_clusters : Val) : M (list Cluster) :=
  reraise
    (semantic_clusters ←
       _hierarchical_clustering embeddings keywords n_clusters (VStr "ward") VNone;
     foldM (refine_step keywords) [] semantic_clusters).

(** *** The hierarchy builder *)

(** [cluster['centroid']] *)
Definition centroid_of (cluster : Cluster) : result (list Q) :=
  match c_centroid cluster with
  | Some v => Ok v
  | None => Raise (KeyError "centroid")
  end.

(** One greedy pass over [items], shared by the two grouping functions, which
    differ in what an item is: a cluster (a group starts as [[cluster]] and
    grows by [append]) or a group (it starts as [group.copy()] and grows by
    [extend]). [members] gives the clusters of an item.

    [absorb] is the body of the inner loop [for j, other in enumerate(items)],
    on the variables [(group, used)]. *)
Definition absorb {A} (members : A → list Cluster) (similarity_matrix : Np.ndarray)
    (threshold : Q) (i : nat) (vars : list Cluster * gset nat) (j_other : nat * A)
    : list Cluster * gset nat :=
  let '(group, used) := vars in
  let '(j, other) := j_other in
  if bool_decide (j ∉ used) && Np.Qgtb (Np.at2 similarity_matrix i j) threshold
  then (group ++ members other, {[j]} ∪ used)
  else (group, used).

(** The body of the outer loop [for i, item in enumerate(items)], on the
    variables [(groups, used)]. *)
Definition open_group {A} (members : A → list Cluster) (similarity_matrix : Np.ndarray)
    (threshold : Q) (items : list A) (vars : list (list Cluster) * gset nat)
    (i_item : nat * A) : list (list Cluster) * gset nat :=
  let '(groups, used) := vars in
  let '(i, item) := i_item in
  if decide (i ∈ used) then (groups, used)
  else
    let '(group, used) :=
      foldl (absorb members similarity_matrix threshold i)
            (members item, {[i]} ∪ used) (enumerate items) in
    (groups ++ [group], used).

Definition merge_pass {A} (members : A → list Cluster) (similarity_matrix : Np.ndarray)
    (threshold : Q) (items : list A) : list (list Cluster) :=
  (foldl (open_group members similarity_matrix threshold items) ([], ∅) (enumerate items)).1.

Definition _group_cluster_groups (groups : list (list Cluster)) : result (list (list Cluster)) :=
  if decide (length groups ≤ 1) then Ok []
  else
    group_centroids ←
      mapM (λ group,
              centroids ← mapM centroid_of group;
              centroids ← Np.array centroids;
              mret (Np.mean_axis0 centroids))
           groups;
    group_centroids ← Np.array group_centroids;
    let similarity_matrix := Np.gram group_centroids in
    let threshold := (6 # 10)%Q in
    let new_groups := merge_pass (λ group, group) similarity_matrix threshold groups in
    mret (if decide (length new_groups < length groups) then new_groups else []).

(** Keeps the equation [a = b] when matching on the value [b] of [a]. *)
Definition inspect {A} (a : A) : {b | a = b} := exist _ a eq_refl.

(** The loop of [_group_similar_clusters],

      [while current_level:
           levels.append(current_level)
           current_level = await self._group_cluster_groups(current_level)]

    as a recursion on the number of groups of the current level: a pass that
    returns a further level returns fewer groups than it was given. *)
Equations? levels_loop (current_level : list (list Cluster))
    (levels : list (list (list Cluster))) : result (list (list (list Cluster)))
    by wf (length current_level) lt :=
levels_loop [] levels := Ok levels;
levels_loop (g :: gs) levels with inspect (_group_cluster_groups (g :: gs)) := {
  | exist _ (Ok next_level) Hpass => levels_loop next_level (levels ++ [g :: gs]);
  | exist _ (Raise e) _ => Raise e }.
Proof.
  clear levels_loop. revert Hpass. unfold _group_cluster_groups.
  case_decide; [intros [= <-]; simpl; lia|].
  destruct (mapM _ _) as [cs|]; [|done]. simpl.
  destruct (Np.array cs); [|done]. simpl.
  case_decide; intros [= <-]; simpl in *; lia.
Qed.

Definition _group_similar_clusters (clusters : list Cluster)
    : result (list (list (list Cluster))) :=
  centroids ← mapM centroid_of clusters;
  centroids ← Np.array centroids;
  let similarity_matrix := Np.gram centroids in
  let threshold := (7 # 10)%Q in
  let groups := merge_pass (λ cluster, [cluster]) similarity_matrix threshold clusters in
  levels_loop groups [].

(** A node of the hierarchy dictionary. *)
Record HierarchyNode : Type := {
  n_id : string;
  n_label : string;
  n_children : list string;
  n_level : nat;
  n_size : nat;
}.

(** [node['children'].append(child)] *)
Definition append_child (child : string) (node : HierarchyNode) : HierarchyNode :=
  {| n_id := n_id node; n_label := n_label node;
     n_children := n_children node ++ [child];
     n_level := n_level node; n_size := n_size node |}.

(** The body of the loop [for group_clusters in group] at a given [level]. *)
Definition add_group_node (level : nat) (hierarchy : gmap string HierarchyNode)
    (group_clusters : list Cluster) : gmap string HierarchyNode :=
  let parent_node :=
    {| n_id := "level_" +:+ pretty level +:+ "_" +:+ pretty (size hierarchy);
       n_label := "Group " +:+ pretty (size hierarchy);
       n_children := c_id <$> group_clusters;
       n_level := level;
       n_size := sum_list (c_size <$> group_clusters) |} in
  let hierarchy := <[n_id parent_node := parent_node]> hierarchy in
  alter (append_child (n_id parent_node)) "root" hierarchy.

Definition _build_cluster_hierarchy (clusters : list Cluster)
    : result (gmap string HierarchyNode) :=
  let hierarchy : gmap string HierarchyNode :=
    {[ "root" := {| n_id := "root"; n_label := "All Keywords"; n_children := [];
                    n_level := 0; n_size := sum_list (c_size <$> clusters) |} ]} in
  cluster_groups ← _group_similar_clusters clusters;
  mret (foldl (λ hierarchy '(i, group), foldl (add_group_node (i + 1)) hierarchy group)
              hierarchy (enumerate cluster_groups)).

(** *** The topic model and topic coherence *)

(** [sum(1 for doc in documents
         if word1 in doc.lower() and word2 in doc.lower())] *)
Definition co_occurrences (word1 word2 : string) (documents : list Val) : result nat :=
  lowered ← mapM Str.val_lower documents;
  mret (length (filter (λ doc, Str.contains word1 doc && Str.contains word2 doc) lowered)).

Definition Qnat (n : nat) : Q := inject_Z (Z.of_nat n).

(** The loop variables are [(coherence_score, word_pairs)]; the inner loop
    runs over [topic_words[i+1:]]. *)
Definition _calculate_topic_coherence (topic_words : list string) (documents : list Val) : Q :=
  try_return
    ('(coherence_score, word_pairs) ←
       foldM (λ vars '(i, word1),
                foldM (λ '(coherence_score, word_pairs) word2,
                         co_occurrences ← co_occurrences word1 word2 documents;
                         let total_docs := length documents in
                         let coherence_score :=
                           if decide (0 < total_docs)
                           then (coherence_score + Qnat co_occurrences / Qnat total_docs)%Q
                           else coherence_score in
                         mret (coherence_score, word_pairs + 1))
                      vars (drop (i + 1) topic_words))
             (0%Q, 0) (enumerate topic_words);
     mret (if decide (0 < word_pairs) then (coherence_score / Qnat word_pairs)%Q else 0%Q))
    0%Q.

Record Topic : Type := {
  t_id : nat;
  t_words : list string;
  t_weights : list Q;
  t_coherence : Q;
}.

(** The [TopicModel] dataclass, without its [created_at] time stamp. *)
Record TopicModel : Type := {
  tm_id : string;
  tm_topics : list Topic;
  tm_topic_keywords : list (nat * list string);
  tm_coherence_score : Q;
  tm_perplexity : Q;
}.

Definition _generate_topic_model (keyword_texts : list Val) (clusters : list Cluster)
    : M TopicModel :=
  reraise
    (let n_topics := Nat.min 10 (length keyword_texts / 10) in
     lda ← lift (decompose true (VInt (Z.of_nat n_topics)) keyword_texts);
     let topics :=
       (λ '(topic_idx, (top_words, weights)),
          {| t_id := topic_idx; t_words := top_words; t_weights := weights;
             t_coherence := _calculate_topic_coherence top_words keyword_texts |})
       <$> enumerate (components_top lda) in
     let topic_keywords := (λ '(topic_idx, (top_words, _)), (topic_idx, top_words))
                           <$> enumerate (components_top lda) in
     let coherence_score := Np.mean (t_coherence <$> topics) in
     perplexity ← lift (perplexity lda);
     id ← uuid4;
     mret {| tm_id := id; tm_topics := topics; tm_topic_keywords := topic_keywords;
             tm_coherence_score := coherence_score; tm_perplexity := perplexity |}).

(** *** Metrics *)

Record ClusterMetrics : Type := {
  m_silhouette_score : Q;
  m_calinski_harabasz_score : Q;
  m_total_clusters : nat;
  m_total_keywords : nat;
  m_avg_cluster_size : Q;
  m_cluster_sizes : list nat;
}.

Definition _calculate_cluster_metrics (embeddings : Np.ndarray) (clusters : list Cluster)
    : M ClusterMetrics :=
  reraise
    ('(cluster_labels, cluster_embeddings) ←
       foldM (λ '(cluster_labels, cluster_embeddings) cluster,
                let cluster_keywords := c_keyword_data cluster in
                cluster_indices ←
                  foldM (λ acc '(i, kw),
                           v ← kw_get kw "cluster_id" VNone;
                           mret (if eq_str v (c_id cluster) then acc ++ [i] else acc))
                        [] (enumerate cluster_keywords);
                cluster_emb ← lift (mapM (Np.index embeddings) cluster_indices);
                mret (cluster_labels ++ replicate (length cluster_emb) (c_id cluster),
                      cluster_embeddings ++ cluster_emb))
             ([], []) clusters;
     let several := bool_decide (1 < length (remove_dups cluster_labels)) in
     silhouette_avg ←
       (if several then lift (silhouette_score cluster_embeddings (VStr <$> cluster_labels))
        else mret 0%Q);
     calinski_harabasz ←
       (if several
        then lift (calinski_harabasz_score cluster_embeddings (VStr <$> cluster_labels))
        else mret 0%Q);
     mret {| m_silhouette_score := silhouette_avg;
             m_calinski_harabasz_score := calinski_harabasz;
             m_total_clusters := length clusters;
             m_total_keywords := length cluster_embeddings;
             m_avg_cluster_size :=
               match clusters with
               | _ :: _ => (Qnat (length cluster_embeddings) / Qnat (length clusters))%Q
               | [] => 0%Q
               end;
             m_cluster_sizes := c_size <$> clusters |}).

(** *** The entry point *)

Record ClusteringResult : Type := {
  r_clusters : list Cluster;
  r_hierarchy : gmap string HierarchyNode;
  r_topic_model : TopicModel;
  r_metrics : ClusterMetrics;
  r_method : string;
  r_parameters : gmap string Val;
}.

(** Passing [**kwargs] to a function whose keyword parameters are [allowed]:
    any other key is a [TypeError]. *)
Definition bind_kwargs (allowed : list string) (kwargs : gmap string Val) : M unit :=
  if decide (dom kwargs ⊆ list_to_set allowed) then mret ()
  else raise (TypeError "got an unexpected keyword argument").

(** The value a keyword parameter receives. *)
Definition kwarg (kwargs : gmap string Val) (name : string) (dflt : Val) : Val :=
  default dflt (kwargs !! name).

(** The branch on [method]. *)
Definition dispatch (method : string) (kwargs : gmap string Val) (embeddings : Np.ndarray)
    (keyword_texts : list Val) (keywords : list ref) : M (list Cluster) :=
  if decide (method = "hierarchical") then
    bind_kwargs ["n_clusters"; "linkage"; "distance_threshold"] kwargs;;
    _hierarchical_clustering embeddings keywords
      (kwarg kwargs "n_clusters" VNone) (kwarg kwargs "linkage" (VStr "ward"))
      (kwarg kwargs "distance_threshold" VNone)
  else if decide (method = "topic_modeling") then
    bind_kwargs ["n_topics"; "method"] kwargs;;
    _topic_modeling_clustering keyword_texts keywords
      (kwarg kwargs "n_topics" (VInt 10)) (kwarg kwargs "method" (VStr "lda"))
  else if decide (method = "hybrid") then
    bind_kwargs ["n_clusters"] kwargs;;
    _hybrid_clustering embeddings keyword_texts keywords (kwarg kwargs "n_clusters" VNone)
  else raise (ValueError ("Unsupported clustering method: " +:+ method)).

Definition perform_advanced_clustering (keywords : list ref) (method : string)
    (kwargs : gmap string Val) : M ClusteringResult :=
  reraise
    (keyword_texts ← keyword_texts_of keywords;
     embeddings ← _generate_embeddings keyword_texts;
     clusters ← dispatch method kwargs embeddings keyword_texts keywords;
     hierarchy ← lift (_build_cluster_hierarchy clusters);
     topic_model ← _generate_topic_model keyword_texts clusters;
     metrics ← _calculate_cluster_metrics embeddings clusters;
     mret {| r_clusters := clusters; r_hierarchy := hierarchy;
             r_topic_model := topic_model; r_metrics := metrics;
             r_method := method; r_parameters := kwargs |}).

End worker.

(** A call from outside: the caller's list of keyword dictionaries becomes the
    heap, and [keywords] is the list of references to all of them. *)
Definition call `{External} (keywords : list (gmap string Val)) (method : string)
    (kwargs : gmap string Val) : result ClusteringResult * list (gmap string Val) :=
  let '(r, h) := perform_advanced_clustering (seq 0 (length keywords)) method kwargs
                   (Heap keywords 0) in
  (r, kw_objects h).

End AdvancedClusteringWorker.

(** ** [cluster_worker.py] *)

Module ClusterWorker.

(** The dictionary of [_calculate_cluster_metrics]. *)
Record ClusterStats : Type := {
  avg_search_volume : Q;
  avg_difficulty : Q;
  total_keywords : nat;
  intent_distribution : list (Val * nat);
}.

(** A cluster object; [metrics] is [None] for the empty dictionary. *)
Record ClusterObject : Type := {
  id : string;
  label : string;
  keywords : list (gmap string Val);
  centroid : list Q;
  metrics : option ClusterStats;
}.

Record Metadata : Type := {
  total_clusters : nat;
  avg_cluster_size : Q;
  silhouette : Q;
}.

Record ClusterResult : Type := {
  clusters : list ClusterObject;
  metadata : Metadata;
}.

(** [{'clusters': [], 'metadata': {'total_clusters': 0, 'avg_cluster_size': 0,
    'silhouette_score': 0}}] *)
Definition empty_result : ClusterResult :=
  {| clusters := [];
     metadata := {| total_clusters := 0; avg_cluster_size := 0; silhouette := 0 |} |}.

(** [kw[key]] *)
Definition item (kw : gmap string Val) (key : string) : result Val :=
  match kw !! key with
  | Some v => Ok v
  | None => Raise (KeyError key)
  end.

(** A number held in a dictionary, as NumPy reads it. *)
Definition number (v : Val) : result Q :=
  match v with
  | VInt n => Ok (inject_Z n)
  | VFloat q => Ok q
  | _ => Raise (TypeError "not a number")
  end.

(** [np.array(rows)] for dictionary values: a rectangular array of numbers.
    Other inputs are rejected here; in Python some of them are rejected only
    by the clustering call that follows. *)
Definition array_of (rows : list Val) : result Np.ndarray :=
  rows ← mapM (λ row, match row with
                      | VList xs => mapM number xs
                      | _ => Raise (ValueError "not a sequence")
                      end) rows;
  Np.array rows.

(** [round(x, digits)], to the nearest multiple of [10^-digits], ties to
    even. *)
Definition round (x : Q) (digits : nat) : Q :=
  let scale := (10 ^ Z.of_nat digits)%Z in
  let y := (x * inject_Z scale)%Q in
  let fl := (Qnum y / Zpos (Qden y))%Z in
  let twice_rest := (2 * (Qnum y - fl * Zpos (Qden y)))%Z in
  let n := if decide (twice_rest < Zpos (Qden y))%Z then fl
           else if decide (Zpos (Qden y) < twice_rest)%Z then (fl + 1)%Z
           else if Z.even fl then fl else (fl + 1)%Z in
  (inject_Z n / inject_Z scale)%Q.

Definition is_upper (c : ascii) : bool := bool_decide (65 ≤ nat_of_ascii c ≤ 90).
Definition is_lower (c : ascii) : bool := bool_decide (97 ≤ nat_of_ascii c ≤ 122).
Definition upper_ascii (c : ascii) : ascii :=
  if is_lower c then ascii_of_nat (nat_of_ascii c - 32) else c.

(** [s.title()] on ASCII: a letter that follows a letter is lower-cased, any
    other letter is upper-cased. *)
Fixpoint title_from (after_letter : bool) (s : string) : string :=
  match s with
  | EmptyString => EmptyString
  | String c s' =>
      let letter := is_upper c || is_lower c in
      String (if after_letter then Str.lower_ascii c else upper_ascii c)
             (title_from letter s')
  end.
Definition title (s : string) : string := title_from false s.

(** [counts[x] = counts.get(x, 0) + 1], in insertion order. *)
Fixpoint count {A} `{EqDecision A} (x : A) (counts : list (A * nat)) : list (A * nat) :=
  match counts with
  | [] => [(x, 1)]
  | (y, n) :: rest => if decide (y = x) then (y, S n) :: rest else (y, n) :: count x rest
  end.

#[global] Instance Q_eq_dec : EqDecision Q.
Proof. solve_decision. Defined.

#[global] Instance Val_eq_dec : EqDecision Val.
Proof.
  refine (fix go (x y : Val) : Decision (x = y) :=
    match x, y with
    | VNone, VNone => left _
    | VInt a, VInt b => cast_if (decide (a = b))
    | VFloat a, VFloat b => cast_if (decide (a = b))
    | VStr a, VStr b => cast_if (decide (a = b))
    | VList a, VList b => cast_if (@list_eq_dec _ go a b)
    | _, _ => right _
    end); abstract congruence.
Defined.

Definition stop_words : list string :=
  ["the"; "a"; "an"; "and"; "or"; "but"; "in"; "on"; "at"; "to"; "for"; "of"; "with"; "by"].

Section worker.
Context `{External}.

Definition _generate_embeddings (keywords : list (gmap string Val)) : result Np.ndarray :=
  texts ← mapM (λ kw, item kw "keyword") keywords;
  encode texts.

Definition _perform_clustering (embeddings : Np.ndarray) : result (list Z) :=
  HDBSCAN_fit_predict embeddings.

Definition _calculate_centroid (embeddings : Np.ndarray) : list Q :=
  Np.mean_axis0 embeddings.

Definition _generate_cluster_label (cluster_keywords : list (gmap string Val)) : result string :=
  keywords_text ← mapM (λ kw, v ← item kw "keyword"; Str.val_lower v) cluster_keywords;
  let word_counts :=
    foldl (λ word_counts keyword,
             foldl (λ word_counts word,
                      if bool_decide (word ∉ stop_words) && bool_decide (2 < String.length word)
                      then count word word_counts else word_counts)
                   word_counts (String.words keyword))
          [] keywords_text in
  label ←
    match word_counts with
    | _ :: _ =>
        let top_words := take 2 (AdvancedClusteringWorker.sorted_by_count word_counts) in
        mret (String.concat " " top_words.*1)
    | [] =>
        kw ← Np.index cluster_keywords 0;
        v ← item kw "keyword";
        match v with
        | VStr s => mret s
        | _ => Raise (AttributeError "object has no attribute 'title'")
        end
    end;
  mret (title label).

Definition _calculate_cluster_metrics (cluster_keywords : list (gmap string Val))
    : result (option ClusterStats) :=
  match cluster_keywords with
  | [] => mret None
  | _ :: _ =>
      let search_volumes := (λ kw, default (VInt 0) (kw !! "search_volume")) <$> cluster_keywords in
      let difficulties := (λ kw, default (VInt 50) (kw !! "difficulty")) <$> cluster_keywords in
      avg_search_volume ← Np.mean <$> mapM number search_volumes;
      avg_difficulty ← Np.mean <$> mapM number difficulties;
      let intents := (λ kw, default (VStr "unknown") (kw !! "intent")) <$> cluster_keywords in
      intent_counts ←
        foldM (λ intent_counts intent,
                 match intent with
                 | VList _ => Raise (TypeError "unhashable type: 'list'")
                 | _ => mret (count intent intent_counts)
                 end)
              [] intents;
      mret (Some {| avg_search_volume := round avg_search_volume 2;
                    avg_difficulty := round avg_difficulty 2;
                    total_keywords := length cluster_keywords;
                    intent_distribution := intent_counts |})
  end.

(** The loop runs over [set(cluster_labels)]. The order in which Python
    visits a set is not specified; the embedding visits the labels in the
    order of their first occurrence. *)
Definition _create_cluster_objects (keywords : list (gmap string Val))
    (cluster_labels : list Z) (embeddings : Np.ndarray) : M (list ClusterObject) :=
  let unique_clusters := remove_dups cluster_labels in
  foldM (λ clusters cluster_id,
           if decide (cluster_id = (-1)%Z) then mret clusters
           else
             let cluster_indices := Np.where_eq cluster_labels cluster_id in
             cluster_keywords ← lift (mapM (Np.index keywords) cluster_indices);
             cluster_embeddings ← lift (mapM (Np.index embeddings) cluster_indices);
             let centroid := _calculate_centroid cluster_embeddings in
             label ← lift (_generate_cluster_label cluster_keywords);
             metrics ← lift (_calculate_cluster_metrics cluster_keywords);
             id ← uuid4;
             let cluster_obj :=
               {| id := id; label := label; keywords := cluster_keywords;
                  centroid := centroid; metrics := metrics |} in
             mret (clusters ++ [cluster_obj]))
        [] unique_clusters.

Definition _calculate_cluster_metadata (clusters : list ClusterObject)
    (embeddings : Np.ndarray) (cluster_labels : list Z) : Metadata :=
  let total_clusters := length clusters in
  if decide (total_clusters = 0) then
    {| total_clusters := 0; avg_cluster_size := 0; silhouette := 0 |}
  else
    let cluster_sizes := (λ cluster, AdvancedClusteringWorker.Qnat (length (keywords cluster)))
                         <$> clusters in
    let avg_cluster_size := Np.mean cluster_sizes in
    let silhouette :=
      if bool_decide (1 < total_clusters)
         && bool_decide (1 < length (remove_dups cluster_labels))
      then
        try_return
          (if decide (length embeddings = length cluster_labels) then
             let valid := filter (λ p, p.2 ≠ (-1)%Z) (zip embeddings cluster_labels) in
             if decide (1 < length valid)
             then silhouette_score valid.*1 (VInt <$> valid.*2)
             else mret 0%Q
           else Raise (IndexError "boolean index did not match indexed array"))
          0%Q
      else 0%Q in
    {| total_clusters := total_clusters;
       avg_cluster_size := round avg_cluster_size 2;
       silhouette := round silhouette 3 |}.

(** The statements of [cluster_keywords] inside its [try] block. *)
Definition cluster_keywords_body (keywords : list (gmap string Val)) : M ClusterResult :=
  match keywords with
  | [] => mret empty_result
  | first :: _ =>
      embeddings ←
        (if negb (truthy (default VNone (first !! "embedding")))
         then lift (_generate_embeddings keywords)
         else lift (embeddings ← mapM (λ kw, item kw "embedding") keywords;
                    array_of embeddings));
      cluster_labels ← lift (_perform_clustering embeddings);
      clusters ← _create_cluster_objects keywords cluster_labels embeddings;
      let metadata := _calculate_cluster_metadata clusters embeddings cluster_labels in
      mret {| clusters := clusters; metadata := metadata |}
  end.

Definition cluster_keywords (keywords : list (gmap string Val)) : M ClusterResult :=
  try_exceptM (cluster_keywords_body keywords) (λ e, mret empty_result).

End worker.
End ClusterWorker.

(** * Part II: vocabulary of the specification *)

Module Spec.
Import AdvancedClusteringWorker.

(** ** The estimator *)

(** The elbow candidate: the cluster count two places after the position of
    the largest second difference of the inertias ([+2] on the position, and
    the candidates start at 2); 5 when there are fewer than three inertias,
    so that no second difference exists. *)
Definition elbow_candidate (inertias : list Q) : nat :=
  match Np.diff (Np.diff inertias) with
  | [] => 5
  | d :: ds => Np.argmax_from d 0 1 ds + 2 + 2
  end.

(** The silhouette candidate: the first cluster count with the largest mean
    silhouette. *)
Definition silhouette_candidate (silhouette_scores : list Q) : nat :=
  match silhouette_scores with
  | [] => 2
  | s :: ss => Np.argmax_from s 0 1 ss + 2
  end.

(** ** The hierarchy builder *)

(** One turn of the loop of [_group_similar_clusters]: from a non-empty
    current level, the pass returns the value [next] of [current_level] for
    the following test of the loop. *)
Definition loop_turn (next current : list (list Cluster)) : Prop :=
  current ≠ [] ∧ _group_cluster_groups current = Ok next.

(** A cluster that has a centroid of dimension [D], as every cluster built by
    [_create_cluster_objects] from embeddings of dimension [D] has. *)
Definition has_centroid (D : nat) (cluster : Cluster) : Prop :=
  ∃ centroid, c_centroid cluster = Some centroid ∧ length centroid = D.

(** A group of the hierarchy builder: at least one cluster, all with
    centroids of dimension [D]. *)
Definition is_group (D : nat) (group : list Cluster) : Prop :=
  group ≠ [] ∧ Forall (has_centroid D) group.

(** The key [f"level_{level}_{len(hierarchy)}"] of a group node. *)
Definition node_key (level n : nat) : string :=
  "level_" +:+ pretty level +:+ "_" +:+ pretty n.

(** The decimal rendering of a number has no underscore in it. *)
Fixpoint no_underscore (s : string) : Prop :=
  match s with
  | EmptyString => True
  | String c s' => c ≠ "_"%char ∧ no_underscore s'
  end.

(** ** Topic coherence *)

(** A document contains a term when the term occurs in the lower-cased
    document. *)
Definition contains_term (doc term : string) : bool := Str.contains term (Str.lower doc).

(** The fraction of the documents that contain both terms of a pair. *)
Definition co_occurrence_rate (documents : list string) (pair : string * string) : Q :=
  (Qnat (length (filter (λ doc, contains_term doc pair.1 && contains_term doc pair.2)
                        documents))
   / Qnat (length documents))%Q.

(** The unordered pairs of terms of a list without repetition: the pairs of
    entries at positions [i < j]. *)
Definition unordered_pairs (terms : list string) : list (string * string) :=
  '(i, x) ← enumerate terms; '(j, y) ← enumerate terms;
  if decide (i < j) then [(x, y)] else [].

(** The mean of the co-occurrence rates of all unordered pairs of terms, and 0
    for fewer than two terms. *)
Definition mean_pair_co_occurrence (terms documents : list string) : Q :=
  if decide (length terms < 2) then 0%Q
  else Np.mean (co_occurrence_rate documents <$> unordered_pairs terms).

(** What one pass of the inner loop, and one pass of the outer loop, do to
    the variables [(coherence_score, word_pairs)]. *)
Definition add_pair (documents : list string) (word1 : string) (vars : Q * nat)
    (word2 : string) : Q * nat :=
  ((vars.1 + co_occurrence_rate documents (word1, word2))%Q, vars.2 + 1).

Definition add_pairs_of (documents topic_words : list string) (vars : Q * nat)
    (i_word1 : nat * string) : Q * nat :=
  foldl (add_pair documents i_word1.2) vars (drop (i_word1.1 + 1) topic_words).

(** ** The strategies *)

(** The strategy names the entry point dispatches. *)
Definition supported_methods : list string := ["hierarchical"; "topic_modeling"; "hybrid"].

(** ** Keyword records *)

(** The field [key] of the record behind the reference [kw], if both exist. *)
Definition field (h : heap) (kw : ref) (key : string) : option Val :=
  kw_objects h !! kw ≫= lookup key.

(** [kw.get('keyword', '')] in the heap [h]. *)
Definition text_of (h : heap) (kw : ref) : Val := default (VStr "") (field h kw "keyword").

(** From [h] to [h'] no record was added or removed, and every record kept
    every field (present or absent) whose key is not among [keys]. *)
Definition frame (keys : list string) (h h' : heap) : Prop :=
  length (kw_objects h') = length (kw_objects h)
  ∧ ∀ kw key, key ∉ keys → field h' kw key = field h kw key.

(** A computation that writes no field outside [keys], whatever it returns
    or raises. *)
Definition writes_only {A} (keys : list string) (m : M A) : Prop :=
  ∀ h, frame keys h (m h).2.

(** The keys the two builders of cluster objects write. *)
Definition semantic_keys : list string := ["cluster_id"; "cluster_label"].
Definition topic_keys : list string := ["cluster_id"; "cluster_label"; "topic_id"].

(** The entry of [sub_topics] for a topic cluster: its id, label, keyword
    texts and top topic terms. *)
Definition sub_topic_of (topic_cluster : Cluster) : SubTopic :=
  {| st_id := c_id topic_cluster; st_label := c_label topic_cluster;
     st_keywords := c_keywords topic_cluster;
     st_topic_words := default [] (c_topic_words topic_cluster) |}.

(** The members of a cluster as the hybrid refiner finds them: the keywords
    whose [cluster_id] is the identifier of the cluster. *)
Definition members_of (h : heap) (keywords : list ref) (id : string) : list ref :=
  filter (λ kw, eq_str (default VNone (field h kw "cluster_id")) id = true) keywords.

(** A topic cluster whose keyword texts are texts of [keywords] as they were
    in the heap [h], and which carries top words. *)
Definition from_keywords (h : heap) (keywords : list nat) (c : Cluster) : Prop :=
  (∀ text, text ∈ c_keywords c → text ∈ text_of h <$> keywords)
  ∧ is_Some (c_topic_words c).

(** What holds of the dictionary before and after every pass of the two
    nested loops; [total] is the size recorded in the root. *)
Record hierarchy_inv (total : nat) (hierarchy : gmap string HierarchyNode) : Prop := {
  inv_root : ∃ root,
    hierarchy !! "root" = Some root ∧ n_id root = "root" ∧ n_level root = 0
    ∧ n_size root = total
    ∧ NoDup (n_children root)
    ∧ (∀ key, key ∈ n_children root ↔ key ≠ "root" ∧ is_Some (hierarchy !! key));
  inv_nodes : ∀ key node,
    hierarchy !! key = Some node → key ≠ "root" →
    n_id node = key ∧ 1 ≤ n_level node ∧ ∃ l m, key = node_key l m ∧ m < size hierarchy;
}.

End Spec.

(** * Sample environments and inputs *)

Module Samples.
Import AdvancedClusteringWorker.

(** An environment in which every library call raises. *)
Definition failing : External := {|
  encode := λ _, Raise (LibraryError "encode");
  KMeans_fit_predict := λ _ _, Raise (LibraryError "KMeans");
  silhouette_score := λ _ _, Raise (LibraryError "silhouette_score");
  calinski_harabasz_score := λ _ _, Raise (LibraryError "calinski_harabasz_score");
  Agglomerative_fit_predict := λ _ _ _ _, Raise (LibraryError "AgglomerativeClustering");
  decompose := λ _ _ _, Raise (LibraryError "LatentDirichletAllocation");
  linalg_norm := λ _, 0%Q;
  HDBSCAN_fit_predict := λ _, Raise (LibraryError "HDBSCAN");
|}.

(** An environment in which every library call returns: every text is
    embedded as the same vector, the agglomerative and density clusterings
    put all points in cluster 0, and the topic decomposition has three
    components and gives every text the distribution [(0.8, 0.1, 0.1)], as it
    does for a batch of identical texts. *)
Definition uniform : External := {|
  encode := λ texts, Ok ((λ _, [1%Q; 0%Q]) <$> texts);
  KMeans_fit_predict := λ k X, Ok ((λ _, 0%Z) <$> X, (1 # Pos.of_nat k)%Q);
  silhouette_score := λ _ _, Ok (1 # 2)%Q;
  calinski_harabasz_score := λ _ _, Ok 1%Q;
  Agglomerative_fit_predict := λ _ _ _ X, Ok ((λ _, 0%Z) <$> X);
  decompose := λ _ _ texts,
    Ok {| topic_distributions := (λ _, [(8 # 10)%Q; (1 # 10)%Q; (1 # 10)%Q]) <$> texts;
          components_top := [(["seo"; "tools"], [2%Q; 1%Q]);
                             (["buy"; "seo"], [2%Q; 1%Q]);
                             (["tutorial"; "seo"], [2%Q; 1%Q])];
          perplexity := Ok 1%Q |};
  linalg_norm := λ _, 0%Q;
  HDBSCAN_fit_predict := λ X, Ok ((λ _, 0%Z) <$> X);
|}.

(** A keyword record with a text only. *)
Definition keyword (text : string) : gmap string Val := {[ "keyword" := VStr text ]}.

(** A cluster object as [_create_cluster_objects] builds it. *)
Definition cluster (id : string) (centroid : list Q) (members : list ref) : Cluster :=
  {| c_id := id; c_label := "Cluster: " +:+ id; c_keywords := [];
     c_keyword_data := members; c_centroid := Some centroid;
     c_size := length members; c_density := Some 0%Q;
     c_topic_id := None; c_topic_words := None; c_topic_distribution := None;
     c_sub_topics := None |}.

(** Two clusters with orthogonal centroids, of three and two keywords. *)
Definition two_clusters : list Cluster :=
  [cluster "a" [1%Q; 0%Q] [0; 1; 2]; cluster "b" [0%Q; 1%Q] [3; 4]].

(** The hierarchy of [two_clusters]. *)
Definition two_clusters_hierarchy : gmap string HierarchyNode :=
  Eval vm_compute in
    match _build_cluster_hierarchy two_clusters with
    | Ok hierarchy => hierarchy
    | Raise _ => ∅
    end.

(** Ten keyword records with one text, their embeddings, and the outcome of
    the hierarchical step on them with [n_clusters = 1]: one cluster of all
    ten, and the heap in which the ten records carry its identifier. *)
Definition ten_keywords : list (gmap string Val) := replicate 10 (keyword "seo tools").
Definition ten_vectors : list (list Q) := replicate 10 [1%Q; 0%Q].

Definition ten_semantic : result (list Cluster) * heap :=
  Eval vm_compute in
    @_hierarchical_clustering uniform ten_vectors (seq 0 10) (VInt 1) (VStr "ward") VNone
      (Heap ten_keywords 0).

Definition ten_cluster : Cluster :=
  Eval vm_compute in
    match ten_semantic.1 with
    | Ok (cluster :: _) => cluster
    | _ => cluster "" [] []
    end.

Definition ten_heap : heap := Eval vm_compute in ten_semantic.2.

(** The fit of the sample environment on ten texts. *)
Definition ten_fit : TopicFit :=
  {| topic_distributions := replicate 10 [(8 # 10)%Q; (1 # 10)%Q; (1 # 10)%Q];
     components_top := [(["seo"; "tools"], [2%Q; 1%Q]);
                        (["buy"; "seo"], [2%Q; 1%Q]);
                        (["tutorial"; "seo"], [2%Q; 1%Q])];
     perplexity := Ok 1%Q |}.

(** An environment with two groups of texts: the text ["the"] is embedded
    as [(1, 0)] and every other text as [(0, 1)]; the agglomerative
    clustering separates the two; and the topic decomposition raises on texts
    that are all ["the"], as the vectorizer does on documents made of stop
    words only, and otherwise returns as in [uniform]. *)
Definition is_the (text : Val) : bool := eq_str text "the".

Definition stopword_env : External := {|
  encode := λ texts, Ok ((λ text, if is_the text then [1%Q; 0%Q] else [0%Q; 1%Q]) <$> texts);
  KMeans_fit_predict := λ k X, Ok ((λ _, 0%Z) <$> X, (1 # Pos.of_nat k)%Q);
  silhouette_score := λ _ _, Ok (1 # 2)%Q;
  calinski_harabasz_score := λ _ _, Ok 1%Q;
  Agglomerative_fit_predict := λ _ _ _ X,
    Ok ((λ row, if Qeq_bool (default 0%Q (row !! 0)) 1 then 0%Z else 1%Z) <$> X);
  decompose := λ _ _ texts,
    if forallb is_the texts
    then Raise (ValueError
                  "empty vocabulary; perhaps the documents only contain stop words")
    else Ok {| topic_distributions :=
                 (λ _, [(8 # 10)%Q; (1 # 10)%Q; (1 # 10)%Q]) <$> texts;
               components_top := [(["seo"; "tools"], [2%Q; 1%Q]);
                                  (["buy"; "seo"], [2%Q; 1%Q]);
                                  (["tutorial"; "seo"], [2%Q; 1%Q])];
               perplexity := Ok 1%Q |};
  linalg_norm := λ _, 0%Q;
  HDBSCAN_fit_predict := λ X, Ok ((λ _, 0%Z) <$> X);
|}.

(** Six records with the text ["the"] followed by six with ["seo tools"],
    and the outcome of the hierarchical step on them with [n_clusters = 2]. *)
Definition mixed_keywords : list (gmap string Val) :=
  replicate 6 (keyword "the") ++ replicate 6 (keyword "seo tools").
Definition mixed_vectors : list (list Q) :=
  replicate 6 [1%Q; 0%Q] ++ replicate 6 [0%Q; 1%Q].

Definition mixed_semantic : result (list Cluster) * heap :=
  Eval vm_compute in
    @_hierarchical_clustering stopword_env mixed_vectors (seq 0 12) (VInt 2) (VStr "ward") VNone
      (Heap mixed_keywords 0).

Definition mixed_first : Cluster :=
  Eval vm_compute in
    match mixed_semantic.1 with
    | Ok (cluster :: _) => cluster
    | _ => cluster "" [] []
    end.

Definition mixed_rest : list Cluster :=
  Eval vm_compute in
    match mixed_semantic.1 with
    | Ok (_ :: rest) => rest
    | _ => []
    end.

Definition mixed_heap : heap := Eval vm_compute in mixed_semantic.2.

(** Six embedding vectors, as for the batch of six keywords. *)
Definition six_vectors : list (list Q) := replicate 6 [1%Q; 0%Q].

End Samples.

(** * Further vocabulary *)

From Stdlib Require Import Lqa.

Module Vocab.
Import AdvancedClusteringWorker.

(** The keyword parameters of the procedure a strategy name is dispatched
    to: the parameters of [_hierarchical_clustering],
    [_topic_modeling_clustering] and [_hybrid_clustering] after the
    positional ones. *)
Definition accepted_kwargs (method : string) : list string :=
  if decide (method = "hierarchical") then ["n_clusters"; "linkage"; "distance_threshold"]
  else if decide (method = "topic_modeling") then ["n_topics"; "method"]
  else if decide (method = "hybrid") then ["n_clusters"]
  else [].

(** The entries of [keywords] at the positions whose label satisfies [P]; a
    position beyond the end of either list has no entry. *)
Definition labelled {A} (keywords : list A) (labels : list Z) (P : Z → Prop)
    `{∀ label, Decision (P label)} : list A :=
  (filter (λ p, P p.2) (zip keywords labels)).*1.

(** The cluster object that [_create_cluster_objects], called with the heap
    [h], builds for [label]: it holds the keywords at the positions labelled
    [label], their texts, their number, and the mean of the embeddings at
    these positions, and none of the keys that only topic clusters or refined
    clusters have. *)
Record semantic_cluster (keywords : list ref) (labels : list Z) (embeddings : Np.ndarray)
    (h : heap) (label : Z) (c : Cluster) : Prop := {
  sc_keyword_data : c_keyword_data c = labelled keywords labels (λ y, y = label);
  sc_keywords : c_keywords c = Spec.text_of h <$> c_keyword_data c;
  sc_size : c_size c = length (c_keyword_data c);
  sc_members : c_keyword_data c ≠ [];
  sc_centroid :
    c_centroid c = Some (Np.mean_axis0 (labelled embeddings labels (λ y, y = label)));
  sc_rows : length (labelled embeddings labels (λ y, y = label)) = length (c_keyword_data c);
  sc_density : is_Some (c_density c);
  sc_plain : c_topic_id c = None ∧ c_topic_words c = None
             ∧ c_topic_distribution c = None ∧ c_sub_topics c = None;
}.

(** What the hybrid refiner may do to a semantic cluster [s]: leave it as it
    is, or add a [sub_topics] list to it. *)
Definition refinement_of (s r : Cluster) : Prop :=
  r = s ∨ ∃ sub_topics, r = set_sub_topics s sub_topics.

(** The clusters of the items of a grouping pass whose position is in
    [used]; [o] is the position of the first of [items]. *)
Fixpoint covered {A} (members : A → list Cluster) (o : nat) (items : list A)
    (used : gset nat) : list Cluster :=
  match items with
  | [] => []
  | item :: items' =>
      (if decide (o ∈ used) then members item else [])
      ++ covered members (S o) items' used
  end.

(** A cluster that a grouping pass may add to the group opened by the item at
    position [i]: a cluster of an item whose similarity to that item exceeds
    the threshold. *)
Definition absorbed {A} (members : A → list Cluster) (similarity_matrix : Np.ndarray)
    (threshold : Q) (items : list A) (i : nat) (c : Cluster) : Prop :=
  ∃ j other, items !! j = Some other ∧ c ∈ members other
             ∧ Np.Qgtb (Np.at2 similarity_matrix i j) threshold = true.

(** A group of a grouping pass: the clusters of the item that opened it,
    followed by absorbed clusters. *)
Definition seeded {A} (members : A → list Cluster) (similarity_matrix : Np.ndarray)
    (threshold : Q) (items : list A) (group : list Cluster) : Prop :=
  ∃ i seed rest, items !! i = Some seed ∧ group = members seed ++ rest
                 ∧ Forall (absorbed members similarity_matrix threshold items i) rest.

(** Two clusters whose centroids have an inner product above [threshold]. *)
Definition similar (threshold : Q) (seed c : Cluster) : Prop :=
  ∃ u v, c_centroid seed = Some u ∧ c_centroid c = Some v ∧ (threshold < Np.dot u v)%Q.

(** The sum of the sizes of the nodes of a hierarchy that are at [level]. *)
Definition level_size (hierarchy : gmap string HierarchyNode) (level : nat) : nat :=
  sum_list_with (λ p : string * HierarchyNode,
                   if decide (n_level p.2 = level) then n_size p.2 else 0)
                (map_to_list hierarchy).

(** A node that stands for a group of clusters: it lists their identifiers
    and has the sum of their sizes. *)
Definition node_of_group (node : HierarchyNode) (group : list Cluster) : Prop :=
  n_children node = c_id <$> group ∧ n_size node = sum_list (c_size <$> group).

(** What holds of the hierarchy dictionary for [clusters] once the nodes of
    its first [depth] levels have been added: the invariant of the builder,
    every level up to [depth] (the root is level 0) has the total size, the
    levels above have none, and every node other than the root stands for a
    non-empty group of the clusters, at a level from 1 to [depth]. *)
Definition built (clusters : list Cluster) (depth : nat)
    (hierarchy : gmap string HierarchyNode) : Prop :=
  Spec.hierarchy_inv (sum_list (c_size <$> clusters)) hierarchy
  ∧ (∀ L, level_size hierarchy L
          = if decide (L ≤ depth) then sum_list (c_size <$> clusters) else 0)
  ∧ (∀ key node, hierarchy !! key = Some node → key ≠ "root" →
       1 ≤ n_level node ≤ depth
       ∧ ∃ group, group ≠ [] ∧ group ⊆+ clusters ∧ node_of_group node group).

(** The positions, inside the [keyword_data] of a cluster, of the keywords
    whose [cluster_id] is the identifier of the cluster. *)
Definition member_positions (h : heap) (cluster : Cluster) : list nat :=
  (filter (λ p, eq_str (default VNone (Spec.field h p.2 "cluster_id")) (c_id cluster) = true)
          (enumerate (c_keyword_data cluster))).*1.

(** The labels and the rows that [_calculate_cluster_metrics] collects from
    [clusters], added to [collected]: for every cluster, the rows of the
    embedding matrix at its member positions, each with the identifier of
    the cluster. *)
Definition collect (embeddings : Np.ndarray) (h : heap)
    (collected : list string * Np.ndarray) (clusters : list Cluster)
    : result (list string * Np.ndarray) :=
  foldM (λ '(cluster_labels, cluster_embeddings) cluster,
           cluster_emb ← mapM (Np.index embeddings) (member_positions h cluster);
           mret (cluster_labels ++ replicate (length cluster_emb) (c_id cluster),
                 cluster_embeddings ++ cluster_emb))
        collected clusters.

(** The number of times [x] occurs in [xs]. *)
Definition occurrences {A} `{EqDecision A} (x : A) (xs : list A) : nat :=
  length (filter (λ y, y = x) xs).

(** [top] lists the [k] most frequent entries of [xs], or all of them when
    fewer are distinct, each once and the most frequent first: no entry that
    is left out occurs more often than a listed one. *)
Record most_frequent (k : nat) (xs top : list string) : Prop := {
  mf_NoDup : NoDup top;
  mf_length : length top = Nat.min k (length (remove_dups xs));
  mf_elem : ∀ w, w ∈ top → w ∈ xs;
  mf_top : ∀ w w', w ∈ top → w' ∈ xs → w' ∉ top → occurrences w' xs ≤ occurrences w xs;
  mf_sorted : StronglySorted (λ w w', occurrences w' xs ≤ occurrences w xs) top;
}.

(** [kw.get('intent', 'unknown')] *)
Definition intent_of (kw : gmap string Val) : Val := default (VStr "unknown") (kw !! "intent").

(** The embeddings [ClusterWorker.cluster_keywords] works with, for a batch
    that starts with the record [first]: the ones the records carry when
    [first] carries one, the embeddings of the texts otherwise. *)
Definition batch_embeddings `{External} (first : gmap string Val)
    (keywords : list (gmap string Val)) : result Np.ndarray :=
  if negb (truthy (default VNone (first !! "embedding")))
  then ClusterWorker._generate_embeddings (first :: keywords)
  else embeddings ← mapM (λ kw, ClusterWorker.item kw "embedding") (first :: keywords);
       ClusterWorker.array_of embeddings.

(** An environment like [Samples.uniform], in which the density clustering
    finds no cluster: every point is noise. *)
Definition all_noise : External := {|
  encode := λ texts, Ok ((λ _, [1%Q; 0%Q]) <$> texts);
  KMeans_fit_predict := λ k X, Ok ((λ _, 0%Z) <$> X, (1 # Pos.of_nat k)%Q);
  silhouette_score := λ _ _, Ok (1 # 2)%Q;
  calinski_harabasz_score := λ _ _, Ok 1%Q;
  Agglomerative_fit_predict := λ _ _ _ X, Ok ((λ _, 0%Z) <$> X);
  decompose := λ _ _ _, Raise (LibraryError "LatentDirichletAllocation");
  linalg_norm := λ _, 0%Q;
  HDBSCAN_fit_predict := λ X, Ok ((λ _, (-1)%Z) <$> X);
|}.

(** No keyword record of [h] carries, as its [cluster_id], an identifier that
    [uuid4] has yet to give out. *)
Definition fresh_ids (h : heap) : Prop :=
  ∀ kw k, uuid_supply h ≤ k →
          Spec.field h kw "cluster_id" ≠ Some (VStr ("uuid-" +:+ pretty k)).

(** The topic decomposition returns one row of topic weights for every
    text, as [fit_transform] does. *)
Definition one_row_per_text `{External} : Prop :=
  ∀ lda n_topics texts fit,
    decompose lda n_topics texts = Ok fit →
    length (topic_distributions fit) = length texts.

End Vocab.
(** * Part III: properties *)

(** ** Results and loops *)

Section monad_facts.
Context {A B : Type}.

Lemma bind_Ok (m : result A) (f : A → result B) b :
  m ≫= f = Ok b ↔ ∃ a, m = Ok a ∧ f a = Ok b.
Proof. destruct m; simpl; naive_solver. Qed.

Lemma mapM_Ok_length (f : A → result B) l bs :
  mapM f l = Ok bs → length bs = length l.
Proof.
  revert bs. induction l as [|x l IH]; intros bs; simpl.
  - by intros [= <-].
  - destruct (f x) as [b|]; [|done]. simpl.
    destruct (mapM f l) as [bs'|] eqn:E; [|done]. simpl.
    intros [= <-]. simpl. f_equal. by apply IH.
Qed.

Lemma mapM_Ok_lookup (f : A → result B) l bs i x :
  mapM f l = Ok bs → l !! i = Some x → ∃ b, f x = Ok b ∧ bs !! i = Some b.
Proof.
  revert bs i. induction l as [|y l IH]; intros bs i; [done|]. simpl.
  destruct (f y) as [b|] eqn:Ey; [|done]. simpl.
  destruct (mapM f l) as [bs'|] eqn:E; [|done]. simpl.
  intros [= <-]. destruct i as [|i]; simpl.
  - intros [= <-]. eauto.
  - intros Hi. by apply IH.
Qed.

Lemma mapM_total (f : A → result B) (g : A → B) l :
  (∀ x, x ∈ l → f x = Ok (g x)) → mapM f l = Ok (g <$> l).
Proof.
  induction l as [|x l IH]; intros Hf; [done|]. simpl.
  rewrite Hf by left. simpl. rewrite IH; [done|].
  intros y Hy. apply Hf. by right.
Qed.

End monad_facts.

(** ** NumPy operations *)

Module NpFacts.

Lemma length_diff a : length (Np.diff a) = length a - 1.
Proof.
  induction a as [|x [|y a] IH]; [done..|].
  change (Np.diff (x :: y :: a)) with ((y - x)%Q :: Np.diff (y :: a)).
  simpl in *. rewrite IH. lia.
Qed.

Lemma argmax_from_lt best besti i a :
  besti < i → Np.argmax_from best besti i a < i + length a.
Proof.
  revert best besti i. induction a as [|x a IH]; intros best besti i Hi; simpl.
  - lia.
  - destruct (Np.Qgtb x best).
    + specialize (IH x i (S i)). lia.
    + specialize (IH best besti (S i)). lia.
Qed.

Lemma argmax_lt a i : Np.argmax a = Ok i → i < length a.
Proof.
  destruct a as [|x a]; [done|]. intros [= <-]. simpl.
  pose proof (argmax_from_lt x 0 1 a). lia.
Qed.

Lemma argmax_nonempty a : a ≠ [] → ∃ i, Np.argmax a = Ok i.
Proof. destruct a; [done|]. simpl. eauto. Qed.

End NpFacts.

(** ** The optimal-cluster estimator *)

Module EstimatorFacts.
Import AdvancedClusteringWorker Spec.

Lemma elbow_candidate_ge inertias : 4 ≤ elbow_candidate inertias.
Proof. unfold elbow_candidate. destruct (Np.diff _); lia. Qed.

Lemma length_k_range m : length (k_range m) = m - 1.
Proof. unfold k_range. rewrite length_seq. lia. Qed.

Lemma lookup_k_range m i : i < m - 1 → k_range m !! i = Some (2 + i).
Proof. intros Hi. unfold k_range. apply lookup_seq. lia. Qed.

Lemma find_elbow_point_spec m inertias :
  length inertias = m - 1 →
  _find_elbow_point (k_range m) inertias = elbow_candidate inertias.
Proof.
  intros Hlen. unfold _find_elbow_point, elbow_candidate.
  assert (length (Np.diff (Np.diff inertias)) = length inertias - 1 - 1) as Hd
    by (by rewrite !NpFacts.length_diff).
  destruct (Np.diff (Np.diff inertias)) as [|d ds]; [done|]. simpl in *.
  pose proof (NpFacts.argmax_from_lt d 0 1 ds).
  rewrite decide_True by (rewrite length_k_range; lia).
  unfold Np.index. rewrite lookup_k_range by lia. simpl. lia.
Qed.

Section with_external.
Context `{External}.

Lemma trials_length embeddings ks ts :
  trials embeddings ks = Ok ts → length ts = length ks.
Proof. apply mapM_Ok_length. Qed.

(** C1 (as amended). With [N] vectors and [max_clusters = min(20, N // 5)]:
    when [max_clusters < 2] the estimator returns 2; otherwise, when every
    trial partition succeeds, it returns the smaller of the elbow candidate
    and the silhouette candidate, a value within [[2, max_clusters]]; and
    when a trial fails it returns 5. *)
Theorem estimate_optimal_clusters_spec (embeddings : Np.ndarray) :
  let max_clusters := Nat.min 20 (length embeddings / 5) in
  let k := _estimate_optimal_clusters embeddings in
  if decide (max_clusters < 2) then k = 2
  else
    match trials embeddings (k_range max_clusters) with
    | Raise _ => k = 5
    | Ok ts =>
        k = Nat.min (elbow_candidate ts.*1) (silhouette_candidate ts.*2)
        ∧ 2 ≤ k ≤ max_clusters
    end.
Proof.
  intros max_clusters k. subst k. unfold _estimate_optimal_clusters.
  fold max_clusters. case_decide as Hm; [done|].
  destruct (trials _ _) as [ts|e] eqn:Hts; [|done]. simpl.
  apply trials_length in Hts. rewrite length_k_range in Hts.
  rewrite find_elbow_point_spec by (rewrite length_fmap; lia).
  unfold silhouette_candidate.
  assert (length ts.*2 = max_clusters - 1) as Hl by (by rewrite length_fmap).
  destruct (ts.*2) as [|s ss] eqn:Hsil; [simpl in Hl; lia|]. simpl in *.
  pose proof (NpFacts.argmax_from_lt s 0 1 ss).
  unfold Np.index. rewrite lookup_k_range by lia. simpl.
  pose proof (elbow_candidate_ge ts.*1). lia.
Qed.

End with_external.

(** With six vectors the candidate range is empty ([6 // 5 = 1]) and the
    estimator returns 2. *)
Example estimate_six_vectors :
  @_estimate_optimal_clusters Samples.uniform Samples.six_vectors = 2.
Proof. reflexivity. Qed.

(** C1, counterexample: for six vectors, where [min(20, 6 // 5) = 1 < 2], the
    estimator does not return 5. *)
Lemma estimate_infeasible_range_not_5 :
  2 ≤ length Samples.six_vectors
  ∧ Nat.min 20 (length Samples.six_vectors / 5) < 2
  ∧ @_estimate_optimal_clusters Samples.uniform Samples.six_vectors ≠ 5.
Proof. split_and!; [simpl; lia| simpl; lia| by rewrite estimate_six_vectors]. Qed.

(** With twenty vectors the candidates are 2, 3 and 4; in the sample
    environment the inertias are 1/2, 1/3, 1/4 and all silhouettes agree, so
    the elbow candidate is 4 and the silhouette candidate is 2. *)
Example estimate_twenty_vectors :
  @_estimate_optimal_clusters Samples.uniform (replicate 20 [1%Q; 0%Q]) = 2.
Proof. reflexivity. Qed.

(** When the trial partitions fail the estimator returns 5. *)
Example estimate_failing :
  @_estimate_optimal_clusters Samples.failing (replicate 20 [1%Q; 0%Q]) = 5.
Proof. reflexivity. Qed.

End EstimatorFacts.

(** ** The hierarchy builder *)

Module HierarchyFacts.
Import AdvancedClusteringWorker Spec.

(** *** Termination of the grouping loop *)

Lemma group_cluster_groups_shrinks groups next :
  _group_cluster_groups groups = Ok next →
  next ≠ [] → 1 < length groups ∧ length next < length groups.
Proof.
  unfold _group_cluster_groups.
  case_decide; [by intros [= <-]|].
  destruct (mapM _ _) as [cs|]; [|done]. simpl.
  destruct (Np.array cs); [|done]. simpl.
  case_decide; intros [= <-]; [lia|done].
Qed.

Lemma group_cluster_groups_stops groups :
  length groups ≤ 1 → _group_cluster_groups groups = Ok [].
Proof. intros Hl. unfold _group_cluster_groups. by rewrite decide_True. Qed.

Lemma loop_turn_lt next current : loop_turn next current → length next < length current.
Proof.
  intros [Hne Hpass]. destruct next as [|g next].
  - destruct current; [done|]. simpl. lia.
  - by apply group_cluster_groups_shrinks in Hpass as [_ ?].
Qed.

Lemma levels_loop_length current levels out :
  levels_loop current levels = Ok out →
  length levels ≤ length out ≤ length levels + length current.
Proof.
  funelim (levels_loop current levels); simp levels_loop.
  - intros [= <-]. simpl. lia.
  - intros Hout.
    match goal with IH : ∀ out, levels_loop _ _ = Ok out → _ |- _ => apply IH in Hout end.
    assert (loop_turn next_level (g :: gs)) as Hlt%loop_turn_lt by done.
    rewrite length_app in Hout. simpl in *. lia.
  - done.
Qed.

(** C6. Every pass of the grouping loop that returns a further level was
    given more than one group and returns strictly fewer groups than it was
    given; a current level of at most one group yields no further level; so
    every sequence of turns of the loop is finite, and the loop, started on
    [n] groups, has recorded at most [n] levels when it ends. *)
Theorem grouping_loop_terminates :
  (∀ groups next,
     _group_cluster_groups groups = Ok next →
     next = [] ∨ (1 < length groups ∧ length next < length groups))
  ∧ (∀ groups, length groups ≤ 1 → _group_cluster_groups groups = Ok [])
  ∧ well_founded loop_turn
  ∧ (∀ groups out, levels_loop groups [] = Ok out → length out ≤ length groups).
Proof.
  split_and!.
  - intros groups next Hpass. destruct (decide (next = [])) as [|Hne]; [by left|].
    right. by eapply group_cluster_groups_shrinks.
  - apply group_cluster_groups_stops.
  - apply (wf_projected lt length); [apply loop_turn_lt|apply lt_wf].
  - intros groups out Hout%levels_loop_length. simpl in Hout. lia.
Qed.

(** *** Keys of group nodes *)

Lemma pretty_N_go_no_underscore x s : no_underscore s → no_underscore (pretty_N_go x s).
Proof.
  revert s. induction (N.lt_wf_0 x) as [x _ IH]; intros s Hs.
  destruct (decide (x = 0)%N) as [->|]; [by rewrite pretty_N_go_0|].
  rewrite pretty_N_go_step by lia.
  apply IH; [apply N.div_lt; lia|]. split; [|done].
  unfold pretty_N_char. by repeat case_match.
Qed.

Lemma pretty_nat_no_underscore (n : nat) : no_underscore (pretty n).
Proof.
  unfold pretty, pretty_nat, pretty, pretty_N.
  case_decide; [by simpl|]. by apply pretty_N_go_no_underscore.
Qed.

Lemma app_underscore_inj s1 s2 t1 t2 :
  no_underscore s1 → no_underscore s2 →
  s1 +:+ String "_" t1 = s2 +:+ String "_" t2 → s1 = s2 ∧ t1 = t2.
Proof.
  revert s2. induction s1 as [|c s1 IH]; intros [|d s2]; simpl.
  - by intros _ _ [= ->].
  - intros _ [Hd _] [= <- _]. done.
  - intros [Hc _] _ [= -> _]. done.
  - intros [_ H1] [_ H2] [= -> Heq]. destruct (IH s2 H1 H2 Heq) as [-> ->]. done.
Qed.

Lemma node_key_inj l m l' m' : node_key l m = node_key l' m' → l = l' ∧ m = m'.
Proof.
  unfold node_key. intros Heq. apply (inj (String.app "level_")) in Heq.
  apply app_underscore_inj in Heq as [Hl Hm]; [|apply pretty_nat_no_underscore..].
  split; by apply (inj pretty).
Qed.

Lemma node_key_not_root l m : node_key l m ≠ "root".
Proof. unfold node_key. done. Qed.

Lemma map_size_alter {A} (f : A → A) (m : gmap string A) i :
  size (alter f i m) = size m.
Proof.
  rewrite alter_alt. destruct (m !! i) eqn:Hi; [|done].
  apply map_size_insert_Some. by rewrite Hi.
Qed.

(** *** The dictionary built by [_build_cluster_hierarchy] *)

Lemma hierarchy_inv_init total :
  hierarchy_inv total
    {[ "root" := {| n_id := "root"; n_label := "All Keywords"; n_children := [];
                    n_level := 0; n_size := total |} ]}.
Proof.
  split.
  - eexists. rewrite lookup_singleton_eq. split_and!; try done; [constructor|].
    intros key. split; [by intros ?%elem_of_nil|].
    intros [Hne [node Hnode]]. by rewrite lookup_singleton_ne in Hnode.
  - intros key node Hnode Hne. by rewrite lookup_singleton_ne in Hnode.
Qed.

Lemma add_group_node_fresh total hierarchy level :
  hierarchy_inv total hierarchy → hierarchy !! node_key level (size hierarchy) = None.
Proof.
  intros [_ Hnodes]. destruct (hierarchy !! node_key _ _) as [node|] eqn:Hnode; [|done].
  apply Hnodes in Hnode as (_ & _ & l & m & Hkey & Hm); [|apply node_key_not_root].
  apply node_key_inj in Hkey as [_ <-]. lia.
Qed.

Lemma add_group_node_inv total hierarchy level group_clusters :
  1 ≤ level →
  hierarchy_inv total hierarchy →
  hierarchy_inv total (add_group_node level hierarchy group_clusters).
Proof.
  intros Hlevel Hinv.
  pose proof (add_group_node_fresh _ _ level Hinv) as Hfresh.
  destruct Hinv as [(root & Hroot & Hid & Hlvl & Hsize & Hnodup & Hchildren) Hnodes].
  unfold add_group_node. fold (node_key level (size hierarchy)).
  set (key := node_key level (size hierarchy)) in *.
  assert (key ≠ "root") as Hkey by apply node_key_not_root.
  split.
  - exists (append_child key root).
    rewrite lookup_alter_eq, lookup_insert_ne, Hroot by done.
    split_and!; try done.
    + simpl. apply NoDup_app. split_and!; [done| |apply NoDup_singleton].
      intros k Hk ->%list_elem_of_singleton.
      apply Hchildren in Hk as [_ [? Hk]]. congruence.
    + intros k. simpl. rewrite elem_of_app, list_elem_of_singleton, Hchildren.
      rewrite lookup_alter_is_Some.
      destruct (decide (k = key)) as [->|Hne].
      * rewrite lookup_insert_eq. naive_solver.
      * rewrite lookup_insert_ne by done. naive_solver.
  - intros k node Hk Hne.
    rewrite lookup_alter_ne, lookup_insert in Hk by done.
    rewrite map_size_alter, map_size_insert_None by done.
    case_decide as Hkk.
    + injection Hk as <-. subst k. simpl. split_and!; [done..|].
      exists level, (size hierarchy). split; [done|lia].
    + apply Hnodes in Hk as (? & ? & l & m & -> & ?); [|done].
      split_and!; [done..|]. exists l, m. split; [done|lia].
Qed.

Lemma add_group_node_size total hierarchy level group_clusters :
  hierarchy_inv total hierarchy →
  size (add_group_node level hierarchy group_clusters) = S (size hierarchy).
Proof.
  intros Hinv. pose proof (add_group_node_fresh _ _ level Hinv) as Hfresh.
  unfold add_group_node. by rewrite map_size_alter, map_size_insert_None.
Qed.
(** *** The two nested loops *)

Lemma add_group_nodes_inv total level group hierarchy :
  1 ≤ level → hierarchy_inv total hierarchy →
  hierarchy_inv total (foldl (add_group_node level) hierarchy group)
  ∧ size (foldl (add_group_node level) hierarchy group) = size hierarchy + length group.
Proof.
  intros Hlevel. revert hierarchy.
  induction group as [|g group IH]; intros hierarchy Hinv; simpl; [split; [done|lia]|].
  destruct (IH (add_group_node level hierarchy g)) as [? ->];
    [by apply add_group_node_inv|].
  split; [done|]. erewrite add_group_node_size by done. lia.
Qed.

Lemma add_levels_inv total (levels : list (nat * list (list Cluster))) hierarchy :
  hierarchy_inv total hierarchy →
  let hierarchy' :=
    foldl (λ hierarchy '(i, group), foldl (add_group_node (i + 1)) hierarchy group)
          hierarchy levels in
  hierarchy_inv total hierarchy'
  ∧ size hierarchy' = size hierarchy + sum_list (length <$> levels.*2).
Proof.
  revert hierarchy. induction levels as [|[i group] levels IH]; intros hierarchy Hinv; csimpl.
  - split; [done|lia].
  - destruct (add_group_nodes_inv total (i + 1) group hierarchy) as [Hinv' Hsize];
      [lia|done|].
    destruct (IH _ Hinv') as [? ->]. split; [done|]. rewrite Hsize. lia.
Qed.

(** *** The levels that [_group_similar_clusters] returns *)

Lemma levels_loop_prefix current levels out :
  levels_loop current levels = Ok out →
  match current with
  | [] => out = levels
  | _ :: _ => ∃ rest, out = levels ++ current :: rest
  end.
Proof.
  funelim (levels_loop current levels); simp levels_loop.
  - by intros [= <-].
  - intros Hout.
    match goal with IH : ∀ out, levels_loop _ _ = Ok out → _ |- _ => apply IH in Hout end.
    destruct next_level.
    + subst out. by exists [].
    + destruct Hout as [rest ->]. rewrite <-app_assoc. simpl. eauto.
  - done.
Qed.

Lemma open_group_grows {A} (members : A → list Cluster) similarity_matrix threshold
    (items : list A) vars i_item :
  length vars.1 ≤ length (open_group members similarity_matrix threshold items vars i_item).1.
Proof.
  destruct vars as [groups used], i_item as [i item]. simpl.
  case_decide; [done|]. destruct (foldl _ _ _) as [group used']. simpl.
  rewrite length_app. lia.
Qed.

Lemma open_groups_grow {A} (members : A → list Cluster) similarity_matrix threshold
    (items : list A) l vars :
  length vars.1
  ≤ length (foldl (open_group members similarity_matrix threshold items) vars l).1.
Proof.
  revert vars. induction l as [|i_item l IH]; intros vars; simpl; [done|].
  etrans; [|apply IH]. apply open_group_grows.
Qed.

Lemma merge_pass_nonempty {A} (members : A → list Cluster) similarity_matrix threshold
    (items : list A) :
  items ≠ [] → merge_pass members similarity_matrix threshold items ≠ [].
Proof.
  destruct items as [|x items]; [done|]. intros _. unfold merge_pass, enumerate.
  rewrite imap_cons. cbn [foldl].
  assert (0 < length (open_group members similarity_matrix threshold (x :: items)
                        ([], ∅) (0, x)).1) as Hpos.
  { unfold open_group. rewrite decide_False by set_solver.
    destruct (foldl _ _ _) as [group used']. simpl. lia. }
  match goal with |- (foldl ?f ?vars ?l).1 ≠ [] =>
    pose proof (open_groups_grow members similarity_matrix threshold (x :: items) l vars) as Hle
  end.
  intros Heq. rewrite Heq in Hle. change (length (@nil (list Cluster))) with 0 in Hle. lia.
Qed.

(** *** The hierarchy builder returns *)

Lemma array_Ok (D : nat) (rows : list (list Q)) :
  Forall (λ row, length row = D) rows → Np.array rows = Ok rows.
Proof.
  intros Hrows. unfold Np.array. destruct rows as [|row rows]; [done|].
  rewrite decide_True; [done|].
  inversion Hrows as [|?? Hrow Hrest]; subst.
  constructor; [done|]. eapply Forall_impl; [done|]. by intros ? ->.
Qed.

Lemma centroids_Ok (D : nat) (clusters : list Cluster) :
  Forall (has_centroid D) clusters →
  ∃ centroids, mapM centroid_of clusters = Ok centroids
               ∧ length centroids = length clusters
               ∧ Forall (λ row, length row = D) centroids.
Proof.
  induction 1 as [|c clusters (v & Hv & Hlen) _ (vs & Hvs & Hlens & Hall)].
  - by exists [].
  - assert (centroid_of c = Ok v) as Hc by (unfold centroid_of; by rewrite Hv).
    exists (v :: vs). cbn [mapM]. rewrite Hc, Hvs.
    split_and!; [done|simpl; lia|by constructor].
Qed.

Lemma length_mean_axis0 (D : nat) (rows : list (list Q)) :
  rows ≠ [] → Forall (λ row, length row = D) rows → length (Np.mean_axis0 rows) = D.
Proof.
  intros Hne Hrows. destruct rows as [|row rows]; [done|].
  unfold Np.mean_axis0. rewrite length_fmap, length_seq.
  by inversion Hrows.
Qed.

Lemma group_centroids_Ok (D : nat) (groups : list (list Cluster)) :
  Forall (is_group D) groups →
  ∃ group_centroids,
    mapM (λ group, centroids ← mapM centroid_of group;
                   centroids ← Np.array centroids;
                   mret (Np.mean_axis0 centroids)) groups = Ok group_centroids
    ∧ Forall (λ row, length row = D) group_centroids.
Proof.
  induction 1 as [|group groups [Hne Hgroup] _ (rows & Hrows & Hall)].
  - by exists [].
  - destruct (centroids_Ok D group Hgroup) as (vs & Hvs & Hlen & Hvs_all).
    exists (Np.mean_axis0 vs :: rows). cbn [mapM]. rewrite Hvs. cbn [mbind result_bind].
    rewrite (array_Ok D) by done. cbn [mbind result_bind mret result_ret].
    rewrite Hrows. split; [done|]. constructor; [|done].
    apply length_mean_axis0; [|done]. intros ->. by destruct group.
Qed.

Lemma is_group_app D group1 group2 : is_group D group1 → is_group D group2 → is_group D (group1 ++ group2).
Proof.
  intros [Hne1 H1] [_ H2]. split; [by destruct group1|]. by apply Forall_app.
Qed.

Lemma merge_pass_groups {A} (D : nat) (members : A → list Cluster) similarity_matrix threshold
    (items : list A) :
  Forall (λ item, is_group D (members item)) items →
  Forall (is_group D) (merge_pass members similarity_matrix threshold items).
Proof.
  intros Hitems. unfold merge_pass.
  assert (Forall (λ p : nat * A, is_group D (members p.2)) (enumerate items)) as Henum.
  { apply Forall_forall. intros [i item] Hin. unfold enumerate in Hin.
    apply elem_of_lookup_imap in Hin as (j & x & [= -> ->] & Hx).
    rewrite Forall_forall in Hitems. eapply Hitems, list_elem_of_lookup_2, Hx. }
  assert (∀ i l vars, Forall (λ p : nat * A, is_group D (members p.2)) l →
            is_group D vars.1 →
            is_group D (foldl (absorb members similarity_matrix threshold i) vars l).1)
    as Hinner.
  { intros i l. induction l as [|[j other] l IH]; intros [group used] Hl Hgroup; [done|].
    inversion Hl as [|?? Hother Hrest]; subst. cbn [foldl]. apply IH; [done|].
    unfold absorb. destruct (_ && _); [|done]. by apply is_group_app. }
  pose proof Henum as Hl. revert Hl. generalize (enumerate items). intros l.
  assert (∀ vars, Forall (λ p : nat * A, is_group D (members p.2)) l →
            Forall (is_group D) vars.1 →
            Forall (is_group D)
              (foldl (open_group members similarity_matrix threshold items) vars l).1)
    as Houter.
  { induction l as [|[i item] l IH]; intros [groups used] Hl Hgroups; [done|].
    inversion Hl as [|?? Hitem Hrest]; subst. cbn [foldl]. apply IH; [done|].
    unfold open_group. case_decide; [done|].
    specialize (Hinner i (enumerate items) (members item, {[i]} ∪ used) Henum Hitem).
    destruct (foldl _ _ _) as [group used']. cbn [fst] in *.
    apply Forall_app. split; [done|]. by constructor. }
  intros Hl. apply Houter; [done|constructor].
Qed.

Lemma group_cluster_groups_Ok (D : nat) (groups : list (list Cluster)) :
  Forall (is_group D) groups →
  ∃ next, _group_cluster_groups groups = Ok next ∧ Forall (is_group D) next.
Proof.
  intros Hgroups. unfold _group_cluster_groups.
  case_decide; [by exists []|].
  destruct (group_centroids_Ok D groups Hgroups) as (rows & -> & Hrows).
  cbn [mbind result_bind]. rewrite (array_Ok D) by done.
  cbn [mbind result_bind mret result_ret].
  eexists. split; [done|]. case_decide; [|constructor].
  apply merge_pass_groups. eapply Forall_impl; [done|]. done.
Qed.

Lemma levels_loop_Ok (D : nat) current levels :
  Forall (is_group D) current → ∃ out, levels_loop current levels = Ok out.
Proof.
  funelim (levels_loop current levels); intros Hcurrent.
  - by eexists.
  - destruct (group_cluster_groups_Ok D (g :: gs) Hcurrent) as (next & Hnext & Hgroups).
    rewrite Hpass in Hnext. injection Hnext as <-. eauto.
  - destruct (group_cluster_groups_Ok D (g :: gs) Hcurrent) as (next & Hnext & _).
    match goal with Hraise : _group_cluster_groups _ = Raise _ |- _ =>
      rewrite Hraise in Hnext end.
    done.
Qed.

Lemma group_similar_clusters_Ok (D : nat) clusters :
  Forall (has_centroid D) clusters →
  ∃ cluster_groups, _group_similar_clusters clusters = Ok cluster_groups.
Proof.
  intros Hclusters. unfold _group_similar_clusters.
  destruct (centroids_Ok D clusters Hclusters) as (vs & -> & _ & Hvs).
  cbn [mbind result_bind]. rewrite (array_Ok D) by done. cbn [mbind result_bind].
  apply (levels_loop_Ok D). apply merge_pass_groups.
  eapply Forall_impl; [done|]. intros c Hc. split; [done|]. by constructor.
Qed.

Lemma build_cluster_hierarchy_Ok (D : nat) clusters :
  Forall (has_centroid D) clusters →
  ∃ hierarchy, _build_cluster_hierarchy clusters = Ok hierarchy.
Proof.
  intros Hclusters. unfold _build_cluster_hierarchy.
  destruct (group_similar_clusters_Ok D clusters Hclusters) as [cluster_groups ->].
  by eexists.
Qed.

(** Clusters without a centroid, such as the topic clusters: the builder
    raises [KeyError]. *)
Lemma build_cluster_hierarchy_no_centroid cluster clusters :
  c_centroid cluster = None →
  _build_cluster_hierarchy (cluster :: clusters) = Raise (KeyError "centroid").
Proof.
  intros Hnone.
  assert (centroid_of cluster = Raise (KeyError "centroid")) as Hc
    by (unfold centroid_of; by rewrite Hnone).
  unfold _build_cluster_hierarchy, _group_similar_clusters.
  cbn [mapM]. by rewrite Hc.
Qed.
Lemma group_similar_clusters_nonempty clusters cluster_groups :
  clusters ≠ [] →
  _group_similar_clusters clusters = Ok cluster_groups →
  ∃ groups rest, groups ≠ [] ∧ cluster_groups = groups :: rest.
Proof.
  intros Hne. unfold _group_similar_clusters.
  destruct (mapM _ _) as [cs|]; [|done]. simpl.
  destruct (Np.array cs) as [arr|]; [|done]. simpl.
  intros Hloop%levels_loop_prefix.
  pose proof (merge_pass_nonempty (λ cluster, [cluster]) (Np.gram arr) (7 # 10)%Q
                clusters Hne) as Hgroups.
  destruct (merge_pass _ _ _ _) as [|g gs]; [done|].
  destruct Hloop as [rest ->]. by exists (g :: gs), rest.
Qed.

(** The hierarchy of one cluster of three keywords: the root at level 0 and
    one group node at level 1. *)
Example hierarchy_of_one_cluster :
  _build_cluster_hierarchy [Samples.cluster "a" [1%Q; 0%Q] [0; 1; 2]]
  = Ok (<[ "level_1_1" := {| n_id := "level_1_1"; n_label := "Group 1";
                              n_children := ["a"]; n_level := 1; n_size := 3 |} ]>
        {[ "root" := {| n_id := "root"; n_label := "All Keywords";
                        n_children := ["level_1_1"]; n_level := 0; n_size := 3 |} ]}).
Proof. vm_compute. reflexivity. Qed.


End HierarchyFacts.

(** ** The heap of keyword records *)

Module HeapFacts.
Import AdvancedClusteringWorker Spec.

Lemma frame_refl keys h : frame keys h h.
Proof. by split. Qed.

Lemma frame_trans keys h1 h2 h3 : frame keys h1 h2 → frame keys h2 h3 → frame keys h1 h3.
Proof.
  intros [Hl1 Hf1] [Hl2 Hf2]. split; [congruence|].
  intros kw key Hkey. by rewrite Hf2, Hf1.
Qed.

Lemma frame_weaken keys keys' h h' : keys ⊆ keys' → frame keys h h' → frame keys' h h'.
Proof. intros Hsub [Hl Hf]. split; [done|]. intros kw key Hkey. apply Hf. set_solver. Qed.

Lemma writes_only_ret {A} keys (a : A) : writes_only keys (mret a).
Proof. intros h. apply frame_refl. Qed.

Lemma writes_only_lift {A} keys (r : result A) : writes_only keys (lift r).
Proof. intros h. apply frame_refl. Qed.

Lemma writes_only_raise {A} keys e : writes_only keys (raise (A:=A) e).
Proof. intros h. apply frame_refl. Qed.

Lemma writes_only_bind {A B} keys (m : M A) (f : A → M B) :
  writes_only keys m → (∀ a, writes_only keys (f a)) → writes_only keys (m ≫= f).
Proof.
  intros Hm Hf h. unfold mbind, M_bind. specialize (Hm h).
  destruct (m h) as [[a|e] h']; simpl in *; [|done].
  eapply frame_trans; [done|apply Hf].
Qed.

Lemma writes_only_try {A} keys (body : M A) handler :
  writes_only keys body → (∀ e, writes_only keys (handler e)) →
  writes_only keys (try_exceptM body handler).
Proof.
  intros Hm Hf h. unfold try_exceptM. specialize (Hm h).
  destruct (body h) as [[a|e] h']; simpl in *; [done|].
  eapply frame_trans; [done|apply Hf].
Qed.

Lemma writes_only_reraise {A} keys (body : M A) : writes_only keys body → writes_only keys (reraise body).
Proof. intros Hm. apply writes_only_try; [done|]. intros e. apply writes_only_raise. Qed.

Lemma writes_only_for {A} keys (l : list A) body :
  (∀ x, writes_only keys (body x)) → writes_only keys (for_ l body).
Proof.
  intros Hbody. induction l as [|x l IH]; simpl.
  - intros h. apply frame_refl.
  - intros h. unfold mbind, M_bind. pose proof (Hbody x h) as Hx.
    destruct (body x h) as [[[]|e] h']; simpl in *; [|done].
    eapply frame_trans; [done|apply IH].
Qed.

Lemma writes_only_foldM {A B} keys (body : B → A → M B) acc l :
  (∀ acc x, writes_only keys (body acc x)) → writes_only keys (foldM body acc l).
Proof.
  intros Hbody. revert acc. induction l as [|x l IH]; intros acc; simpl.
  - intros h. apply frame_refl.
  - apply writes_only_bind; [apply Hbody|]. intros acc'. apply IH.
Qed.

Lemma writes_only_mapM {A B} keys (f : A → M B) l :
  (∀ x, writes_only keys (f x)) → writes_only keys (mapM f l).
Proof.
  intros Hf. induction l as [|x l IH]; simpl.
  - intros h. apply frame_refl.
  - apply writes_only_bind; [apply Hf|]. intros b.
    apply writes_only_bind; [apply IH|]. intros bs h. apply frame_refl.
Qed.

Lemma writes_only_kw_get keys kw key dflt : writes_only keys (kw_get kw key dflt).
Proof. intros h. apply frame_refl. Qed.

Lemma writes_only_uuid4 keys : writes_only keys uuid4.
Proof. intros h. by split. Qed.

Lemma writes_only_kw_set keys kw key v : key ∈ keys → writes_only keys (kw_set kw key v).
Proof.
  intros Hkey h. unfold kw_set, frame, field. simpl. split.
  - by rewrite length_alter.
  - intros kw' key' Hkey'. destruct (decide (kw = kw')) as [<-|Hne].
    + rewrite list_lookup_alter_eq. destruct (kw_objects h !! kw) as [d|]; [|done].
      simpl. apply lookup_insert_ne. set_solver.
    + by rewrite list_lookup_alter_ne.
Qed.

Lemma writes_only_weaken {A} keys keys' (m : M A) :
  keys ⊆ keys' → writes_only keys m → writes_only keys' m.
Proof. intros Hsub Hm h. by eapply frame_weaken. Qed.

Lemma keyword_texts_of_spec keywords h :
  keyword_texts_of keywords h = (Ok (text_of h <$> keywords), h).
Proof.
  unfold keyword_texts_of. induction keywords as [|kw keywords IH]; [done|].
  cbn [mapM]. unfold mbind, M_bind in *. cbn [kw_get]. rewrite IH. done.
Qed.

(** The rules above, applied along the structure of a computation. *)
Ltac writes_only_step :=
  lazymatch goal with
  | |- writes_only _ (reraise _) => apply writes_only_reraise
  | |- writes_only _ (try_exceptM _ _) => apply writes_only_try
  | |- writes_only _ (mbind _ _) => apply writes_only_bind
  | |- writes_only _ (foldM _ _ _) => apply writes_only_foldM
  | |- writes_only _ (for_ _ _) => apply writes_only_for
  | |- writes_only _ (mapM _ _) => apply writes_only_mapM
  | |- writes_only _ (mret _) => apply writes_only_ret
  | |- writes_only _ (lift _) => apply writes_only_lift
  | |- writes_only _ (raise _) => apply writes_only_raise
  | |- writes_only _ (kw_get _ _ _) => apply writes_only_kw_get
  | |- writes_only _ uuid4 => apply writes_only_uuid4
  | |- writes_only _ (kw_set _ _ _) => apply writes_only_kw_set; set_solver
  | |- writes_only _ (match ?x with _ => _ end) => destruct x
  | |- writes_only _ ((match ?x with _ => _ end) _) => destruct x
  | |- ∀ _, _ => intro
  end.
Ltac writes_only := repeat writes_only_step.

Section worker.
Context `{External}.

Lemma writes_only_keyword_texts_of keys keywords : writes_only keys (keyword_texts_of keywords).
Proof. unfold keyword_texts_of. writes_only. Qed.

Lemma writes_only_generate_embeddings keys texts : writes_only keys (_generate_embeddings texts).
Proof. unfold _generate_embeddings. writes_only. Qed.

Lemma writes_only_generate_cluster_label keys cluster_keywords :
  writes_only keys (_generate_cluster_label cluster_keywords).
Proof. unfold _generate_cluster_label. writes_only. Qed.

Lemma writes_only_create_cluster_objects keywords cluster_labels embeddings :
  writes_only semantic_keys (_create_cluster_objects keywords cluster_labels embeddings).
Proof.
  unfold _create_cluster_objects, cluster_object_of, semantic_keys.
  pose proof writes_only_generate_cluster_label. pose proof writes_only_keyword_texts_of.
  writes_only; done.
Qed.

Lemma writes_only_create_topic_clusters keywords cluster_labels topic_model :
  writes_only topic_keys (_create_topic_clusters keywords cluster_labels topic_model).
Proof.
  unfold _create_topic_clusters, topic_cluster_of, topic_keys.
  pose proof writes_only_keyword_texts_of.
  writes_only; done.
Qed.

Lemma writes_only_hierarchical embeddings keywords n_clusters linkage distance_threshold :
  writes_only semantic_keys
    (_hierarchical_clustering embeddings keywords n_clusters linkage distance_threshold).
Proof.
  unfold _hierarchical_clustering.
  pose proof writes_only_create_cluster_objects. writes_only; done.
Qed.

Lemma writes_only_hierarchical_topic embeddings keywords n_clusters linkage distance_threshold :
  writes_only topic_keys
    (_hierarchical_clustering embeddings keywords n_clusters linkage distance_threshold).
Proof.
  eapply writes_only_weaken; [|apply writes_only_hierarchical].
  unfold semantic_keys, topic_keys. set_solver.
Qed.

Lemma writes_only_topic_modeling keyword_texts keywords n_topics method :
  writes_only topic_keys (_topic_modeling_clustering keyword_texts keywords n_topics method).
Proof.
  unfold _topic_modeling_clustering.
  pose proof writes_only_create_topic_clusters. writes_only; done.
Qed.

Lemma writes_only_keywords_of_cluster keys keywords id :
  writes_only keys (keywords_of_cluster keywords id).
Proof. unfold keywords_of_cluster. writes_only. Qed.

Lemma writes_only_refine_step keywords refined_clusters cluster :
  writes_only topic_keys (refine_step keywords refined_clusters cluster).
Proof.
  unfold refine_step.
  pose proof writes_only_keywords_of_cluster. pose proof writes_only_keyword_texts_of.
  pose proof writes_only_generate_embeddings. pose proof writes_only_topic_modeling.
  writes_only; done.
Qed.

Lemma writes_only_hybrid embeddings keyword_texts keywords n_clusters :
  writes_only topic_keys (_hybrid_clustering embeddings keyword_texts keywords n_clusters).
Proof.
  unfold _hybrid_clustering.
  pose proof writes_only_refine_step.
  pose proof writes_only_hierarchical_topic.
  writes_only; done.
Qed.

Lemma writes_only_generate_topic_model keys keyword_texts clusters :
  writes_only keys (_generate_topic_model keyword_texts clusters).
Proof. unfold _generate_topic_model. writes_only. Qed.

Lemma writes_only_calculate_cluster_metrics keys embeddings clusters :
  writes_only keys (_calculate_cluster_metrics embeddings clusters).
Proof. unfold _calculate_cluster_metrics. writes_only. Qed.

Lemma writes_only_dispatch method kwargs embeddings keyword_texts keywords :
  writes_only topic_keys (dispatch method kwargs embeddings keyword_texts keywords).
Proof.
  unfold dispatch, bind_kwargs.
  pose proof writes_only_hybrid. pose proof writes_only_topic_modeling.
  pose proof writes_only_hierarchical_topic.
  writes_only; done.
Qed.

Lemma writes_only_perform keywords method kwargs :
  writes_only topic_keys (perform_advanced_clustering keywords method kwargs).
Proof.
  unfold perform_advanced_clustering.
  pose proof writes_only_dispatch. pose proof writes_only_keyword_texts_of.
  pose proof writes_only_generate_embeddings. pose proof writes_only_generate_topic_model.
  pose proof writes_only_calculate_cluster_metrics.
  writes_only; done.
Qed.

End worker.

(** C8 (as amended). Whatever the strategy and whatever the outcome, a call
    of the engine leaves the list of keyword records as long as it was, and
    leaves in every record every field other than [cluster_id],
    [cluster_label] and [topic_id] as it was (present with the same value, or
    absent). The builder of semantic clusters writes [cluster_id] and
    [cluster_label] only; the builder of topic clusters writes [topic_id] as
    well. *)
Theorem cluster_assignment_frame `{External} :
  (∀ keywords cluster_labels embeddings,
     writes_only ["cluster_id"; "cluster_label"]
       (_create_cluster_objects keywords cluster_labels embeddings))
  ∧ (∀ keywords cluster_labels topic_model,
       writes_only ["cluster_id"; "cluster_label"; "topic_id"]
         (_create_topic_clusters keywords cluster_labels topic_model))
  ∧ (∀ keywords method kwargs,
       let keywords' := (call keywords method kwargs).2 in
       length keywords' = length keywords
       ∧ ∀ i key, key ∉ ["cluster_id"; "cluster_label"; "topic_id"] →
                  keywords' !! i ≫= lookup key = keywords !! i ≫= lookup key).
Proof.
  split_and!.
  - apply writes_only_create_cluster_objects.
  - apply writes_only_create_topic_clusters.
  - intros keywords method kwargs. unfold call.
    pose proof (writes_only_perform (seq 0 (length keywords)) method kwargs
                  (Heap keywords 0)) as [Hlen Hframe].
    destruct (perform_advanced_clustering _ _ _ _) as [r h']. simpl in *.
    split; [done|]. intros i key Hkey. apply (Hframe i key Hkey).
Qed.

(** C8, counterexample: topic clustering of one keyword record, which has no
    [topic_id] field before, leaves it with [topic_id = 0]. *)
Lemma topic_clustering_writes_topic_id :
  let h := Heap [Samples.keyword "seo tools"] 0 in
  let h' := (@_topic_modeling_clustering Samples.uniform
               [VStr "seo tools"] [0] (VInt 10) (VStr "lda") h).2 in
  field h 0 "topic_id" = None ∧ field h' 0 "topic_id" = Some (VInt 0).
Proof. split; by vm_compute. Qed.

(** The same through the entry point: the call raises (the topic clusters
    have no centroid for the hierarchy builder), after the record was
    annotated. *)
Example topic_modeling_call :
  let '(r, keywords') :=
    @call Samples.uniform [Samples.keyword "seo tools"] "topic_modeling" ∅ in
  r = Raise (KeyError "centroid")
  ∧ keywords' !! 0 ≫= lookup "topic_id" = Some (VInt 0)
  ∧ keywords' !! 0 ≫= lookup "keyword" = Some (VStr "seo tools").
Proof. by vm_compute. Qed.

Lemma cluster_assignment_frame_witness :
  let keywords := [Samples.keyword "seo tools"; Samples.keyword "buy seo"] in
  let keywords' := (@call Samples.uniform keywords "hybrid" ∅).2 in
  length keywords' = length keywords
  ∧ keywords' !! 1 ≫= lookup "keyword" = keywords !! 1 ≫= lookup "keyword".
Proof.
  intros keywords keywords'.
  destruct (proj2 (proj2 (@cluster_assignment_frame Samples.uniform)) keywords "hybrid" ∅)
    as [Hlen Hframe].
  split; [exact Hlen|]. apply (Hframe 1 "keyword").
  rewrite !not_elem_of_cons. split_and!; [done..|apply not_elem_of_nil].
Defined.

End HeapFacts.

(** ** The choice of strategy *)

Module DispatchFacts.
Import AdvancedClusteringWorker Spec HeapFacts.

Lemma dispatch_hierarchical `{External} kwargs embeddings keyword_texts keywords :
  dispatch "hierarchical" kwargs embeddings keyword_texts keywords
  = (bind_kwargs ["n_clusters"; "linkage"; "distance_threshold"] kwargs;;
     _hierarchical_clustering embeddings keywords
       (kwarg kwargs "n_clusters" VNone) (kwarg kwargs "linkage" (VStr "ward"))
       (kwarg kwargs "distance_threshold" VNone)).
Proof. done. Qed.

Lemma dispatch_topic_modeling `{External} kwargs embeddings keyword_texts keywords :
  dispatch "topic_modeling" kwargs embeddings keyword_texts keywords
  = (bind_kwargs ["n_topics"; "method"] kwargs;;
     _topic_modeling_clustering keyword_texts keywords
       (kwarg kwargs "n_topics" (VInt 10)) (kwarg kwargs "method" (VStr "lda"))).
Proof. done. Qed.

Lemma dispatch_hybrid `{External} kwargs embeddings keyword_texts keywords :
  dispatch "hybrid" kwargs embeddings keyword_texts keywords
  = (bind_kwargs ["n_clusters"] kwargs;;
     _hybrid_clustering embeddings keyword_texts keywords (kwarg kwargs "n_clusters" VNone)).
Proof. done. Qed.

Lemma dispatch_unsupported `{External} method kwargs embeddings keyword_texts keywords :
  method ∉ supported_methods →
  dispatch method kwargs embeddings keyword_texts keywords
  = raise (ValueError ("Unsupported clustering method: " +:+ method)).
Proof.
  intros Hm. unfold dispatch, supported_methods in *.
  repeat case_decide; (done || set_solver).
Qed.

(** One keyword, clustered in the sample environment. *)
Lemma dispatch_supported_returns method :
  method ∈ supported_methods →
  ∃ clusters h',
    @dispatch Samples.uniform method ∅ [[1%Q; 0%Q]] [VStr "seo tools"] [0]
      (Heap [Samples.keyword "seo tools"] 0) = (Ok clusters, h').
Proof.
  unfold supported_methods. intros Hin. set_unfold in Hin.
  destruct Hin as [->|[->|[->|[]]]]; eexists _, _; vm_compute; reflexivity.
Qed.




End DispatchFacts.

(** ** [ClusterWorker.cluster_keywords] *)

Module ClusterWorkerFacts.
Import ClusterWorker.

Section worker.
Context `{External}.

(** C9. For the empty batch [cluster_keywords] returns the result with no
    clusters and with [total_clusters], [avg_cluster_size] and
    [silhouette_score] all 0, and it does not raise; no library is called and
    no identifier is drawn. *)
Theorem cluster_keywords_empty_batch (h : heap) :
  cluster_keywords [] h
  = (Ok {| clusters := [];
           metadata := {| total_clusters := 0; avg_cluster_size := 0; silhouette := 0 |} |},
     h).
Proof. reflexivity. Qed.

(** The stages of the body, in the order in which they can raise. *)
Lemma body_raises_in_embedding first keywords h e :
  truthy (default VNone (first !! "embedding")) = false →
  _generate_embeddings (first :: keywords) = Raise e →
  cluster_keywords_body (first :: keywords) h = (Raise e, h).
Proof.
  intros Hfalsy Hembed. unfold cluster_keywords_body.
  rewrite Hfalsy. simpl negb. cbv iota. rewrite Hembed. reflexivity.
Qed.

Lemma body_raises_in_given_embedding first keywords h e :
  truthy (default VNone (first !! "embedding")) = true →
  (embeddings ← mapM (λ kw, item kw "embedding") (first :: keywords); array_of embeddings)
  = Raise e →
  cluster_keywords_body (first :: keywords) h = (Raise e, h).
Proof.
  intros Htruthy Hembed. unfold cluster_keywords_body.
  rewrite Htruthy. simpl negb. cbv iota. rewrite Hembed. reflexivity.
Qed.

Lemma body_raises_in_clustering first keywords h embeddings e :
  truthy (default VNone (first !! "embedding")) = false →
  _generate_embeddings (first :: keywords) = Ok embeddings →
  _perform_clustering embeddings = Raise e →
  cluster_keywords_body (first :: keywords) h = (Raise e, h).
Proof.
  intros Hfalsy Hembed Hcluster. unfold cluster_keywords_body.
  rewrite Hfalsy. simpl negb. cbv iota. rewrite Hembed.
  unfold mbind at 1, M_bind at 1, lift at 1. cbv beta iota.
  unfold mbind at 1, M_bind at 1, lift at 1. rewrite Hcluster. reflexivity.
Qed.

Lemma body_raises_in_cluster_objects first keywords h embeddings cluster_labels e h' :
  truthy (default VNone (first !! "embedding")) = false →
  _generate_embeddings (first :: keywords) = Ok embeddings →
  _perform_clustering embeddings = Ok cluster_labels →
  _create_cluster_objects (first :: keywords) cluster_labels embeddings h = (Raise e, h') →
  cluster_keywords_body (first :: keywords) h = (Raise e, h').
Proof.
  intros Hfalsy Hembed Hcluster Hobjects. unfold cluster_keywords_body.
  rewrite Hfalsy. simpl negb. cbv iota. rewrite Hembed.
  unfold mbind at 1, M_bind at 1, lift at 1. cbv beta iota.
  unfold mbind at 1, M_bind at 1, lift at 1. rewrite Hcluster. cbv beta iota.
  unfold mbind at 1, M_bind at 1. rewrite Hobjects. reflexivity.
Qed.

(** C10. [cluster_keywords] never raises: when the statements of its [try]
    block return a result it returns that result, and when any of them
    raises, whatever the exception and the stage, it returns the empty
    result. *)
Theorem cluster_keywords_never_raises (keywords : list (gmap string Val)) (h : heap) :
  match (cluster_keywords_body keywords h).1 with
  | Ok result => (cluster_keywords keywords h).1 = Ok result
  | Raise _ =>
      (cluster_keywords keywords h).1
      = Ok {| clusters := [];
              metadata := {| total_clusters := 0; avg_cluster_size := 0;
                             silhouette := 0 |} |}
  end.
Proof.
  unfold cluster_keywords, try_exceptM.
  destruct (cluster_keywords_body keywords h) as [[result|e] h']; reflexivity.
Qed.

End worker.

(** A record without the key [keyword]: generating the embeddings raises
    [KeyError], and the worker returns the empty result. *)
Example cluster_keywords_missing_text :
  (@_generate_embeddings Samples.uniform [∅] = Raise (KeyError "keyword"))
  ∧ (@cluster_keywords Samples.uniform [∅] (Heap [] 0)).1 = Ok empty_result.
Proof. split; reflexivity. Qed.

(** A library that fails: the embedding model raises, or the clustering does. *)
Example cluster_keywords_library_failure :
  (@cluster_keywords Samples.failing [Samples.keyword "seo tools"] (Heap [] 0)).1
  = Ok empty_result
  ∧ (@cluster_keywords Samples.failing
       [<[ "embedding" := VList [VFloat 1; VFloat 0] ]> (Samples.keyword "seo tools")]
       (Heap [] 0)).1
    = Ok empty_result.
Proof. split; reflexivity. Qed.

(** Two keywords in the sample environment: one cluster of both. *)
Example cluster_keywords_two :
  ∃ result h',
    @cluster_keywords Samples.uniform
      [Samples.keyword "seo tools"; Samples.keyword "buy seo tools"] (Heap [] 0)
    = (Ok result, h')
    ∧ label <$> clusters result = ["Seo Tools"]
    ∧ total_clusters (metadata result) = 1
    ∧ (avg_cluster_size (metadata result) == 2)%Q.
Proof. eexists _, _. split; [vm_compute; reflexivity|]. by split_and!. Qed.

End ClusterWorkerFacts.

(** ** Topic coherence *)

Module CoherenceFacts.
Import AdvancedClusteringWorker Spec.

(** *** The unordered pairs are the pairs the nested loops visit *)

Lemma later_entries {A B} (f : A → B) (l : list A) (o k : nat) :
  (imap (λ j y, (o + j, y)) l ≫= λ '(j, y), if decide (k < j) then [f y] else [])
  = f <$> drop (S k - o) l.
Proof.
  revert o. induction l as [|y l IH]; intros o.
  - by rewrite drop_nil.
  - rewrite imap_cons. cbn [mbind list_bind]. rewrite Nat.add_0_r.
    erewrite imap_ext; [rewrite (IH (S o))|intros; simpl; f_equal; lia].
    case_decide.
    + replace (S k - o) with 0 by lia. replace (S k - S o) with 0 by lia. done.
    + replace (S k - o) with (S (S k - S o)) by lia. done.
Qed.

Lemma unordered_pairs_from (pre l : list string) :
  (imap (λ i x, (length pre + i, x)) l ≫= λ '(i, x),
     enumerate (pre ++ l) ≫= λ '(j, y), if decide (i < j) then [(x, y)] else [])
  = pairs l.
Proof.
  revert pre. induction l as [|x l IH]; intros pre; [done|].
  rewrite imap_cons. cbn [mbind list_bind pairs]. f_equal.
  - unfold enumerate.
    erewrite (imap_ext _ (λ j y, (0 + j, y))) by done.
    rewrite (later_entries (λ y, (x, y))).
    rewrite Nat.add_0_r, Nat.sub_0_r.
    change (S (length pre)) with (1 + length pre). rewrite Nat.add_comm.
    rewrite <-drop_drop, drop_app_length. done.
  - specialize (IH (pre ++ [x])). rewrite <-app_assoc in IH. simpl in IH.
    rewrite <-IH. f_equal. apply imap_ext. intros i y _. simpl.
    rewrite length_app. simpl. f_equal. lia.
Qed.

Lemma unordered_pairs_pairs terms : unordered_pairs terms = pairs terms.
Proof. apply (unordered_pairs_from [] terms). Qed.

Lemma length_pairs {A} (l : list A) : 2 ≤ length l → 0 < length (pairs l).
Proof.
  destruct l as [|x [|y l]]; simpl; [lia..|]. intros _. lia.
Qed.

(** *** The two loops of [_calculate_topic_coherence] *)

Lemma lowered_documents (documents : list string) :
  mapM Str.val_lower (VStr <$> documents) = Ok (Str.lower <$> documents).
Proof.
  induction documents as [|doc documents IH]; [done|].
  cbn [fmap list_fmap mapM] in *. rewrite IH. done.
Qed.

Lemma co_occurrences_spec word1 word2 (documents : list string) :
  co_occurrences word1 word2 (VStr <$> documents)
  = Ok (length (filter (λ doc, contains_term doc word1 && contains_term doc word2) documents)).
Proof.
  unfold co_occurrences. rewrite lowered_documents. cbn [mbind result_bind mret result_ret].
  f_equal. unfold contains_term.
  induction documents as [|doc documents IH]; [done|].
  cbn [fmap list_fmap]. rewrite !filter_cons.
  case_decide; simpl; by rewrite <-IH.
Qed.

Lemma foldM_Ok {A B} (body : B → A → result B) (g : B → A → B) l acc :
  (∀ acc x, x ∈ l → body acc x = Ok (g acc x)) →
  foldM body acc l = Ok (foldl g acc l).
Proof.
  revert acc. induction l as [|x l IH]; intros acc Hbody; [done|].
  cbn [foldM foldl]. rewrite Hbody by left. cbn [mbind result_bind].
  apply IH. intros acc' y Hy. apply Hbody. by right.
Qed.

Lemma add_pair_foldl documents word1 vars words :
  foldl (add_pair documents word1) vars words
  = (foldl Qplus vars.1 (co_occurrence_rate documents <$> ((λ y, (word1, y)) <$> words)),
     vars.2 + length words).
Proof.
  revert vars. induction words as [|w words IH]; intros [cs wp]; simpl.
  - f_equal. lia.
  - rewrite IH. simpl. f_equal. lia.
Qed.

Lemma add_pairs_of_foldl documents (pre l : list string) vars :
  foldl (add_pairs_of documents (pre ++ l)) vars (imap (λ i x, (length pre + i, x)) l)
  = (foldl Qplus vars.1 (co_occurrence_rate documents <$> pairs l),
     vars.2 + length (pairs l)).
Proof.
  revert pre vars. induction l as [|x l IH]; intros pre [cs wp].
  - simpl. f_equal. lia.
  - rewrite imap_cons. cbn [foldl pairs].
    unfold add_pairs_of at 2. cbn [fst snd].
    replace (length pre + 0 + 1) with (length pre + 1) by lia.
    rewrite <-drop_drop, drop_app_length. cbn [drop]. rewrite drop_0.
    rewrite add_pair_foldl. cbn [fst snd].
    specialize (IH (pre ++ [x])). rewrite <-app_assoc in IH. cbn [app] in IH.
    erewrite imap_ext; [rewrite IH|].
    + cbn [fst snd]. rewrite fmap_app, foldl_app, length_app, length_fmap. f_equal. lia.
    + intros i y _. simpl. rewrite length_app. simpl. f_equal. lia.
Qed.

Lemma calculate_topic_coherence_loops (topic_words documents : list string) :
  documents ≠ [] →
  _calculate_topic_coherence topic_words (VStr <$> documents)
  = let rates := co_occurrence_rate documents <$> pairs topic_words in
    if decide (0 < length rates) then (foldl Qplus 0 rates / Qnat (length rates))%Q
    else 0%Q.
Proof.
  intros Hdocs. unfold _calculate_topic_coherence.
  rewrite (foldM_Ok _ (add_pairs_of documents topic_words)).
  - unfold enumerate.
    pose proof (add_pairs_of_foldl documents [] topic_words (0%Q, 0)) as Hloops.
    cbn [app length Nat.add fst snd] in Hloops. rewrite Hloops.
    cbn [mbind result_bind mret result_ret try_return]. rewrite length_fmap. done.
  - intros vars [i word1] _. unfold add_pairs_of. cbn [fst snd].
    apply foldM_Ok. intros [cs wp] word2 _.
    rewrite co_occurrences_spec. cbn [mbind result_bind mret result_ret].
    rewrite length_fmap. rewrite decide_True by (destruct documents; [done|simpl; lia]).
    done.
Qed.

Lemma foldl_Qplus (a : Q) (l : list Q) : (foldl Qplus a l == a + Np.Qsum l)%Q.
Proof.
  revert a. induction l as [|x l IH]; intros a; simpl.
  - ring.
  - rewrite IH. ring.
Qed.

Lemma calculate_topic_coherence_spec (topic_words documents : list string) :
  documents ≠ [] →
  (_calculate_topic_coherence topic_words (VStr <$> documents)
   == mean_pair_co_occurrence topic_words documents)%Q.
Proof.
  intros Hdocs. rewrite calculate_topic_coherence_loops by done.
  unfold mean_pair_co_occurrence. rewrite unordered_pairs_pairs. cbv zeta.
  rewrite length_fmap. destruct (decide (length topic_words < 2)) as [Hlen|Hlen].
  - destruct topic_words as [|x [|y l]]; simpl in Hlen; [done..|lia].
  - rewrite decide_True by (apply length_pairs; lia).
    unfold Np.mean, Qnat. rewrite length_fmap, foldl_Qplus. field.
    pose proof (length_pairs topic_words ltac:(lia)) as Hpos.
    intros Hzero. apply (Qeq_bool_neq (inject_Z (Z.of_nat (length (pairs topic_words)))) 0);
      [|done].
    unfold Qeq_bool. simpl. apply Z.eqb_neq. lia.
Qed.

Lemma calculate_topic_coherence_few topic_words documents :
  length topic_words < 2 → _calculate_topic_coherence topic_words documents = 0%Q.
Proof.
  intros Hlen. destruct topic_words as [|x [|y l]]; [done| |simpl in Hlen; lia].
  reflexivity.
Qed.

Lemma generate_topic_model_coherence `{External} keyword_texts clusters h tm h' :
  _generate_topic_model keyword_texts clusters h = (Ok tm, h') →
  tm_coherence_score tm = Np.mean (t_coherence <$> tm_topics tm)
  ∧ Forall (λ t, t_coherence t = _calculate_topic_coherence (t_words t) keyword_texts)
           (tm_topics tm).
Proof.
  unfold _generate_topic_model, reraise, try_exceptM.
  unfold mbind at 1, M_bind at 1, lift at 1.
  destruct (decompose _ _ _) as [lda|]; [|done].
  unfold mbind at 1, M_bind at 1, lift at 1.
  destruct (perplexity lda) as [p|]; [|done].
  cbn. intros [= <- <-]. cbn. split; [done|].
  apply Forall_fmap, Forall_forall. intros [i [top_words weights]] _. done.
Qed.


(** Three terms over three documents: the pairs (seo, tools) and (seo, buy)
    occur together in one document of three, (tools, buy) in none. *)
Example coherence_of_three_terms :
  (_calculate_topic_coherence ["seo"; "tools"; "buy"]
     [VStr "SEO tools"; VStr "buy seo"; VStr "best tools"] == 2 # 9)%Q.
Proof. by vm_compute. Qed.

End CoherenceFacts.

(** ** The hybrid refiner *)

Module HybridFacts.
Import AdvancedClusteringWorker Spec HeapFacts.

(** *** Reading the heap *)

Lemma keywords_of_cluster_from keywords id acc h :
  foldM (λ acc kw, v ← kw_get kw "cluster_id" VNone;
                   mret (if eq_str v id then acc ++ [kw] else acc)) acc keywords h
  = (Ok (acc ++ members_of h keywords id), h).
Proof.
  revert acc. induction keywords as [|kw keywords IH]; intros acc.
  - simpl. by rewrite app_nil_r.
  - cbn [foldM]. unfold mbind at 1, M_bind at 1. unfold mbind at 1, M_bind at 1.
    cbn [kw_get mret M_ret]. rewrite IH. unfold members_of. rewrite filter_cons.
    fold (field h kw "cluster_id").
    destruct (eq_str _ id) eqn:Heq.
    + rewrite decide_True by done. by rewrite <-app_assoc.
    + rewrite decide_False by done. done.
Qed.

Lemma keywords_of_cluster_spec keywords id h :
  keywords_of_cluster keywords id h = (Ok (members_of h keywords id), h).
Proof. apply (keywords_of_cluster_from keywords id []). Qed.

Lemma text_of_frame keys h h' kw :
  "keyword" ∉ keys → frame keys h h' → text_of h' kw = text_of h kw.
Proof. intros Hkey [_ Hframe]. unfold text_of. by rewrite Hframe. Qed.

(** *** The attach step *)

Lemma sub_topics_from (acc : list SubTopic) topic_clusters :
  foldl (λ sub_topics topic_cluster,
           sub_topics ++ [{| st_id := c_id topic_cluster;
                             st_label := c_label topic_cluster;
                             st_keywords := c_keywords topic_cluster;
                             st_topic_words := default [] (c_topic_words topic_cluster) |}])
        acc topic_clusters
  = acc ++ (sub_topic_of <$> topic_clusters).
Proof.
  revert acc. induction topic_clusters as [|tc tcs IH]; intros acc.
  - simpl. by rewrite app_nil_r.
  - cbn [foldl fmap list_fmap]. rewrite IH. by rewrite <-app_assoc.
Qed.

(** The attach step cannot raise: it returns the cluster with one entry of
    [sub_topics] for every topic cluster. *)
Lemma refine_cluster_with_topics_spec cluster topic_clusters :
  _refine_cluster_with_topics cluster topic_clusters
  = set_sub_topics cluster (sub_topic_of <$> topic_clusters).
Proof.
  unfold _refine_cluster_with_topics, try_return. cbn [mret result_ret].
  by rewrite sub_topics_from.
Qed.

Section worker.
Context `{External}.

(** *** A cluster of at most five members *)

Lemma refine_step_small keywords refined_clusters cluster h :
  length (members_of h keywords (c_id cluster)) ≤ 5 →
  refine_step keywords refined_clusters cluster h = (Ok (refined_clusters ++ [cluster]), h).
Proof.
  intros Hsmall. unfold refine_step.
  unfold mbind at 1, M_bind at 1. rewrite keywords_of_cluster_spec.
  unfold mbind at 1, M_bind at 1. rewrite keyword_texts_of_spec.
  rewrite length_fmap. by rewrite decide_False by lia.
Qed.

(** *** A failure while refining one cluster *)

Lemma refine_step_embedding_fails keywords refined_clusters cluster h e :
  let members := members_of h keywords (c_id cluster) in
  5 < length members →
  encode (text_of h <$> members) = Raise e →
  refine_step keywords refined_clusters cluster h = (Raise e, h).
Proof.
  intros members Hlarge Hencode. unfold refine_step.
  unfold mbind at 1, M_bind at 1. rewrite keywords_of_cluster_spec.
  unfold mbind at 1, M_bind at 1. rewrite keyword_texts_of_spec.
  rewrite length_fmap. rewrite decide_True by done.
  unfold mbind at 1, M_bind at 1.
  unfold _generate_embeddings, reraise, try_exceptM, lift. fold members.
  by rewrite Hencode.
Qed.

Lemma refine_step_topic_model_fails keywords refined_clusters cluster h embeddings e :
  let members := members_of h keywords (c_id cluster) in
  let texts := text_of h <$> members in
  5 < length members →
  encode texts = Ok embeddings →
  decompose true (VInt (Z.of_nat (Nat.min 3 (length members / 2)))) texts = Raise e →
  refine_step keywords refined_clusters cluster h = (Raise e, h).
Proof.
  intros members texts Hlarge Hencode Hdecompose. unfold refine_step.
  unfold mbind at 1, M_bind at 1. rewrite keywords_of_cluster_spec.
  unfold mbind at 1, M_bind at 1. rewrite keyword_texts_of_spec.
  rewrite length_fmap. rewrite decide_True by done.
  unfold mbind at 1, M_bind at 1.
  unfold _generate_embeddings, reraise, try_exceptM, lift. fold members texts.
  rewrite Hencode.
  unfold mbind at 1, M_bind at 1.
  unfold _topic_modeling_clustering, reraise, try_exceptM.
  unfold mbind at 1, M_bind at 1, lift at 1. simpl eq_str.
  by rewrite Hdecompose.
Qed.

Lemma foldM_app {A B} (body : B → A → M B) acc l1 l2 h :
  foldM body acc (l1 ++ l2) h
  = match foldM body acc l1 h with
    | (Ok acc', h') => foldM body acc' l2 h'
    | (Raise e, h') => (Raise e, h')
    end.
Proof.
  revert acc h. induction l1 as [|x l1 IH]; intros acc h; [done|].
  cbn [app foldM]. unfold mbind, M_bind.
  destruct (body acc x h) as [[acc'|e] h']; [apply IH|done].
Qed.

End worker.

(** *** Indexing and the distinct labels *)

Lemma mapM_index_Ok {A} (l : list A) (indices : list nat) :
  (∀ i, i ∈ indices → i < length l) →
  ∃ xs, mapM (Np.index l) indices = Ok xs
        ∧ length xs = length indices ∧ ∀ x, x ∈ xs → x ∈ l.
Proof.
  induction indices as [|i indices IH]; intros Hin.
  - exists []. split_and!; [done..|]. by intros x ?%elem_of_nil.
  - destruct IH as (xs & Hxs & Hlen & Hsub); [intros j Hj; apply Hin; by right|].
    destruct (lookup_lt_is_Some_2 l i) as [x Hx]; [apply Hin; by left|].
    assert (Np.index l i = Ok x) as Hix by (unfold Np.index; by rewrite Hx).
    exists (x :: xs). cbn [mapM]. rewrite Hix, Hxs.
    split_and!; [done|simpl; lia|].
    intros y [->|Hy]%elem_of_cons; [by eapply list_elem_of_lookup_2|by apply Hsub].
Qed.

Lemma where_eq_lookup (a : list Z) (x : Z) (i : nat) :
  i ∈ Np.where_eq a x → a !! i = Some x.
Proof.
  unfold Np.where_eq, enumerate.
  intros ([j y] & -> & [Hy Hin]%list_elem_of_filter)%list_elem_of_fmap.
  apply elem_of_lookup_imap in Hin as (k & z & [= -> ->] & Hk). simpl in Hy. by subst.
Qed.

Lemma where_eq_lt (a : list Z) (x : Z) (i : nat) : i ∈ Np.where_eq a x → i < length a.
Proof. intros Hi%where_eq_lookup. by eapply lookup_lt_Some. Qed.

Lemma unique_Permutation (a : list Z) : Np.unique a ≡ₚ remove_dups a.
Proof. apply merge_sort_Permutation. Qed.

Lemma elem_of_unique (a : list Z) (x : Z) : x ∈ Np.unique a ↔ x ∈ a.
Proof. by rewrite unique_Permutation, elem_of_remove_dups. Qed.

Lemma length_unique (a : list Z) : length (Np.unique a) = length (remove_dups a).
Proof. by rewrite unique_Permutation. Qed.

Lemma length_remove_dups_pos {A} `{EqDecision A} (l : list A) :
  l ≠ [] → 0 < length (remove_dups l).
Proof.
  destruct l as [|x l]; [done|]. intros _.
  assert (x ∈ remove_dups (x :: l)) as Hx by (apply elem_of_remove_dups; by left).
  destruct (remove_dups (x :: l)); [by apply elem_of_nil in Hx|simpl; lia].
Qed.

Lemma length_remove_dups_bounded (l : list nat) (n : nat) :
  Forall (λ x, x < n) l → length (remove_dups l) ≤ n.
Proof.
  intros Hl. trans (length (seq 0 n)); [|by rewrite length_seq].
  apply submseteq_length, NoDup_submseteq.
  - apply NoDup_remove_dups.
  - intros x Hx. rewrite elem_of_remove_dups in Hx. apply elem_of_seq.
    rewrite Forall_forall in Hl. specialize (Hl x Hx). lia.
Qed.

Lemma remove_dups_fmap_of_nat (l : list nat) :
  length (remove_dups (Z.of_nat <$> l)) = length (remove_dups l).
Proof.
  induction l as [|x l IH]; [done|]. cbn [fmap list_fmap remove_dups].
  destruct (decide_rel elem_of x l) as [Hx|Hx],
           (decide_rel elem_of (Z.of_nat x) (Z.of_nat <$> l)) as [Hz|Hz].
  - done.
  - destruct Hz. by apply list_elem_of_fmap_2.
  - destruct Hx. apply list_elem_of_fmap in Hz as (y & Hy%(inj Z.of_nat) & Hin). by subst.
  - simpl. by rewrite IH.
Qed.

(** *** Loops that cannot raise *)

Lemma for_Ok {A} (l : list A) (body : A → M unit) h :
  (∀ x h, ∃ h', body x h = (Ok (), h')) → ∃ h', for_ l body h = (Ok (), h').
Proof.
  intros Hbody. revert h. induction l as [|x l IH]; intros h; [by eexists|].
  cbn [for_]. unfold mbind, M_bind. destruct (Hbody x h) as [h' ->]. apply IH.
Qed.

Lemma argmax_rows_Ok (rows : list (list Q)) (n : nat) :
  0 < n → Forall (λ row, length row = n) rows →
  ∃ labels, mapM Np.argmax rows = Ok labels
            ∧ length labels = length rows ∧ Forall (λ label, label < n) labels.
Proof.
  intros Hn. induction 1 as [|row rows Hrow _ (labels & Hlabels & Hlen & Hlt)].
  - by exists [].
  - destruct (NpFacts.argmax_nonempty row) as [i Hi]; [intros ->; simpl in Hrow; lia|].
    exists (i :: labels). cbn [mapM]. rewrite Hi, Hlabels.
    split_and!; [done|simpl; lia|].
    constructor; [|done]. apply NpFacts.argmax_lt in Hi. lia.
Qed.

(** *** The topic clusters of the members *)

Section topic_clusters.
Context `{External}.

Lemma writes_only_topic_cluster_of keywords cluster_labels topic_model clusters label :
  writes_only topic_keys (topic_cluster_of keywords cluster_labels topic_model clusters label).
Proof.
  unfold topic_cluster_of, topic_keys.
  pose proof writes_only_keyword_texts_of. writes_only; done.
Qed.

Lemma bind_run {A B} (m : M A) (f : A → M B) h a h' :
  m h = (Ok a, h') → (m ≫= f) h = f a h'.
Proof. intros Hm. unfold mbind, M_bind. by rewrite Hm. Qed.

Lemma topic_cluster_of_returns keywords cluster_labels topic_model clusters label h :
  length cluster_labels ≤ length keywords →
  length cluster_labels ≤ length (topic_distributions topic_model) →
  (0 ≤ label < Z.of_nat (length (components_top topic_model)))%Z →
  ∃ c h',
    topic_cluster_of keywords cluster_labels topic_model clusters label h
    = (Ok (clusters ++ [c]), h')
    ∧ (∀ text, text ∈ c_keywords c → text ∈ text_of h <$> keywords)
    ∧ is_Some (c_topic_words c).
Proof.
  intros Hkeywords Hrows Hcomp. unfold topic_cluster_of.
  destruct (mapM_index_Ok keywords (Np.where_eq cluster_labels label))
    as (cluster_keywords & -> & _ & Hsub).
  { intros i Hi%where_eq_lt. lia. }
  destruct (mapM_index_Ok (topic_distributions topic_model)
              (Np.where_eq cluster_labels label)) as (rows & -> & _ & _).
  { intros i Hi%where_eq_lt. lia. }
  unfold Np.index_Z. rewrite decide_True by lia.
  destruct (lookup_lt_is_Some_2 (components_top topic_model) (Z.to_nat label))
    as [[top_words weights] Htop]; [lia|].
  unfold Np.index. rewrite Htop. cbn [fmap result_fmap fst].
  rewrite (bind_run _ _ h cluster_keywords h) by done.
  rewrite (bind_run _ _ h rows h) by done.
  rewrite (bind_run _ _ h top_words h) by done.
  erewrite (bind_run uuid4) by done.
  erewrite bind_run by apply keyword_texts_of_spec.
  match goal with |- context [(for_ ?l ?body ≫= _) ?h1] =>
    assert (∃ h', for_ l body h1 = (Ok (), h')) as [h' Hfor]
  end.
  { apply for_Ok. intros kw h1. unfold mbind, M_bind, kw_set. eexists. reflexivity. }
  erewrite bind_run by apply Hfor.
  eexists _, h'. split; [done|]. split; [|by eexists]. cbn [c_keywords].
  intros text (kw & -> & Hkw)%list_elem_of_fmap.
  apply list_elem_of_fmap. exists kw. split; [done|by apply Hsub].
Qed.

Lemma topic_cluster_of_spec keywords cluster_labels topic_model clusters label h0 h :
  frame topic_keys h0 h →
  label ∈ cluster_labels →
  length cluster_labels ≤ length keywords →
  length cluster_labels ≤ length (topic_distributions topic_model) →
  (0 ≤ label < Z.of_nat (length (components_top topic_model)))%Z →
  ∃ c h',
    topic_cluster_of keywords cluster_labels topic_model clusters label h
    = (Ok (clusters ++ [c]), h')
    ∧ from_keywords h0 keywords c
    ∧ frame topic_keys h0 h'.
Proof.
  intros Hframe Hlabel Hkeywords Hrows Hcomp.
  destruct (topic_cluster_of_returns keywords cluster_labels topic_model clusters label h)
    as (c & h' & Hrun & Htexts & Hwords); [done..|].
  pose proof (writes_only_topic_cluster_of keywords cluster_labels topic_model clusters
                label h) as Hwrites.
  rewrite Hrun in Hwrites. simpl in Hwrites.
  exists c, h'. split; [done|]. split; [|by eapply frame_trans].
  split; [|done]. intros text (kw & -> & Hkw)%Htexts%list_elem_of_fmap.
  apply list_elem_of_fmap. exists kw. split; [|done].
  apply (text_of_frame topic_keys); [|done]. unfold topic_keys. set_solver.
Qed.

Lemma topic_clusters_from keywords cluster_labels topic_model labels clusters h0 h :
  frame topic_keys h0 h →
  Forall (from_keywords h0 keywords) clusters →
  (∀ label, label ∈ labels → label ∈ cluster_labels) →
  length cluster_labels ≤ length keywords →
  length cluster_labels ≤ length (topic_distributions topic_model) →
  Forall (λ label, (0 ≤ label < Z.of_nat (length (components_top topic_model)))%Z)
         cluster_labels →
  ∃ clusters' h',
    foldM (topic_cluster_of keywords cluster_labels topic_model) clusters labels h
    = (Ok clusters', h')
    ∧ length clusters' = length clusters + length labels
    ∧ Forall (from_keywords h0 keywords) clusters'
    ∧ frame topic_keys h0 h'.
Proof.
  intros Hframe Hclusters Hlabels Hkeywords Hrows Hcomp.
  revert clusters h Hframe Hclusters.
  induction labels as [|label labels IH]; intros clusters h Hframe Hclusters.
  - eexists _, _. split; [done|]. split_and!; [simpl; lia|done..].
  - destruct (topic_cluster_of_spec keywords cluster_labels topic_model clusters label h0 h)
      as (c & h1 & Hstep & Hc & Hframe1); [done|apply Hlabels; by left|done..| |].
    { rewrite Forall_forall in Hcomp. apply Hcomp, Hlabels. by left. }
    destruct (IH (λ l Hl, Hlabels l (list_elem_of_further _ _ _ Hl)) (clusters ++ [c]) h1)
      as (clusters' & h' & Hrest & Hlen & Hall & Hframe'); [done| |].
    { apply Forall_app. split; [done|]. by constructor. }
    exists clusters', h'. cbn [foldM]. erewrite bind_run by apply Hstep.
    split; [done|]. split_and!; [|done..].
    rewrite Hlen, length_app. simpl. lia.
Qed.

Lemma create_topic_clusters_spec keywords cluster_labels topic_model h :
  length cluster_labels ≤ length keywords →
  length cluster_labels ≤ length (topic_distributions topic_model) →
  Forall (λ label, (0 ≤ label < Z.of_nat (length (components_top topic_model)))%Z)
         cluster_labels →
  ∃ clusters h',
    _create_topic_clusters keywords cluster_labels topic_model h = (Ok clusters, h')
    ∧ length clusters = length (remove_dups cluster_labels)
    ∧ Forall (from_keywords h keywords) clusters
    ∧ frame topic_keys h h'.
Proof.
  intros Hkeywords Hrows Hcomp. unfold _create_topic_clusters, reraise, try_exceptM.
  destruct (topic_clusters_from keywords cluster_labels topic_model
              (Np.unique cluster_labels) [] h h)
    as (clusters & h' & Hrun & Hlen & Hall & Hframe);
    [apply frame_refl|constructor|intros label Hl; by rewrite elem_of_unique in Hl|done..|].
  exists clusters, h'. cbv zeta. rewrite Hrun. split; [done|]. split_and!; [|done..].
  rewrite Hlen, length_unique. done.
Qed.

End topic_clusters.

(** *** A cluster of more than five members *)

Section refine.
Context `{External}.

Lemma reraise_run {A} (body : M A) h a h' :
  body h = (Ok a, h') → reraise body h = (Ok a, h').
Proof. intros Hbody. unfold reraise, try_exceptM. by rewrite Hbody. Qed.

Lemma generate_embeddings_run texts embeddings h :
  encode texts = Ok embeddings → _generate_embeddings texts h = (Ok embeddings, h).
Proof. intros Hencode. unfold _generate_embeddings. apply reraise_run. unfold lift. by rewrite Hencode. Qed.

Lemma topic_modeling_clustering_spec keyword_texts keywords n_topics fit h :
  decompose true n_topics keyword_texts = Ok fit →
  length (topic_distributions fit) = length keywords →
  Forall (λ row, length row = length (components_top fit)) (topic_distributions fit) →
  components_top fit ≠ [] →
  ∃ labels topic_clusters h',
    mapM Np.argmax (topic_distributions fit) = Ok labels
    ∧ _topic_modeling_clustering keyword_texts keywords n_topics (VStr "lda") h
      = (Ok topic_clusters, h')
    ∧ length topic_clusters = length (remove_dups labels)
    ∧ (keywords ≠ [] → 1 ≤ length topic_clusters)
    ∧ length topic_clusters ≤ length (components_top fit)
    ∧ Forall (from_keywords h keywords) topic_clusters
    ∧ frame topic_keys h h'.
Proof.
  intros Hfit Hrows Hrow Hcomp.
  destruct (argmax_rows_Ok (topic_distributions fit) (length (components_top fit)))
    as (labels & Hlabels & Hlen & Hlt); [by destruct (components_top fit); simpl; [|lia]|done|].
  destruct (create_topic_clusters_spec keywords (Z.of_nat <$> labels) fit h)
    as (topic_clusters & h' & Hcreate & Hcount & Hfrom & Hframe).
  { rewrite length_fmap. lia. }
  { rewrite length_fmap. lia. }
  { apply Forall_fmap. eapply Forall_impl; [done|]. intros label Hl. unfold compose. cbv beta in Hl. lia. }
  exists labels, topic_clusters, h'. rewrite remove_dups_fmap_of_nat in Hcount.
  split; [done|]. split.
  { unfold _topic_modeling_clustering. apply reraise_run.
    erewrite bind_run by (unfold lift; simpl eq_str; by rewrite Hfit).
    erewrite bind_run by (unfold lift; by rewrite Hlabels).
    done. }
  split_and!; [done| | |done..].
  - intros Hne. rewrite Hcount. apply length_remove_dups_pos.
    intros ->. destruct keywords; [done|]. simpl in *. lia.
  - rewrite Hcount. by apply length_remove_dups_bounded.
Qed.

Lemma refine_step_large keywords refined_clusters cluster h embeddings fit :
  let members := members_of h keywords (c_id cluster) in
  let texts := text_of h <$> members in
  5 < length members →
  encode texts = Ok embeddings →
  decompose true (VInt (Z.of_nat (Nat.min 3 (length members / 2)))) texts = Ok fit →
  length (topic_distributions fit) = length texts →
  Forall (λ row, length row = length (components_top fit)) (topic_distributions fit) →
  components_top fit ≠ [] →
  ∃ labels sub_topics h',
    mapM Np.argmax (topic_distributions fit) = Ok labels
    ∧ refine_step keywords refined_clusters cluster h
      = (Ok (refined_clusters ++ [set_sub_topics cluster sub_topics]), h')
    ∧ length sub_topics = length (remove_dups labels)
    ∧ 1 ≤ length sub_topics ≤ length (components_top fit)
    ∧ Forall (λ sub_topic, ∀ text, text ∈ st_keywords sub_topic → text ∈ texts) sub_topics
    ∧ frame topic_keys h h'.
Proof.
  intros members texts Hlarge Hencode Hfit Hrows Hrow Hcomp.
  destruct (topic_modeling_clustering_spec texts members
              (VInt (Z.of_nat (Nat.min 3 (length members / 2)))) fit h)
    as (labels & topic_clusters & h' & Hlabels & Hrun & Hcount & Hpos & Hbound & Hfrom & Hframe);
    [done|by rewrite Hrows; unfold texts; rewrite length_fmap|done..|].
  exists labels, (sub_topic_of <$> topic_clusters), h'. split; [done|]. split.
  { unfold refine_step.
    erewrite bind_run by apply keywords_of_cluster_spec.
    erewrite bind_run by apply keyword_texts_of_spec.
    rewrite !(length_fmap (text_of h)). fold members.
    rewrite decide_True by done.
    erewrite bind_run by (by apply generate_embeddings_run).
    erewrite bind_run by apply Hrun.
    by rewrite refine_cluster_with_topics_spec. }
  rewrite length_fmap. split_and!; [done| |done| |done].
  - apply Hpos. intros Hnil. rewrite Hnil in Hlarge. simpl in Hlarge. lia.
  - apply Forall_fmap. eapply Forall_impl; [done|]. by intros tc [Htexts _].
Qed.

End refine.


(** The hybrid strategy on ten keywords with one text: one cluster of ten,
    refined with a single sub-topic. *)
Example hybrid_of_ten_keywords :
  ∃ cluster sub_topic h',
    @_hybrid_clustering Samples.uniform Samples.ten_vectors
      (replicate 10 (VStr "seo tools")) (seq 0 10) (VInt 1) (Heap Samples.ten_keywords 0)
    = (Ok [cluster], h')
    ∧ c_size cluster = 10
    ∧ c_sub_topics cluster = Some [sub_topic]
    ∧ st_keywords sub_topic = replicate 10 (VStr "seo tools")
    ∧ st_topic_words sub_topic = ["seo"; "tools"].
Proof. eexists _, _, _. split; [vm_compute; reflexivity|]. by split_and!. Qed.



(** *** A failure inside the loop *)

Lemma refine_steps_abort `{External} keywords acc before cluster after h refined h1 e h2 :
  foldM (refine_step keywords) acc before h = (Ok refined, h1) →
  refine_step keywords refined cluster h1 = (Raise e, h2) →
  foldM (refine_step keywords) acc (before ++ cluster :: after) h = (Raise e, h2).
Proof.
  intros Hbefore Hstep. rewrite foldM_app, Hbefore. cbn [foldM].
  unfold mbind, M_bind. by rewrite Hstep.
Qed.


(** The hybrid strategy on six keywords ["the"] and six keywords
    ["seo tools"]: the hierarchical step returns two clusters of six, the
    topic decomposition of the first one raises, and so does the refiner. *)
Example hybrid_of_mixed_keywords :
  Samples.mixed_semantic = (Ok (Samples.mixed_first :: Samples.mixed_rest), Samples.mixed_heap)
  ∧ c_size Samples.mixed_first = 6
  ∧ c_size <$> Samples.mixed_rest = [6]
  ∧ c_keywords Samples.mixed_first = replicate 6 (VStr "the").
Proof. by vm_compute. Qed.


End HybridFacts.

(** * Part IV: further properties of the two workers *)

(** ** Running the two monads *)

Module RunFacts.

Lemma bind_M_Ok {A B} (m : M A) (f : A → M B) h b h' :
  (m ≫= f) h = (Ok b, h') ↔ ∃ a h1, m h = (Ok a, h1) ∧ f a h1 = (Ok b, h').
Proof.
  unfold mbind, M_bind. destruct (m h) as [[a|e] h1]; split.
  - eauto.
  - by intros (? & ? & [= <- <-] & ?).
  - done.
  - by intros (? & ? & ? & ?).
Qed.

Lemma bind_M_Raise {A B} (m : M A) (f : A → M B) h e h' :
  m h = (Raise e, h') → (m ≫= f) h = (Raise e, h').
Proof. intros Hm. unfold mbind, M_bind. by rewrite Hm. Qed.

Lemma bind_M_ext {A B} (m1 m2 : M A) (f : A → M B) h :
  m1 h = m2 h → (m1 ≫= f) h = (m2 ≫= f) h.
Proof. intros Hm. unfold mbind, M_bind. by rewrite Hm. Qed.

Lemma bind_M_ext_r {A B} (m : M A) (f1 f2 : A → M B) h :
  (∀ a h1, m h = (Ok a, h1) → f1 a h1 = f2 a h1) → (m ≫= f1) h = (m ≫= f2) h.
Proof. intros Hf. unfold mbind, M_bind. destruct (m h) as [[a|e] h1]; [by apply Hf|done]. Qed.

Lemma reraise_eq {A} (body : M A) h : reraise body h = body h.
Proof. unfold reraise, try_exceptM, raise. by destruct (body h) as [[?|?] ?]. Qed.

Lemma lift_Ok {A} (r : result A) h a h' : lift r h = (Ok a, h') ↔ r = Ok a ∧ h' = h.
Proof. unfold lift. split; [by intros [= -> ->]|by intros [-> ->]]. Qed.

Lemma ret_M_Ok {A} (a b : A) h h' : mret (M:=M) a h = (Ok b, h') ↔ b = a ∧ h' = h.
Proof. unfold mret, M_ret. split; [by intros [= -> ->]|by intros [-> ->]]. Qed.

(** A property of the loop variables and the heap that every pass keeps
    holds when the loop ends. *)
Lemma foldM_M_inv {A B} (P : B → heap → Prop) (body : B → A → M B) l acc h out h' :
  (∀ acc x h out h', x ∈ l → P acc h → body acc x h = (Ok out, h') → P out h') →
  P acc h → foldM body acc l h = (Ok out, h') → P out h'.
Proof.
  revert acc h. induction l as [|x l IH]; intros acc h Hbody HP; simpl.
  - by intros [-> ->]%ret_M_Ok.
  - intros (acc1 & h1 & Hx & Hl)%bind_M_Ok.
    eapply IH; [|eapply Hbody; [left|done..]|done].
    intros a x' h2 o h3 Hin. apply Hbody. by right.
Qed.

Lemma foldM_result_inv {A B} (P : B → Prop) (body : B → A → result B) l acc out :
  (∀ acc x out, x ∈ l → P acc → body acc x = Ok out → P out) →
  P acc → foldM body acc l = Ok out → P out.
Proof.
  revert acc. induction l as [|x l IH]; intros acc Hbody HP; simpl.
  - by intros [= <-].
  - destruct (body acc x) as [acc1|] eqn:Hx; [|done]. simpl.
    eapply IH; [|eapply Hbody; [left|done..]].
    intros a x' o Hin. apply Hbody. by right.
Qed.

(** The same for a [foldl], with the part of the list already visited. *)
Lemma foldl_prefix_inv {A B} (P : list A → B → Prop) (f : B → A → B) l acc :
  P [] acc →
  (∀ pre x post acc, l = pre ++ x :: post → P pre acc → P (pre ++ [x]) (f acc x)) →
  P l (foldl f acc l).
Proof.
  intros Hnil Hstep.
  enough (∀ pre post acc, l = pre ++ post → P pre acc → P (pre ++ post) (foldl f acc post))
    as Hgen by (by apply (Hgen [] l)).
  intros pre post. revert pre. induction post as [|x post IH]; intros pre acc' Hl HP; simpl.
  - by rewrite app_nil_r.
  - rewrite (assoc_L _ pre [x] post : pre ++ x :: post = (pre ++ [x]) ++ post).
    apply IH; [by rewrite <-(assoc_L _ pre [x] post)|]. by eapply Hstep.
Qed.

Lemma foldl_inv {A B} (P : B → Prop) (f : B → A → B) l acc :
  (∀ acc x, x ∈ l → P acc → P (f acc x)) → P acc → P (foldl f acc l).
Proof.
  intros Hstep Hacc. apply (foldl_prefix_inv (λ _, P)); [done|].
  intros pre x post acc' -> Hacc'. apply Hstep; [|done]. apply elem_of_app. right. by left.
Qed.

(** The same for the monadic loops. *)
Lemma foldM_M_prefix_inv {A B} (P : list A → B → heap → Prop) (body : B → A → M B)
    l acc h out h' :
  P [] acc h →
  (∀ pre x post acc h out h',
     l = pre ++ x :: post → P pre acc h → body acc x h = (Ok out, h') →
     P (pre ++ [x]) out h') →
  foldM body acc l h = (Ok out, h') → P l out h'.
Proof.
  intros Hnil Hstep.
  enough (∀ pre post acc h, l = pre ++ post → P pre acc h →
            foldM body acc post h = (Ok out, h') → P (pre ++ post) out h')
    as Hgen by (by apply (Hgen [] l)).
  intros pre post. revert pre.
  induction post as [|x post IH]; intros pre acc' h1 Hl HP; simpl.
  - rewrite app_nil_r. by intros [-> ->]%ret_M_Ok.
  - intros (acc1 & h2 & Hx & Hpost)%bind_M_Ok.
    rewrite (assoc_L _ pre [x] post : pre ++ x :: post = (pre ++ [x]) ++ post).
    eapply IH; [by rewrite <-(assoc_L _ pre [x] post)| |done]. by eapply Hstep.
Qed.

Lemma foldM_result_prefix_inv {A B} (P : list A → B → Prop) (body : B → A → result B)
    l acc out :
  P [] acc →
  (∀ pre x post acc out,
     l = pre ++ x :: post → P pre acc → body acc x = Ok out → P (pre ++ [x]) out) →
  foldM body acc l = Ok out → P l out.
Proof.
  intros Hnil Hstep.
  enough (∀ pre post acc, l = pre ++ post → P pre acc →
            foldM body acc post = Ok out → P (pre ++ post) out)
    as Hgen by (by apply (Hgen [] l)).
  intros pre post. revert pre.
  induction post as [|x post IH]; intros pre acc' Hl HP; simpl.
  - rewrite app_nil_r. by intros [= <-].
  - destruct (body acc' x) as [acc1|] eqn:Hx; [|done]. simpl. intros Hpost.
    rewrite (assoc_L _ pre [x] post : pre ++ x :: post = (pre ++ [x]) ++ post).
    eapply IH; [by rewrite <-(assoc_L _ pre [x] post)| |done]. by eapply Hstep.
Qed.

(** A loop that raises does so in one of its passes. *)
Lemma foldM_M_Raise {A B} (body : B → A → M B) l acc h e h' :
  foldM body acc l h = (Raise e, h') →
  ∃ acc1 x h1, x ∈ l ∧ body acc1 x h1 = (Raise e, h').
Proof.
  revert acc h. induction l as [|x l IH]; intros acc h; simpl; [done|].
  unfold mbind, M_bind. destruct (body acc x h) as [[acc1|e1] h1] eqn:Hx.
  - intros (acc2 & y & h2 & Hy & Hraise)%IH. exists acc2, y, h2. split; [by right|done].
  - intros [= <- <-]. exists acc, x, h. split; [by left|done].
Qed.

Lemma mapM_Raise {A B} (f : A → result B) l x :
  x ∈ l → (∃ e, f x = Raise e) → ∃ e, mapM f l = Raise e.
Proof.
  induction l as [|y l IH]; [by intros ?%elem_of_nil|].
  intros Hin Hx. simpl. destruct (f y) as [b|e] eqn:Hy; [|by eexists].
  simpl. apply elem_of_cons in Hin as [->|Hin].
  - destruct Hx as [e He]. congruence.
  - destruct (IH Hin Hx) as [e ->]. by eexists.
Qed.

End RunFacts.

(** ** The entry point [perform_advanced_clustering] *)

Module EntryFacts.
Import AdvancedClusteringWorker Spec Vocab HeapFacts DispatchFacts HybridFacts RunFacts.

Section worker.
Context `{External}.

(** Once the texts are embedded, the entry point runs the selected strategy
    and then the hierarchy builder, the topic model and the metrics. *)
Lemma perform_after_embedding keywords method kwargs h embeddings :
  encode (text_of h <$> keywords) = Ok embeddings →
  perform_advanced_clustering keywords method kwargs h
  = (clusters ← dispatch method kwargs embeddings (text_of h <$> keywords) keywords;
     hierarchy ← lift (_build_cluster_hierarchy clusters);
     topic_model ← _generate_topic_model (text_of h <$> keywords) clusters;
     metrics ← _calculate_cluster_metrics embeddings clusters;
     mret {| r_clusters := clusters; r_hierarchy := hierarchy;
             r_topic_model := topic_model; r_metrics := metrics;
             r_method := method; r_parameters := kwargs |}) h.
Proof.
  intros Hencode. unfold perform_advanced_clustering. rewrite reraise_eq.
  erewrite bind_run by apply keyword_texts_of_spec.
  by erewrite bind_run by by apply generate_embeddings_run.
Qed.

(** The texts are embedded before the strategy name is looked at: when the
    embedding model raises, the entry point raises the same exception for
    every strategy name, supported or not, and no keyword record has been
    touched. *)
Theorem embedding_failure_comes_first keywords method kwargs h e :
  encode (text_of h <$> keywords) = Raise e →
  perform_advanced_clustering keywords method kwargs h = (Raise e, h).
Proof.
  intros Hencode. unfold perform_advanced_clustering. rewrite reraise_eq.
  erewrite bind_run by apply keyword_texts_of_spec.
  apply bind_M_Raise. unfold _generate_embeddings. rewrite reraise_eq.
  unfold lift. by rewrite Hencode.
Qed.

Lemma bind_kwargs_rejects allowed kwargs key v h :
  kwargs !! key = Some v → key ∉ allowed →
  bind_kwargs allowed kwargs h
  = (Raise (TypeError "got an unexpected keyword argument"), h).
Proof.
  intros Hkey Hnot. unfold bind_kwargs. case_decide as Hsub; [|done].
  exfalso. apply Hnot. apply (elem_of_list_to_set (C:=gset string)), Hsub.
  apply elem_of_dom. by eexists.
Qed.

(** The keyword arguments of the call are passed on to the procedure of the
    selected strategy, which accepts only its own: with a supported strategy
    name and a keyword argument that its procedure does not have, the entry
    point raises [TypeError] once the texts are embedded, and no keyword
    record has been touched. *)
Theorem unexpected_keyword_argument keywords method kwargs h embeddings key v :
  method ∈ ["hierarchical"; "topic_modeling"; "hybrid"] →
  encode (text_of h <$> keywords) = Ok embeddings →
  kwargs !! key = Some v → key ∉ accepted_kwargs method →
  ∃ msg, perform_advanced_clustering keywords method kwargs h = (Raise (TypeError msg), h).
Proof.
  intros Hmethod Hencode Hkey Hnot. eexists.
  rewrite (perform_after_embedding _ _ _ _ _ Hencode).
  apply bind_M_Raise.
  set_unfold in Hmethod. destruct Hmethod as [->|[->|[->|[]]]].
  - rewrite dispatch_hierarchical. apply bind_M_Raise. by eapply bind_kwargs_rejects.
  - rewrite dispatch_topic_modeling. apply bind_M_Raise. by eapply bind_kwargs_rejects.
  - rewrite dispatch_hybrid. apply bind_M_Raise. by eapply bind_kwargs_rejects.
Qed.

(** *** Topic clusters have no centroid *)

Lemma topic_cluster_of_Ok keywords cluster_labels topic_model clusters label h out h' :
  topic_cluster_of keywords cluster_labels topic_model clusters label h = (Ok out, h') →
  ∃ c, out = clusters ++ [c] ∧ c_centroid c = None.
Proof.
  unfold topic_cluster_of.
  intros (cluster_keywords & h1 & _ & Hrun)%bind_M_Ok.
  apply bind_M_Ok in Hrun as (rows & h2 & _ & Hrun).
  apply bind_M_Ok in Hrun as (top_words & h3 & _ & Hrun).
  apply bind_M_Ok in Hrun as (id & h4 & _ & Hrun).
  apply bind_M_Ok in Hrun as (texts & h5 & _ & Hrun).
  apply bind_M_Ok in Hrun as ([] & h6 & _ & Hrun).
  apply ret_M_Ok in Hrun as [-> _]. by eexists.
Qed.

Lemma create_topic_clusters_no_centroid keywords cluster_labels topic_model h clusters h' :
  _create_topic_clusters keywords cluster_labels topic_model h = (Ok clusters, h') →
  Forall (λ c, c_centroid c = None) clusters.
Proof.
  unfold _create_topic_clusters. rewrite reraise_eq.
  apply (foldM_M_inv (λ clusters _, Forall (λ c, c_centroid c = None) clusters)); [|done].
  intros acc label h1 out h2 _ Hacc (c & -> & Hc)%topic_cluster_of_Ok.
  apply Forall_app. split; [done|]. by apply Forall_singleton.
Qed.

Lemma topic_modeling_no_centroid keyword_texts keywords n_topics method h clusters h' :
  _topic_modeling_clustering keyword_texts keywords n_topics method h = (Ok clusters, h') →
  Forall (λ c, c_centroid c = None) clusters.
Proof.
  unfold _topic_modeling_clustering. rewrite reraise_eq.
  intros (topic_model & h1 & _ & Hrun)%bind_M_Ok.
  apply bind_M_Ok in Hrun as (labels & h2 & _ & Hrun).
  by eapply create_topic_clusters_no_centroid.
Qed.

(** With the strategy [topic_modeling] the entry point cannot deliver a
    cluster: the clusters of the topic step have no [centroid], which the
    hierarchy builder reads. Whenever the topic step returns at least one
    cluster, the call raises [KeyError('centroid')], and the keyword records
    stay as the topic step left them. *)
Theorem topic_modeling_raises_KeyError keywords kwargs h embeddings cluster clusters h' :
  encode (text_of h <$> keywords) = Ok embeddings →
  dispatch "topic_modeling" kwargs embeddings (text_of h <$> keywords) keywords h
  = (Ok (cluster :: clusters), h') →
  perform_advanced_clustering keywords "topic_modeling" kwargs h
  = (Raise (KeyError "centroid"), h').
Proof.
  intros Hencode Hdispatch.
  rewrite (perform_after_embedding _ _ _ _ _ Hencode).
  erewrite bind_run by done. apply bind_M_Raise. unfold lift.
  rewrite dispatch_topic_modeling in Hdispatch.
  apply bind_M_Ok in Hdispatch as ([] & h1 & _ & Hrun).
  apply topic_modeling_no_centroid, Forall_cons in Hrun as [Hnone _].
  by rewrite HierarchyFacts.build_cluster_hierarchy_no_centroid.
Qed.

End worker.

Lemma embedding_failure_comes_first_witness :
  @perform_advanced_clustering Samples.failing [0] "density" ∅
    (Heap [Samples.keyword "seo tools"] 0)
  = (Raise (LibraryError "encode"), Heap [Samples.keyword "seo tools"] 0).
Proof. by apply embedding_failure_comes_first. Defined.

Lemma unexpected_keyword_argument_witness :
  ∃ msg,
    @perform_advanced_clustering Samples.uniform [0] "hybrid" {[ "linkage" := VStr "ward" ]}
      (Heap [Samples.keyword "seo tools"] 0)
    = (Raise (TypeError msg), Heap [Samples.keyword "seo tools"] 0).
Proof.
  apply (unexpected_keyword_argument (H:=Samples.uniform) [0] "hybrid"
           {[ "linkage" := VStr "ward" ]} (Heap [Samples.keyword "seo tools"] 0)
           [[1%Q; 0%Q]] "linkage" (VStr "ward")).
  - apply (bool_decide_unpack _). by vm_compute.
  - reflexivity.
  - reflexivity.
  - apply (bool_decide_unpack _). by vm_compute.
Defined.

Lemma topic_modeling_raises_KeyError_witness :
  (@perform_advanced_clustering Samples.uniform [0] "topic_modeling" ∅
     (Heap [Samples.keyword "seo tools"] 0)).1
  = Raise (KeyError "centroid").
Proof.
  erewrite (topic_modeling_raises_KeyError (H:=Samples.uniform) [0] ∅
              (Heap [Samples.keyword "seo tools"] 0) [[1%Q; 0%Q]]).
  - reflexivity.
  - reflexivity.
  - vm_compute. reflexivity.
Defined.

End EntryFacts.

(** ** The elbow point *)

Module ElbowFacts.
Import AdvancedClusteringWorker Spec EstimatorFacts.

Lemma elbow_candidate_le inertias :
  3 ≤ length inertias → elbow_candidate inertias ≤ length inertias + 1.
Proof.
  intros Hlen. unfold elbow_candidate.
  pose proof (NpFacts.length_diff inertias) as Hdiff1.
  pose proof (NpFacts.length_diff (Np.diff inertias)) as Hdiff.
  destruct (Np.diff (Np.diff inertias)) as [|d ds]; simpl in Hdiff; [lia|].
  pose proof (NpFacts.argmax_from_lt d 0 1 ds). lia.
Qed.

Lemma elbow_candidate_few inertias : length inertias < 3 → elbow_candidate inertias = 5.
Proof.
  intros Hlen. unfold elbow_candidate.
  pose proof (NpFacts.length_diff inertias) as Hdiff1.
  pose proof (NpFacts.length_diff (Np.diff inertias)) as Hdiff.
  destruct (Np.diff (Np.diff inertias)); simpl in Hdiff; [done|lia].
Qed.

(** The elbow point for the candidate counts [range(2, m + 1)], with one
    inertia for every candidate. With fewer than three candidates ([m < 4])
    there is no second difference and the answer is the fallback 5, which is
    not a candidate. Otherwise the answer is a candidate, and at least 4: the
    elbow method never proposes 2 or 3 clusters. *)
Theorem elbow_point_range (m : nat) (inertias : list Q) :
  length inertias = m - 1 →
  let elbow_k := _find_elbow_point (k_range m) inertias in
  if decide (m < 4) then elbow_k = 5 else 4 ≤ elbow_k ≤ m.
Proof.
  intros Hlen elbow_k. subst elbow_k. rewrite find_elbow_point_spec by done.
  case_decide.
  - apply elbow_candidate_few. lia.
  - pose proof (elbow_candidate_ge inertias).
    pose proof (elbow_candidate_le inertias). lia.
Qed.

Lemma elbow_point_range_witness :
  4 ≤ _find_elbow_point (k_range 6) [100; 40; 30; 25; 24]%Q ≤ 6.
Proof. apply (elbow_point_range 6 [100; 40; 30; 25; 24]%Q). reflexivity. Defined.

End ElbowFacts.

(** ** Bounds of the topic coherence *)

Module CoherenceBounds.
Import AdvancedClusteringWorker Spec RunFacts.

Lemma Qnat_nonneg n : (0 <= Qnat n)%Q.
Proof. unfold Qnat. rewrite <-(Zle_Qle 0). lia. Qed.

Lemma Qnat_pos n : 0 < n → (0 < Qnat n)%Q.
Proof. intros Hn. unfold Qnat. rewrite <-(Zlt_Qlt 0). lia. Qed.

Lemma Qnat_le n m : n ≤ m → (Qnat n <= Qnat m)%Q.
Proof. intros Hle. unfold Qnat. rewrite <-Zle_Qle. lia. Qed.

Lemma Qnat_succ n : (Qnat (n + 1) == Qnat n + 1)%Q.
Proof. unfold Qnat. by rewrite Nat2Z.inj_add, inject_Z_plus. Qed.

Lemma fraction_bounds n d : n ≤ d → 0 < d → (0 <= Qnat n / Qnat d <= 1)%Q.
Proof.
  intros Hle Hd. pose proof (Qnat_pos d Hd). pose proof (Qnat_nonneg n).
  pose proof (Qnat_le n d Hle). split.
  - apply Qle_shift_div_l; [done|]. lra.
  - apply Qle_shift_div_r; [done|]. lra.
Qed.

Lemma co_occurrences_le word1 word2 documents n :
  co_occurrences word1 word2 documents = Ok n → n ≤ length documents.
Proof.
  unfold co_occurrences.
  intros (lowered & Hlowered%mapM_Ok_length & [= <-])%bind_Ok.
  rewrite <-Hlowered. apply length_filter.
Qed.

(** What the two loops keep: the running sum of the rates is between 0 and
    the number of pairs counted so far. *)
Lemma coherence_loops_bounds topic_words documents coherence_score word_pairs :
  foldM (λ vars '(i, word1),
           foldM (λ '(coherence_score, word_pairs) word2,
                    co_occurrences ← co_occurrences word1 word2 documents;
                    let total_docs := length documents in
                    let coherence_score :=
                      if decide (0 < total_docs)
                      then (coherence_score + Qnat co_occurrences / Qnat total_docs)%Q
                      else coherence_score in
                    mret (coherence_score, word_pairs + 1))
                 vars (drop (i + 1) topic_words))
        (0%Q, 0) (enumerate topic_words)
  = Ok (coherence_score, word_pairs) →
  (0 <= coherence_score <= Qnat word_pairs)%Q.
Proof.
  apply (foldM_result_inv (λ vars : Q * nat, (0 <= vars.1 <= Qnat vars.2)%Q));
    [|pose proof (Qnat_nonneg 0); simpl; lra].
  intros vars [i word1] vars' _ Hvars.
  apply (foldM_result_inv (λ vars : Q * nat, (0 <= vars.1 <= Qnat vars.2)%Q)); [|done].
  intros [score pairs] word2 out _ Hacc. simpl in Hacc.
  intros (n & Hn%co_occurrences_le & [= <-])%bind_Ok. simpl.
  pose proof (Qnat_succ pairs). case_decide as Hdocs.
  - pose proof (fraction_bounds n (length documents) Hn Hdocs). lra.
  - lra.
Qed.

(** The topic coherence is a number between 0 and 1, for all topic words and
    all documents, also when a document is not a string and the computation
    falls back to 0. *)
Theorem topic_coherence_bounds (topic_words : list string) (documents : list Val) :
  (0 <= _calculate_topic_coherence topic_words documents <= 1)%Q.
Proof.
  unfold _calculate_topic_coherence.
  destruct (foldM _ _ _) as [[coherence_score word_pairs]|] eqn:Hloops; simpl; [|lra].
  apply coherence_loops_bounds in Hloops. case_decide as Hpairs; [|lra].
  pose proof (Qnat_pos word_pairs Hpairs). split.
  - apply Qle_shift_div_l; [done|]. lra.
  - apply Qle_shift_div_r; [done|]. lra.
Qed.

Lemma co_occurrences_non_text word1 word2 documents doc :
  doc ∈ documents → (∀ text, doc ≠ VStr text) →
  ∃ e, co_occurrences word1 word2 documents = Raise e.
Proof.
  intros Hdoc Htext. unfold co_occurrences.
  destruct (mapM_Raise Str.val_lower documents doc Hdoc) as [e ->]; [|by eexists].
  destruct doc; simpl; eauto. by destruct (Htext s).
Qed.

(** A document that is not a string has no [lower]; with two or more topic
    words the first pair already fails on it, the failure is caught, and the
    coherence is 0. *)
Theorem topic_coherence_non_text (topic_words : list string) (documents : list Val)
    (doc : Val) :
  2 ≤ length topic_words →
  doc ∈ documents → (∀ text, doc ≠ VStr text) →
  _calculate_topic_coherence topic_words documents = 0%Q.
Proof.
  intros Hlen Hdoc Htext. destruct topic_words as [|word1 [|word2 rest]]; [simpl in *; lia..|].
  destruct (co_occurrences_non_text word1 word2 documents doc Hdoc Htext) as [e He].
  unfold _calculate_topic_coherence. simpl. by rewrite He.
Qed.

Lemma topic_coherence_non_text_witness :
  _calculate_topic_coherence ["seo"; "tools"] [VStr "seo tools"; VNone] = 0%Q.
Proof.
  apply (topic_coherence_non_text ["seo"; "tools"] [VStr "seo tools"; VNone] VNone).
  - simpl. lia.
  - apply (bool_decide_unpack _). by vm_compute.
  - done.
Defined.

End CoherenceBounds.

(** ** Labels and the positions they mark *)

Module LabelFacts.
Import Vocab HybridFacts.

Lemma filter_disjoint {A} (P Q R : A → Prop)
    `{∀ x, Decision (P x), ∀ x, Decision (Q x), ∀ x, Decision (R x)} (l : list A) :
  (∀ x, x ∈ l → R x ↔ P x ∨ Q x) → (∀ x, x ∈ l → P x → Q x → False) →
  filter R l ≡ₚ filter P l ++ filter Q l.
Proof.
  induction l as [|x l IH]; intros HR Hdisjoint; [done|].
  rewrite !filter_cons.
  assert (filter R l ≡ₚ filter P l ++ filter Q l) as IH'.
  { apply IH; intros y Hy; [apply HR|apply Hdisjoint]; by right. }
  specialize (HR x ltac:(left)). specialize (Hdisjoint x ltac:(left)).
  repeat case_decide; try tauto.
  - simpl. by rewrite IH'.
  - rewrite IH'. by rewrite <-Permutation_middle.
Qed.

Lemma elem_of_where_eq (a : list Z) (x : Z) (i : nat) :
  i ∈ Np.where_eq a x ↔ a !! i = Some x.
Proof.
  split; [apply where_eq_lookup|]. intros Hi. unfold Np.where_eq, enumerate.
  apply list_elem_of_fmap. exists (i, x). split; [done|].
  apply list_elem_of_filter. split; [done|].
  apply elem_of_lookup_imap. by exists i, x.
Qed.

Lemma where_eq_nonempty (a : list Z) (x : Z) : x ∈ a → Np.where_eq a x ≠ [].
Proof.
  intros (i & Hi)%list_elem_of_lookup_1 Hnil.
  apply elem_of_where_eq in Hi. rewrite Hnil in Hi. by apply elem_of_nil in Hi.
Qed.

Lemma mapM_index_beyond {A} (pre : list A) (indices : list nat) ks :
  Forall (λ i, length pre ≤ i) indices →
  mapM (Np.index pre) indices = Ok ks → indices = [].
Proof.
  destruct indices as [|i indices]; [done|]. intros [Hi _]%Forall_cons.
  assert (∃ e, Np.index pre i = Raise e) as [e He]
    by (unfold Np.index; rewrite lookup_ge_None_2 by done; eauto).
  cbn [mapM]. by rewrite He.
Qed.

(** Reading [keywords] at the positions [np.where(labels == label)[0]], when
    all of them are positions of [keywords], gives the entries labelled
    [label]. *)
Lemma index_where_from {A} (label : Z) (labels : list Z) (pre keywords : list A) (o : nat) ks :
  o = length pre →
  mapM (Np.index (pre ++ keywords))
       (filter (λ p, p.2 = label) (imap (λ i y, (o + i, y)) labels)).*1 = Ok ks →
  ks = labelled keywords labels (λ y, y = label).
Proof.
  revert pre keywords o ks. induction labels as [|y labels IH]; intros pre keywords o ks Ho.
  { simpl. intros [= <-]. unfold labelled. by destruct keywords. }
  destruct keywords as [|k keywords].
  { rewrite app_nil_r. intros Hks. unfold labelled. simpl.
    apply mapM_index_beyond in Hks as Hnil; [rewrite Hnil in Hks; by injection Hks|].
    apply Forall_forall. intros i ([j z] & -> & [_ Hin]%list_elem_of_filter)%list_elem_of_fmap.
    apply elem_of_lookup_imap in Hin as (n & z' & [= -> ->] & _). simpl. lia. }
  rewrite imap_cons, filter_cons. unfold labelled. simpl zip. rewrite filter_cons. simpl.
  rewrite (imap_ext _ (λ i y, (S o + i, y))) by (intros; simpl; f_equal; lia).
  rewrite (cons_middle k pre keywords), (assoc_L (++)).
  case_decide as Hy.
  - assert (Np.index ((pre ++ [k]) ++ keywords) (o + 0) = Ok k) as Hk.
    { unfold Np.index. rewrite lookup_app_l by (rewrite length_app; simpl; lia).
      rewrite lookup_app_r by lia. by replace (o + 0 - length pre) with 0 by lia. }
    cbn [fmap list_fmap mapM fst]. rewrite Hk. simpl.
    destruct (mapM _ _) as [ks'|] eqn:Hks'; simpl; [|done].
    unfold mret, result_ret. intros [= <-].
    f_equal. apply (IH (pre ++ [k]) keywords (S o)); [|exact Hks'].
    rewrite length_app. simpl. lia.
  - intros Hks. apply (IH (pre ++ [k]) keywords (S o)); [|exact Hks].
    rewrite length_app. simpl. lia.
Qed.

Lemma index_where_eq {A} (label : Z) (labels : list Z) (keywords : list A) ks :
  mapM (Np.index keywords) (Np.where_eq labels label) = Ok ks →
  ks = labelled keywords labels (λ y, y = label).
Proof. intros Hks. by eapply (index_where_from label labels [] keywords 0). Qed.

(** The entries with distinct labels [ls], label by label, are the entries
    whose label is one of [ls]. *)
Lemma labelled_partition {A} (keywords : list A) (labels ls : list Z) :
  NoDup ls →
  concat ((λ label, labelled keywords labels (λ y, y = label)) <$> ls)
  ≡ₚ labelled keywords labels (λ y, y ∈ ls).
Proof.
  induction 1 as [|label ls Hnotin Hnodup IH]; simpl.
  - unfold labelled. rewrite (list_filter_iff _ (λ _, False)); [|by set_solver].
    by induction (zip keywords labels).
  - rewrite IH. unfold labelled. rewrite <-fmap_app. apply fmap_Permutation.
    symmetry. apply filter_disjoint.
    + intros p _. set_solver.
    + intros p _ -> ?. done.
Qed.

Lemma filter_iff_elem {A} (P Q : A → Prop) `{∀ x, Decision (P x), ∀ x, Decision (Q x)}
    (l : list A) :
  (∀ x, x ∈ l → P x ↔ Q x) → filter P l = filter Q l.
Proof.
  induction l as [|x l IH]; intros HPQ; [done|]. rewrite !filter_cons.
  rewrite IH by (intros y Hy; apply HPQ; by right).
  specialize (HPQ x ltac:(left)). repeat case_decide; tauto.
Qed.

Lemma labelled_iff {A} (keywords : list A) (labels : list Z) (P Q : Z → Prop)
    `{∀ label, Decision (P label), ∀ label, Decision (Q label)} :
  (∀ label, label ∈ labels → P label ↔ Q label) →
  labelled keywords labels P = labelled keywords labels Q.
Proof.
  intros HPQ. unfold labelled. f_equal. apply filter_iff_elem.
  intros [k label] Hin. apply HPQ. by eapply elem_of_zip_r.
Qed.

(** The entries with a label other than -1, label by label, for any list
    [ls] of the distinct labels. *)
Lemma labelled_non_noise {A} (keywords : list A) (labels ls : list Z) :
  NoDup ls → (∀ label, label ∈ ls ↔ label ∈ labels) →
  concat ((λ label, labelled keywords labels (λ y, y = label))
          <$> filter (λ label, label ≠ (-1)%Z) ls)
  ≡ₚ labelled keywords labels (λ y, y ≠ (-1)%Z).
Proof.
  intros Hnodup Hls. rewrite labelled_partition by by apply NoDup_filter.
  erewrite labelled_iff; [done|].
  intros label Hin. rewrite list_elem_of_filter, Hls. tauto.
Qed.

Lemma elem_of_labelled {A} (keywords : list A) (labels : list Z) (P : Z → Prop)
    `{∀ label, Decision (P label)} (x : A) :
  x ∈ labelled keywords labels P
  ↔ ∃ i label, keywords !! i = Some x ∧ labels !! i = Some label ∧ P label.
Proof.
  unfold labelled. rewrite list_elem_of_fmap. split.
  - intros ([y label] & -> & [HP Hin]%list_elem_of_filter).
    apply elem_of_lookup_zip_with in Hin as (i & y' & label' & [= -> ->] & Hy & Hlabel).
    by exists i, label'.
  - intros (i & label & Hx & Hlabel & HP). exists (x, label). split; [done|].
    apply list_elem_of_filter. split; [done|].
    apply elem_of_lookup_zip_with. by exists i, x, label.
Qed.

(** In a list without repetition, entries with different labels differ. *)
Lemma labelled_disjoint {A} (keywords : list A) (labels : list Z) (P Q : Z → Prop)
    `{∀ label, Decision (P label), ∀ label, Decision (Q label)} (x : A) :
  NoDup keywords → (∀ label, P label → Q label → False) →
  x ∈ labelled keywords labels P → x ∈ labelled keywords labels Q → False.
Proof.
  intros Hnodup Hdisjoint (i & label & Hi & Hlabel & HP)%elem_of_labelled
    (j & label' & Hj & Hlabel' & HQ)%elem_of_labelled.
  assert (i = j) as -> by by eapply NoDup_lookup.
  assert (label = label') as -> by congruence. by eapply Hdisjoint.
Qed.

Lemma labelled_subseteq {A} (keywords : list A) (labels : list Z) (P : Z → Prop)
    `{∀ label, Decision (P label)} (x : A) :
  x ∈ labelled keywords labels P → x ∈ keywords.
Proof. intros (i & label & Hi & _)%elem_of_labelled. by eapply list_elem_of_lookup_2. Qed.

End LabelFacts.

(** ** Counting in insertion order *)

Module CountFacts.
Import ClusterWorker.

Lemma count_keys {A} `{EqDecision A} (x : A) (counts : list (A * nat)) :
  (count x counts).*1 = if decide (x ∈ counts.*1) then counts.*1 else counts.*1 ++ [x].
Proof.
  induction counts as [|[y n] counts IH]; [done|]. cbn [count fmap list_fmap fst].
  destruct (decide (y = x)) as [->|Hy]; cbn [fmap list_fmap fst].
  - rewrite decide_True; [done|by left].
  - rewrite IH. destruct (decide (x ∈ counts.*1)) as [Hx|Hx].
    + rewrite decide_True; [done|by right].
    + rewrite decide_False; [done|]. by intros [?|?]%elem_of_cons.
Qed.

Lemma count_NoDup {A} `{EqDecision A} (x : A) (counts : list (A * nat)) :
  NoDup counts.*1 → NoDup (count x counts).*1.
Proof.
  intros Hnodup. rewrite count_keys. case_decide as Hx; [done|].
  apply NoDup_app. split_and!; [done| |apply NoDup_singleton].
  intros y Hy ->%list_elem_of_singleton. done.
Qed.

Lemma count_sum {A} `{EqDecision A} (x : A) (counts : list (A * nat)) :
  sum_list (count x counts).*2 = S (sum_list counts.*2).
Proof.
  induction counts as [|[y n] counts IH]; csimpl; [done|].
  case_decide; csimpl; [done|]. rewrite IH. lia.
Qed.

Lemma elem_of_count {A} `{EqDecision A} (x y : A) (n : nat) (counts : list (A * nat)) :
  NoDup counts.*1 →
  (y, n) ∈ count x counts
  ↔ (y ≠ x ∧ (y, n) ∈ counts)
    ∨ (y = x ∧ ((∃ m, (x, m) ∈ counts ∧ n = S m) ∨ ((x ∉ counts.*1) ∧ n = 1))).
Proof.
  induction counts as [|[z k] counts IH]; csimpl; intros Hnodup.
  - rewrite list_elem_of_singleton. split.
    + intros [= -> ->]. right. split; [done|]. right. split; [apply not_elem_of_nil|done].
    + intros [[_ []%elem_of_nil]|[-> [(m & []%elem_of_nil & _)|[_ ->]]]]. done.
  - apply NoDup_cons in Hnodup as [Hz Hnodup]. specialize (IH Hnodup).
    assert (∀ m, (z, m) ∈ counts → False) as Hfresh.
    { intros m Hm. apply Hz. apply list_elem_of_fmap. by exists (z, m). }
    destruct (decide (z = x)) as [->|Hzx].
    + repeat setoid_rewrite elem_of_cons. naive_solver.
    + repeat setoid_rewrite elem_of_cons. rewrite IH. naive_solver.
Qed.

(** [counts] is the histogram of the list [xs]. *)
Lemma count_histogram {A} `{EqDecision A} (x : A) (xs : list A) (counts : list (A * nat)) :
  NoDup counts.*1 →
  (∀ y n, (y, n) ∈ counts ↔ 0 < n ∧ n = length (filter (λ z, z = y) xs)) →
  ∀ y n, (y, n) ∈ count x counts
         ↔ 0 < n ∧ n = length (filter (λ z, z = y) (xs ++ [x])).
Proof.
  intros Hnodup Hcounts y n. rewrite elem_of_count by done.
  rewrite filter_app, length_app, filter_cons, filter_nil.
  assert (x ∉ counts.*1 ↔ length (filter (λ z, z = x) xs) = 0) as Hfresh.
  { split.
    - intros Hnot. destruct (length (filter (λ z, z = x) xs)) as [|m] eqn:Hm; [done|].
      destruct Hnot. apply list_elem_of_fmap. exists (x, S m). split; [done|].
      apply Hcounts. rewrite Hm. lia.
    - intros Hzero ([z m] & -> & Hin%Hcounts)%list_elem_of_fmap. simpl in *. lia. }
  destruct (decide (y = x)) as [->|Hne].
  - rewrite decide_True by done. simpl. split.
    + intros [[? _]|[_ [(m & [? ->]%Hcounts & ->)|[?%Hfresh ->]]]]; [done|lia..].
    + intros [Hn ->]. right. split; [done|].
      destruct (length (filter (λ z, z = x) xs)) as [|m] eqn:Hm.
      * right. split; [by apply Hfresh|done].
      * left. exists (S m). split; [|lia]. apply Hcounts. rewrite Hm. lia.
  - rewrite decide_False by done. simpl. rewrite Nat.add_0_r, Hcounts. naive_solver.
Qed.

Lemma length_filter_fmap {A B} (f : A → B) (P : B → Prop) `{∀ y, Decision (P y)}
    (l : list A) :
  length (filter P (f <$> l)) = length (filter (λ x, P (f x)) l).
Proof.
  induction l as [|x l IH]; [done|]. rewrite fmap_cons, !filter_cons.
  case_decide; simpl; by rewrite IH.
Qed.

End CountFacts.

(** ** The most frequent words *)

Module TopFacts.
Import AdvancedClusteringWorker ClusterWorker Vocab RunFacts CountFacts.

Lemma count_word_count word word_freq : count_word word word_freq = count word word_freq.
Proof. induction word_freq as [|[w n] rest IH]; [done|]. simpl. by rewrite IH. Qed.

Lemma insert_by_count_Permutation x l : insert_by_count x l ≡ₚ x :: l.
Proof.
  induction l as [|y l IH]; [done|]. simpl. case_decide; [done|].
  by rewrite IH, Permutation_swap.
Qed.

Lemma sorted_by_count_Permutation items : sorted_by_count items ≡ₚ items.
Proof.
  induction items as [|x items IH]; [done|]. unfold sorted_by_count in *. simpl.
  by rewrite insert_by_count_Permutation, IH.
Qed.

Lemma insert_by_count_sorted x l :
  StronglySorted (λ a b : string * nat, b.2 ≤ a.2) l →
  StronglySorted (λ a b : string * nat, b.2 ≤ a.2) (insert_by_count x l).
Proof.
  induction 1 as [|y l Hsorted IH Hy]; simpl.
  - repeat constructor.
  - case_decide as Hle.
    + constructor; [by constructor|]. constructor; [done|].
      eapply Forall_impl; [exact Hy|]. simpl. lia.
    + constructor; [done|]. rewrite insert_by_count_Permutation.
      constructor; [lia|done].
Qed.

Lemma sorted_by_count_sorted items :
  StronglySorted (λ a b : string * nat, b.2 ≤ a.2) (sorted_by_count items).
Proof.
  induction items as [|x items IH]; [constructor|]. by apply insert_by_count_sorted.
Qed.

(** The counts of the entries of [xs], in the order of their first
    occurrence. *)
Lemma counts_histogram {A} `{EqDecision A} (xs : list A) :
  let counts := foldl (λ counts x, count x counts) [] xs in
  NoDup counts.*1
  ∧ ∀ y n, (y, n) ∈ counts ↔ 0 < n ∧ n = occurrences y xs.
Proof.
  apply (foldl_prefix_inv
    (λ pre (counts : list (A * nat)),
       NoDup counts.*1 ∧ ∀ y n, (y, n) ∈ counts ↔ 0 < n ∧ n = occurrences y pre)).
  - split; [apply NoDup_nil_2|]. intros y n. split; [by intros ?%elem_of_nil|].
    unfold occurrences. simpl. lia.
  - intros pre x post counts _ [Hnodup Hcounts]. split; [by apply count_NoDup|].
    by apply count_histogram.
Qed.

Lemma occurrences_pos {A} `{EqDecision A} (x : A) (xs : list A) :
  0 < occurrences x xs ↔ x ∈ xs.
Proof.
  unfold occurrences. split.
  - intros Hpos. destruct (filter _ xs) as [|y l] eqn:Hfilter; [simpl in Hpos; lia|].
    assert (y ∈ filter (λ z, z = x) xs) as [-> ?]%list_elem_of_filter; [|done].
    rewrite Hfilter. by left.
  - intros Hx. assert (x ∈ filter (λ z, z = x) xs) as Hin by by apply list_elem_of_filter.
    destruct (filter _ xs); [by apply elem_of_nil in Hin|simpl; lia].
Qed.

(** The first [k] keys of the sorted counts are the [k] most frequent
    entries. *)
Lemma top_counts (xs : list string) (k : nat) :
  most_frequent k xs (take k (sorted_by_count (foldl (λ counts x, count x counts) [] xs))).*1.
Proof.
  destruct (counts_histogram xs) as [Hnodup Hcounts].
  set (counts := foldl (λ counts x, count x counts) [] xs) in *.
  pose proof (sorted_by_count_Permutation counts) as Hperm.
  pose proof (sorted_by_count_sorted counts) as Hsorted.
  set (sorted := sorted_by_count counts) in *.
  assert (NoDup sorted.*1) as Hnodup' by by rewrite Hperm.
  assert (∀ w n, (w, n) ∈ sorted ↔ 0 < n ∧ n = occurrences w xs) as Hsorted_counts
    by (intros w n; by rewrite Hperm).
  assert (∀ w n, (w, n) ∈ take k sorted → n = occurrences w xs) as Htake.
  { intros w n Hin%subseteq_take. by apply Hsorted_counts in Hin as [_ ->]. }
  rewrite <-(take_drop k sorted) in Hsorted, Hnodup'.
  split.
  - rewrite fmap_app in Hnodup'. by apply NoDup_app in Hnodup' as [? _].
  - rewrite length_fmap, length_take. f_equal. rewrite <-(length_fmap fst), Hperm.
    apply Permutation_length, NoDup_Permutation; [done|apply NoDup_remove_dups|].
    intros w. rewrite elem_of_remove_dups. split.
    + intros ([w' n] & -> & [? ->]%Hcounts)%list_elem_of_fmap. by apply occurrences_pos.
    + intros Hpos%occurrences_pos. apply list_elem_of_fmap.
      exists (w, occurrences w xs). split; [done|]. by apply Hcounts.
  - intros w ([w' n] & -> & Hin%subseteq_take)%list_elem_of_fmap. simpl.
    apply Hsorted_counts in Hin as [Hpos ->]. by apply occurrences_pos.
  - intros w w' ([w0 n] & -> & Hin)%list_elem_of_fmap Hw' Hnot. simpl.
    assert ((w', occurrences w' xs) ∈ take k sorted ++ drop k sorted) as Hin'.
    { rewrite take_drop. apply Hsorted_counts. split; [by apply occurrences_pos|done]. }
    apply elem_of_app in Hin' as [Hin'|Hin'].
    { destruct Hnot. apply list_elem_of_fmap. by eexists (_, _). }
    rewrite <-(Htake _ _ Hin).
    apply (StronglySorted_app_1_elem_of _ _ _ _ _ Hsorted Hin Hin').
  - apply StronglySorted_app_1_l in Hsorted. clear Hnodup'. revert Htake Hsorted.
    generalize (take k sorted). intros l.
    induction l as [|[w n] l IH]; intros Htake Hsorted; [constructor|]. csimpl.
    apply StronglySorted_inv in Hsorted as [Hl Hw]. constructor.
    + apply IH; [|done]. intros w' n' Hin. apply Htake. by right.
    + apply Forall_fmap, Forall_forall. intros [w' n'] Hin. simpl.
      rewrite Forall_forall in Hw. specialize (Hw _ Hin). simpl in Hw.
      rewrite <-(Htake w n) by by left. rewrite <-(Htake w' n') by by right. done.
Qed.

Lemma foldl_concat {A B} (f : B → A → B) (ls : list (list A)) acc :
  foldl (λ acc l, foldl f acc l) acc ls = foldl f acc (concat ls).
Proof.
  revert acc. induction ls as [|l ls IH]; intros acc; [done|]. simpl.
  by rewrite IH, foldl_app.
Qed.

Lemma foldl_filter {A B} (f : B → A → B) (P : A → Prop) `{∀ x, Decision (P x)}
    (l : list A) acc :
  foldl (λ acc x, if decide (P x) then f acc x else acc) acc l = foldl f acc (filter P l).
Proof.
  revert acc. induction l as [|x l IH]; intros acc; [done|]. simpl.
  rewrite filter_cons. case_decide; simpl; by rewrite IH.
Qed.

End TopFacts.

(** ** More on [ClusterWorker] *)

Module WorkerFacts.
Import ClusterWorker Vocab RunFacts LabelFacts HybridFacts CountFacts.

Section worker.
Context `{External}.

Lemma cluster_keywords_body_eq first keywords :
  cluster_keywords_body (first :: keywords)
  = (embeddings ← lift (batch_embeddings first keywords);
     cluster_labels ← lift (_perform_clustering embeddings);
     clusters ← _create_cluster_objects (first :: keywords) cluster_labels embeddings;
     let metadata := _calculate_cluster_metadata clusters embeddings cluster_labels in
     mret {| clusters := clusters; metadata := metadata |}).
Proof. unfold cluster_keywords_body, batch_embeddings. by destruct (negb _). Qed.

Lemma total_clusters_metadata clusters embeddings cluster_labels :
  total_clusters (_calculate_cluster_metadata clusters embeddings cluster_labels)
  = length clusters.
Proof. unfold _calculate_cluster_metadata. by case_decide. Qed.

(** In every result of [cluster_keywords], for every batch and whatever the
    libraries do, [total_clusters] is the number of clusters listed: also in
    the result for the empty batch and in the result that stands for a
    failure. *)
Theorem total_clusters_is_length (keywords : list (gmap string Val)) (h : heap) :
  ∃ result h',
    cluster_keywords keywords h = (Ok result, h')
    ∧ total_clusters (metadata result) = length (clusters result).
Proof.
  unfold cluster_keywords, try_exceptM.
  destruct (cluster_keywords_body keywords h) as [[result|e] h'] eqn:Hbody;
    [|by eexists _, _].
  exists result, h'. split; [done|]. destruct keywords as [|first keywords].
  - by apply ret_M_Ok in Hbody as [-> _].
  - rewrite cluster_keywords_body_eq in Hbody.
    apply bind_M_Ok in Hbody as (embeddings & h1 & _ & Hbody).
    apply bind_M_Ok in Hbody as (cluster_labels & h2 & _ & Hbody).
    apply bind_M_Ok in Hbody as (cs & h3 & _ & Hbody).
    apply ret_M_Ok in Hbody as [-> _]. apply total_clusters_metadata.
Qed.

(** *** Noise *)

Lemma create_cluster_objects_noise keywords cluster_labels embeddings h :
  Forall (λ label, label = (-1)%Z) cluster_labels →
  _create_cluster_objects keywords cluster_labels embeddings h = (Ok [], h).
Proof.
  intros Hnoise. unfold _create_cluster_objects.
  assert (Forall (λ label, label = (-1)%Z) (remove_dups cluster_labels)) as Hdups.
  { rewrite Forall_forall in Hnoise. apply Forall_forall.
    intros label Hin. apply Hnoise. by apply elem_of_remove_dups. }
  generalize (@nil ClusterObject). revert h.
  induction Hdups as [|label labels -> _ IH]; intros h acc; [done|].
  cbn [foldM]. rewrite decide_True by done. by erewrite bind_run by reflexivity.
Qed.

(** When HDBSCAN labels every point as noise, [cluster_keywords] returns the
    result with no clusters and zero metadata, and draws no identifier: the
    same result as for the empty batch and for a failure. *)
Theorem all_noise_is_empty_result (first : gmap string Val)
    (keywords : list (gmap string Val)) (h : heap) embeddings cluster_labels :
  batch_embeddings first keywords = Ok embeddings →
  HDBSCAN_fit_predict embeddings = Ok cluster_labels →
  Forall (λ label, label = (-1)%Z) cluster_labels →
  cluster_keywords (first :: keywords) h = (Ok empty_result, h).
Proof.
  intros Hembeddings Hlabels Hnoise. unfold cluster_keywords, try_exceptM.
  rewrite cluster_keywords_body_eq.
  erewrite bind_run by (unfold lift; by rewrite Hembeddings).
  erewrite bind_run by (unfold lift, _perform_clustering; by rewrite Hlabels).
  erewrite bind_run by by apply create_cluster_objects_noise.
  done.
Qed.

(** *** Embeddings carried by the records *)

(** Only the first record decides where the embeddings come from. When it
    carries one and some other record has none, reading that record's
    embedding raises [KeyError], and the call returns the empty result. *)
Theorem missing_embedding_is_empty_result (first kw : gmap string Val)
    (keywords : list (gmap string Val)) (h : heap) :
  truthy (default VNone (first !! "embedding")) = true →
  kw ∈ keywords → kw !! "embedding" = None →
  batch_embeddings first keywords = Raise (KeyError "embedding")
  ∧ cluster_keywords (first :: keywords) h = (Ok empty_result, h).
Proof.
  intros Hfirst Hin Hnone.
  assert (batch_embeddings first keywords = Raise (KeyError "embedding")) as Hraise.
  { unfold batch_embeddings. rewrite Hfirst. simpl negb. cbv iota.
    assert (mapM (λ kw, item kw "embedding") (first :: keywords)
            = Raise (KeyError "embedding")) as ->; [|done].
    assert (∀ l : list (gmap string Val), kw ∈ l →
              mapM (λ kw, item kw "embedding") l = Raise (KeyError "embedding")) as Hl.
    { induction l as [|x l IH]; [by intros ?%elem_of_nil|].
      intros Hx. cbn [mapM]. destruct (x !! "embedding") as [v|] eqn:Hlookup.
      - assert (item x "embedding" = Ok v) as -> by (unfold item; by rewrite Hlookup).
        simpl. apply elem_of_cons in Hx as [->|Hx]; [congruence|]. by rewrite IH.
      - assert (item x "embedding" = Raise (KeyError "embedding")) as ->
          by (unfold item; by rewrite Hlookup).
        done. }
    apply Hl. by right. }
  split; [done|]. unfold cluster_keywords, try_exceptM.
  rewrite cluster_keywords_body_eq.
  by erewrite bind_M_Raise by (unfold lift; by rewrite Hraise).
Qed.

(** *** The clusters partition the keywords that are not noise *)

Lemma create_cluster_objects_spec (kws : list (gmap string Val)) cluster_labels embeddings
    h cs h' :
  _create_cluster_objects kws cluster_labels embeddings h = (Ok cs, h') →
  ClusterWorker.keywords <$> cs
  = (λ label, labelled kws cluster_labels (λ y, y = label))
      <$> filter (λ label, label ≠ (-1)%Z) (remove_dups cluster_labels)
  ∧ Forall (λ c, ClusterWorker.keywords c ≠ []) cs.
Proof.
  unfold _create_cluster_objects.
  apply (foldM_M_prefix_inv
    (λ pre (cs : list ClusterObject) (_ : heap),
       ClusterWorker.keywords <$> cs
       = (λ label, labelled kws cluster_labels (λ y, y = label))
           <$> filter (λ label, label ≠ (-1)%Z) pre
       ∧ Forall (λ c, ClusterWorker.keywords c ≠ []) cs)); [done|].
  intros pre label post acc h1 out h2 Hsplit [Hacc Hne] Hstep. cbv beta in Hstep.
  rewrite filter_app, filter_cons, filter_nil. case_decide as Hlabel.
  - rewrite decide_False by tauto. rewrite app_nil_r.
    by apply ret_M_Ok in Hstep as [-> _].
  - rewrite decide_True by done.
    apply bind_M_Ok in Hstep as (cluster_keywords & h3 & [Hks ->]%lift_Ok & Hstep).
    apply bind_M_Ok in Hstep as (cluster_embeddings & h4 & _ & Hstep).
    apply bind_M_Ok in Hstep as (lbl & h5 & _ & Hstep).
    apply bind_M_Ok in Hstep as (ms & h6 & _ & Hstep).
    apply bind_M_Ok in Hstep as (id & h7 & _ & Hstep).
    apply ret_M_Ok in Hstep as [-> _].
    rewrite !fmap_app, Hacc. simpl. split.
    + f_equal. f_equal. by apply index_where_eq.
    + apply Forall_app. split; [done|]. apply Forall_singleton. simpl.
      apply mapM_Ok_length in Hks. intros ->.
      assert (label ∈ cluster_labels) as Hin.
      { apply elem_of_remove_dups. rewrite Hsplit. set_solver. }
      apply where_eq_nonempty in Hin. by destruct (Np.where_eq cluster_labels label).
Qed.

(** When [_create_cluster_objects] returns, its clusters partition the
    keywords whose label is not -1: together they hold each such keyword
    once, and no keyword labelled -1 (noise) or without a label; there is one
    cluster for every distinct label other than -1, and none is empty. *)
Theorem cluster_objects_partition (kws : list (gmap string Val)) cluster_labels embeddings
    h cs h' :
  _create_cluster_objects kws cluster_labels embeddings h = (Ok cs, h') →
  concat (ClusterWorker.keywords <$> cs) ≡ₚ labelled kws cluster_labels (λ y, y ≠ (-1)%Z)
  ∧ length cs = length (filter (λ label, label ≠ (-1)%Z) (remove_dups cluster_labels))
  ∧ Forall (λ c, ClusterWorker.keywords c ≠ []) cs.
Proof.
  intros [Hks Hne]%create_cluster_objects_spec. split_and!; [| |done].
  - rewrite Hks. apply labelled_non_noise; [apply NoDup_remove_dups|].
    intros label. apply elem_of_remove_dups.
  - apply (f_equal length) in Hks. by rewrite !length_fmap in Hks.
Qed.

(** *** The counts of the intents *)

(** The [intent_distribution] of a cluster is the histogram of the intents
    of its keywords, where a keyword without an intent counts as
    ['unknown']: every intent is listed once, with the number of keywords
    that have it, which is not zero; so the counts add up to
    [total_keywords], the number of keywords of the cluster. *)
Theorem intent_distribution_is_histogram (cluster_keywords : list (gmap string Val))
    (stats : ClusterStats) :
  _calculate_cluster_metrics cluster_keywords = Ok (Some stats) →
  total_keywords stats = length cluster_keywords
  ∧ NoDup (intent_distribution stats).*1
  ∧ (∀ intent n,
       (intent, n) ∈ intent_distribution stats
       ↔ 0 < n ∧ n = length (filter (λ kw, intent_of kw = intent) cluster_keywords))
  ∧ sum_list (intent_distribution stats).*2 = length cluster_keywords.
Proof.
  unfold _calculate_cluster_metrics.
  destruct cluster_keywords as [|kw rest] eqn:Hkws; [done|]. rewrite <-Hkws. clear Hkws.
  intros (vol & _ & (dif & _ & (intent_counts & Hloop & [= <-])%bind_Ok)%bind_Ok)%bind_Ok.
  simpl. split; [done|].
  apply (foldM_result_prefix_inv
    (λ pre (counts : list (Val * nat)),
       NoDup counts.*1
       ∧ (∀ y n, (y, n) ∈ counts ↔ 0 < n ∧ n = length (filter (λ z, z = y) pre))
       ∧ sum_list counts.*2 = length pre)) in Hloop.
  - destruct Hloop as (Hnodup & Hcounts & Hsum). split_and!; [done| |].
    + intros intent n. rewrite Hcounts.
      by rewrite (length_filter_fmap _ (λ z, z = intent)).
    + by rewrite Hsum, length_fmap.
  - split_and!; [apply NoDup_nil_2| |done].
    intros y n. simpl. split; [by intros ?%elem_of_nil|lia].
  - intros pre intent post counts out _ (Hnodup & Hcounts & Hsum) Hstep.
    assert (out = count intent counts) as ->.
    { destruct intent; cbv [mret result_ret] in Hstep; congruence. }
    split_and!.
    + by apply count_NoDup.
    + by apply count_histogram.
    + rewrite count_sum, length_app, Hsum. simpl. lia.
Qed.

End worker.

Lemma all_noise_is_empty_result_witness :
  @cluster_keywords all_noise [Samples.keyword "seo tools"; Samples.keyword "buy seo"]
    (Heap [] 0)
  = (Ok empty_result, Heap [] 0).
Proof.
  apply (all_noise_is_empty_result (H:=all_noise) _ _ _
           [[1%Q; 0%Q]; [1%Q; 0%Q]] [(-1)%Z; (-1)%Z]).
  - reflexivity.
  - reflexivity.
  - repeat constructor.
Defined.

Lemma missing_embedding_is_empty_result_witness :
  let first := <[ "embedding" := VList [VFloat 1; VFloat 0] ]> (Samples.keyword "seo tools") in
  @batch_embeddings Samples.uniform first [Samples.keyword "buy seo"]
  = Raise (KeyError "embedding")
  ∧ @cluster_keywords Samples.uniform [first; Samples.keyword "buy seo"] (Heap [] 0)
    = (Ok empty_result, Heap [] 0).
Proof.
  apply (missing_embedding_is_empty_result (H:=Samples.uniform) _ (Samples.keyword "buy seo")).
  - reflexivity.
  - apply (bool_decide_unpack _). by vm_compute.
  - reflexivity.
Defined.

Lemma cluster_objects_partition_witness :
  let kws := [Samples.keyword "seo tools"; Samples.keyword "seo audit";
              Samples.keyword "weather"] in
  ∃ cs,
    concat (ClusterWorker.keywords <$> cs)
    ≡ₚ [Samples.keyword "seo tools"; Samples.keyword "seo audit"]
    ∧ length cs = 1
    ∧ Forall (λ c, ClusterWorker.keywords c ≠ []) cs.
Proof.
  eexists.
  eapply (cluster_objects_partition
            [Samples.keyword "seo tools"; Samples.keyword "seo audit";
             Samples.keyword "weather"]
            [0; 0; -1]%Z [[1%Q; 0%Q]; [1%Q; 0%Q]; [0%Q; 1%Q]] (Heap [] 0)).
  vm_compute. reflexivity.
Defined.

Lemma intent_distribution_is_histogram_witness :
  let kws := [<[ "intent" := VStr "commercial" ]> (Samples.keyword "buy seo tools");
              Samples.keyword "seo";
              <[ "intent" := VStr "commercial" ]> (Samples.keyword "seo tools price")] in
  ∃ stats,
    total_keywords stats = 3
    ∧ NoDup (intent_distribution stats).*1
    ∧ (∀ intent n,
         (intent, n) ∈ intent_distribution stats
         ↔ 0 < n ∧ n = length (filter (λ kw, intent_of kw = intent) kws))
    ∧ sum_list (intent_distribution stats).*2 = 3.
Proof.
  eexists.
  apply (intent_distribution_is_histogram
           [<[ "intent" := VStr "commercial" ]> (Samples.keyword "buy seo tools");
            Samples.keyword "seo";
            <[ "intent" := VStr "commercial" ]> (Samples.keyword "seo tools price")]).
  vm_compute. reflexivity.
Defined.

End WorkerFacts.

(** ** The builder of semantic clusters *)

Module BuilderFacts.
Import AdvancedClusteringWorker Spec Vocab HeapFacts HybridFacts RunFacts LabelFacts.

(** *** Reading at a list of positions *)

Lemma mapM_index_cases {A} (l : list A) (indices : list nat) :
  (∃ xs, mapM (Np.index l) indices = Ok xs ∧ ∀ i, i ∈ indices → i < length l)
  ∨ (mapM (Np.index l) indices = Raise (IndexError "index out of range")
     ∧ ∃ i, i ∈ indices ∧ length l ≤ i).
Proof.
  induction indices as [|i indices IH].
  - left. exists []. split; [done|]. by intros i ?%elem_of_nil.
  - cbn [mapM]. destruct (l !! i) as [x|] eqn:Hi.
    + assert (Np.index l i = Ok x) as -> by (unfold Np.index; by rewrite Hi).
      apply lookup_lt_Some in Hi.
      destruct IH as [(xs & -> & Hlt)|[-> (j & Hj & Hge)]].
      * left. exists (x :: xs). split; [done|].
        intros j [->|Hj]%elem_of_cons; [done|by apply Hlt].
      * right. split; [done|]. exists j. split; [by right|done].
    + assert (Np.index l i = Raise (IndexError "index out of range")) as ->
        by (unfold Np.index; by rewrite Hi).
      right. split; [done|]. exists i. split; [by left|]. by apply lookup_ge_None.
Qed.

(** *** The label of a cluster is generated without raising or writing *)

Lemma mapM_reads {A B} (f : A → M B) (l : list A) h :
  (∀ x h, (f x h).2 = h) → (mapM f l h).2 = h.
Proof.
  intros Hf. revert h. induction l as [|x l IH]; intros h; [done|].
  cbn [mapM]. unfold mbind, M_bind at 1.
  specialize (Hf x h). destruct (f x h) as [[y|e] h1]; simpl in Hf; subst h1; [|done].
  unfold mbind, M_bind. specialize (IH h).
  by destruct (mapM f l h) as [[k|e] h1]; simpl in IH; subst h1.
Qed.

Section worker.
Context `{External}.

Lemma generate_cluster_label_returns cluster_keywords h :
  ∃ label, _generate_cluster_label cluster_keywords h = (Ok label, h).
Proof.
  unfold _generate_cluster_label, try_exceptM, mbind, M_bind at 1.
  match goal with |- context [mapM ?f cluster_keywords h] =>
    assert ((mapM f cluster_keywords h).2 = h) as Hreads
      by (apply mapM_reads; intros kw h2; by unfold mbind, M_bind, kw_get, lift);
    destruct (mapM f cluster_keywords h) as [[keywords|e] h1]
  end.
  all: simpl in Hreads; subst h1.
  - by destruct (take 3 _); eexists.
  - by eexists.
Qed.

(** *** Writing the assignment *)

Lemma field_kw_set kw key v h kw' key' :
  field (kw_set kw key v h).2 kw' key'
  = if decide (kw' = kw ∧ key' = key ∧ kw < length (kw_objects h)) then Some v
    else field h kw' key'.
Proof.
  unfold field, kw_set. simpl.
  destruct (decide (kw' = kw)) as [->|Hkw].
  - rewrite list_lookup_alter_eq. destruct (kw_objects h !! kw) as [m|] eqn:Hm; simpl.
    + apply lookup_lt_Some in Hm as Hlt. destruct (decide (key' = key)) as [->|Hkey].
      * rewrite lookup_insert_eq. by rewrite decide_True.
      * rewrite lookup_insert_ne by done. by rewrite decide_False by tauto.
    + apply lookup_ge_None in Hm. by rewrite decide_False by lia.
  - rewrite list_lookup_alter_ne by done. by rewrite decide_False by tauto.
Qed.

(** The loop [for kw in cluster_keywords] that writes the assignment. *)
Lemma assign_loop (kws : list nat) (v1 v2 : Val) h :
  ∃ h',
    for_ kws (λ kw, kw_set kw "cluster_id" v1;; kw_set kw "cluster_label" v2) h = (Ok (), h')
    ∧ uuid_supply h' = uuid_supply h
    ∧ length (kw_objects h') = length (kw_objects h)
    ∧ (∀ kw key, kw ∉ kws → field h' kw key = field h kw key)
    ∧ (∀ kw, kw ∈ kws → kw < length (kw_objects h) →
         field h' kw "cluster_id" = Some v1 ∧ field h' kw "cluster_label" = Some v2).
Proof.
  revert h. induction kws as [|kw kws IH]; intros h.
  { exists h. split_and!; [done..|]. by intros kw ?%elem_of_nil. }
  set (h0 := (kw_set kw "cluster_id" v1 h).2).
  set (h1 := (kw_set kw "cluster_label" v2 h0).2).
  destruct (IH h1) as (h' & Hloop & Hsupply & Hlen & Hout & Hin).
  assert (length (kw_objects h1) = length (kw_objects h)) as Hlen1
    by (subst h1 h0; simpl; by rewrite !length_alter).
  exists h'. split_and!.
  - cbn [for_]. by erewrite bind_run by reflexivity.
  - by rewrite Hsupply.
  - by rewrite Hlen.
  - intros kw' key [Hne Hnot]%not_elem_of_cons. rewrite Hout by done.
    subst h1 h0. rewrite !field_kw_set. by rewrite !decide_False by tauto.
  - intros kw' Hkw' Hvalid. destruct (decide (kw' ∈ kws)) as [Htail|Htail].
    { apply Hin; [done|]. by rewrite Hlen1. }
    apply elem_of_cons in Hkw' as [->|?]; [|done].
    rewrite !Hout by done. subst h1 h0. rewrite !field_kw_set. simpl.
    rewrite length_alter. split.
    + rewrite decide_False by (by intros (_ & [=] & _)). by rewrite decide_True.
    + by rewrite decide_True.
Qed.

(** *** One pass of the loop over the labels *)

Lemma writes_only_cluster_object_of keywords cluster_labels embeddings clusters label :
  writes_only semantic_keys
    (cluster_object_of keywords cluster_labels embeddings clusters label).
Proof.
  unfold cluster_object_of, semantic_keys.
  pose proof writes_only_generate_cluster_label. pose proof writes_only_keyword_texts_of.
  case_decide; writes_only; done.
Qed.

Lemma cluster_object_of_noise keywords cluster_labels embeddings clusters h :
  cluster_object_of keywords cluster_labels embeddings clusters (-1) h = (Ok clusters, h).
Proof. done. Qed.

Lemma cluster_object_of_raises keywords cluster_labels embeddings clusters label h e :
  label ≠ (-1)%Z →
  mapM (Np.index keywords) (Np.where_eq cluster_labels label) = Raise e
  ∨ mapM (Np.index embeddings) (Np.where_eq cluster_labels label) = Raise e →
  ∃ e', cluster_object_of keywords cluster_labels embeddings clusters label h = (Raise e', h)
        ∧ (e' = e ∨ mapM (Np.index keywords) (Np.where_eq cluster_labels label) = Raise e').
Proof.
  intros Hlabel Hraise. unfold cluster_object_of. rewrite decide_False by done.
  destruct (mapM (Np.index keywords) _) as [ks|e'] eqn:Hks.
  - destruct Hraise as [?|Hes]; [done|]. exists e. split; [|by left].
    erewrite bind_run by reflexivity. apply bind_M_Raise. unfold lift. by rewrite Hes.
  - exists e'. split; [|by right]. by apply bind_M_Raise.
Qed.

Lemma cluster_object_of_run keywords cluster_labels embeddings clusters label h ks es :
  label ≠ (-1)%Z →
  mapM (Np.index keywords) (Np.where_eq cluster_labels label) = Ok ks →
  mapM (Np.index embeddings) (Np.where_eq cluster_labels label) = Ok es →
  ∃ c h',
    cluster_object_of keywords cluster_labels embeddings clusters label h
    = (Ok (clusters ++ [c]), h')
    ∧ c_keyword_data c = ks ∧ c_keywords c = text_of h <$> ks ∧ c_size c = length ks
    ∧ c_centroid c = Some (Np.mean_axis0 es)
    ∧ is_Some (c_density c)
    ∧ (c_topic_id c = None ∧ c_topic_words c = None
       ∧ c_topic_distribution c = None ∧ c_sub_topics c = None)
    ∧ c_id c = "uuid-" +:+ pretty (uuid_supply h)
    ∧ uuid_supply h' = S (uuid_supply h)
    ∧ length (kw_objects h') = length (kw_objects h)
    ∧ (∀ kw key, kw ∉ ks → field h' kw key = field h kw key)
    ∧ (∀ kw, kw ∈ ks → kw < length (kw_objects h) →
         field h' kw "cluster_id" = Some (VStr (c_id c))
         ∧ field h' kw "cluster_label" = Some (VStr (c_label c))).
Proof.
  intros Hlabel Hks Hes. unfold cluster_object_of. rewrite decide_False by done.
  erewrite bind_run by (unfold lift; by rewrite Hks).
  erewrite bind_run by (unfold lift; by rewrite Hes).
  destruct (generate_cluster_label_returns ks h) as [cluster_label Hcluster_label].
  erewrite bind_run by done.
  erewrite bind_run by reflexivity.
  erewrite bind_run by apply keyword_texts_of_spec.
  destruct (assign_loop ks (VStr ("uuid-" +:+ pretty (uuid_supply h))) (VStr cluster_label)
              (Heap (kw_objects h) (S (uuid_supply h))))
    as (h' & Hloop & Hsupply & Hlen & Hout & Hin).
  erewrite bind_run by exact Hloop.
  eexists _, h'. split; [reflexivity|]. simpl. split_and!; done.
Qed.

(** The three outcomes of a pass: the label is -1 and nothing happens; the
    positions of the label are positions of both [keywords] and
    [embeddings] and a cluster is appended; or one of them is not and the
    pass raises [IndexError], before anything is written. *)
Lemma cluster_object_of_cases keywords cluster_labels embeddings clusters label h :
  (label = (-1)%Z
   ∧ cluster_object_of keywords cluster_labels embeddings clusters label h = (Ok clusters, h))
  ∨ (label ≠ (-1)%Z
     ∧ (∀ i, i ∈ Np.where_eq cluster_labels label →
             i < length keywords ∧ i < length embeddings)
     ∧ ∃ c h',
         cluster_object_of keywords cluster_labels embeddings clusters label h
         = (Ok (clusters ++ [c]), h')
         ∧ (label ∈ cluster_labels → semantic_cluster keywords cluster_labels embeddings h label c)
         ∧ c_id c = "uuid-" +:+ pretty (uuid_supply h)
         ∧ uuid_supply h' = S (uuid_supply h)
         ∧ length (kw_objects h') = length (kw_objects h)
         ∧ (∀ kw key, kw ∉ c_keyword_data c → field h' kw key = field h kw key)
         ∧ (∀ kw, kw ∈ c_keyword_data c → kw < length (kw_objects h) →
              field h' kw "cluster_id" = Some (VStr (c_id c))
              ∧ field h' kw "cluster_label" = Some (VStr (c_label c))))
  ∨ (label ≠ (-1)%Z
     ∧ (∃ i, i ∈ Np.where_eq cluster_labels label
             ∧ (length keywords ≤ i ∨ length embeddings ≤ i))
     ∧ cluster_object_of keywords cluster_labels embeddings clusters label h
       = (Raise (IndexError "index out of range"), h)).
Proof.
  destruct (decide (label = (-1)%Z)) as [->|Hlabel]; [by left|right].
  destruct (mapM_index_cases keywords (Np.where_eq cluster_labels label))
    as [(ks & Hks & Hks_lt)|[Hks (i & Hi & Hge)]];
    [destruct (mapM_index_cases embeddings (Np.where_eq cluster_labels label))
       as [(es & Hes & Hes_lt)|[Hes (i & Hi & Hge)]]|].
  - left. split; [done|]. split; [intros i Hi; split; [by apply Hks_lt|by apply Hes_lt]|].
    destruct (cluster_object_of_run keywords cluster_labels embeddings clusters label h
                ks es Hlabel Hks Hes)
      as (c & h' & Hrun & Hdata & Htexts & Hsize & Hcentroid & Hdensity & Hplain & Hid
          & Hsupply & Hlen & Hout & Hin).
    exists c, h'. rewrite Hdata. split_and!; try done.
    intros Hlabel_in. apply where_eq_nonempty in Hlabel_in.
    apply index_where_eq in Hks as Hks'. apply index_where_eq in Hes as Hes'.
    apply mapM_Ok_length in Hks. apply mapM_Ok_length in Hes.
    split; rewrite ?Hdata; try done; try congruence.
    intros ->. by destruct (Np.where_eq cluster_labels label).
  - right. split; [done|]. split; [exists i; split; [done|by right]|].
    destruct (cluster_object_of_raises keywords cluster_labels embeddings clusters label h
                _ Hlabel (or_intror Hes)) as (e' & -> & [->|?]); [done|congruence].
  - right. split; [done|]. split; [exists i; split; [done|by left]|].
    destruct (cluster_object_of_raises keywords cluster_labels embeddings clusters label h
                _ Hlabel (or_introl Hks)) as (e' & -> & [->|?]); [done|congruence].
Qed.

(** *** The loop over the labels *)

Lemma semantic_cluster_frame keywords cluster_labels embeddings h h1 label c :
  frame semantic_keys h h1 →
  semantic_cluster keywords cluster_labels embeddings h1 label c →
  semantic_cluster keywords cluster_labels embeddings h label c.
Proof.
  intros Hframe [Hdata Htexts Hsize Hmembers Hcentroid Hrows Hdensity Hplain].
  split; try done. rewrite Htexts. apply list_fmap_ext. intros _ kw _.
  eapply text_of_frame; [|done]. unfold semantic_keys.
  apply (bool_decide_unpack _). by vm_compute.
Qed.

Lemma NoDup_unique (a : list Z) : NoDup (Np.unique a).
Proof. rewrite unique_Permutation. apply NoDup_remove_dups. Qed.

Lemma uuid_inj (s : nat) : Inj (=) (=) (λ k : nat, "uuid-" +:+ pretty (s + k)).
Proof.
  intros k1 k2 Heq. simpl in Heq. injection Heq as Heq.
  change (pretty (s + k1) = pretty (s + k2)) in Heq.
  apply (inj (pretty : nat → string)) in Heq. lia.
Qed.

(** What holds when [_create_cluster_objects] returns. *)
Lemma create_cluster_objects_inv keywords cluster_labels embeddings h clusters h' :
  _create_cluster_objects keywords cluster_labels embeddings h = (Ok clusters, h') →
  Forall2 (semantic_cluster keywords cluster_labels embeddings h)
          (filter (λ label, label ≠ (-1)%Z) (Np.unique cluster_labels)) clusters
  ∧ c_id <$> clusters
    = (λ k, "uuid-" +:+ pretty (uuid_supply h + k)) <$> seq 0 (length clusters)
  ∧ uuid_supply h' = uuid_supply h + length clusters
  ∧ (∀ label i, label ≠ (-1)%Z → cluster_labels !! i = Some label →
                i < length keywords ∧ i < length embeddings)
  ∧ (NoDup keywords → Forall (λ kw, kw < length (kw_objects h)) keywords →
     (∀ c kw, c ∈ clusters → kw ∈ c_keyword_data c →
        field h' kw "cluster_id" = Some (VStr (c_id c))
        ∧ field h' kw "cluster_label" = Some (VStr (c_label c)))
     ∧ (∀ kw key, kw ∉ concat (c_keyword_data <$> clusters) →
                  field h' kw key = field h kw key)).
Proof.
  unfold _create_cluster_objects. rewrite reraise_eq. intros Hloop.
  pose proof (NoDup_unique cluster_labels) as Hnodup.
  apply (foldM_M_prefix_inv
    (λ pre cs h1,
       Forall2 (semantic_cluster keywords cluster_labels embeddings h)
               (filter (λ label, label ≠ (-1)%Z) pre) cs
       ∧ c_id <$> cs = (λ k, "uuid-" +:+ pretty (uuid_supply h + k)) <$> seq 0 (length cs)
       ∧ uuid_supply h1 = uuid_supply h + length cs
       ∧ (∀ label i, label ∈ pre → label ≠ (-1)%Z → cluster_labels !! i = Some label →
                     i < length keywords ∧ i < length embeddings)
       ∧ frame semantic_keys h h1
       ∧ (NoDup keywords → Forall (λ kw, kw < length (kw_objects h)) keywords →
          (∀ c kw, c ∈ cs → kw ∈ c_keyword_data c →
             field h1 kw "cluster_id" = Some (VStr (c_id c))
             ∧ field h1 kw "cluster_label" = Some (VStr (c_label c)))
          ∧ (∀ kw key, kw ∉ concat (c_keyword_data <$> cs) →
                       field h1 kw key = field h kw key)))) in Hloop.
  - destruct Hloop as (Hspec & Hids & Hsupply & Hrange & _ & Hassign).
    split_and!; try done.
    intros label i Hlabel Hi. apply (Hrange label i); [|done..].
    apply elem_of_unique. by eapply list_elem_of_lookup_2.
  - split_and!; try done.
    + by intros label i ?%elem_of_nil.
    + intros _ _. split; [by intros c kw ?%elem_of_nil|done].
  - clear Hloop. intros pre label post acc h1 out h2 Hsplit
      (Hspec & Hids & Hsupply & Hrange & Hframe & Hassign) Hstep.
    assert (frame semantic_keys h h2) as Hframe2.
    { eapply frame_trans; [done|].
      pose proof (writes_only_cluster_object_of keywords cluster_labels embeddings
                    acc label h1) as Hw. by rewrite Hstep in Hw. }
    assert (label ∉ pre) as Hfresh.
    { rewrite Hsplit in Hnodup. apply NoDup_app in Hnodup as (_ & Hdisjoint & _).
      intros Hin. apply (Hdisjoint label Hin). by left. }
    assert (label ∈ cluster_labels) as Hlabel_in.
    { apply elem_of_unique. rewrite Hsplit. apply elem_of_app. right. by left. }
    rewrite filter_app, filter_cons, filter_nil.
    destruct (cluster_object_of_cases keywords cluster_labels embeddings acc label h1)
      as [[-> Hrun]|[(Hlabel & Hlt & c & h3 & Hrun & Hc & Hid & Hsupply3 & Hlen & Hout & Hin)
                    |(_ & _ & Hrun)]];
      rewrite Hrun in Hstep; [| |done].
    + injection Hstep as <- <-. rewrite decide_False by (by intros []). rewrite app_nil_r.
      split_and!; try done.
      intros l i [Hl|Hl%list_elem_of_singleton]%elem_of_app; [by apply (Hrange l i)|by subst].
    + injection Hstep as <- <-. rewrite decide_True by done.
      specialize (Hc Hlabel_in). apply (semantic_cluster_frame _ _ _ h) in Hc; [|done].
      split_and!.
      * apply Forall2_app; [done|]. by apply Forall2_cons.
      * rewrite fmap_app, length_app, Hids. simpl. rewrite (seq_app (length acc) 1 0).
        rewrite fmap_app. simpl. by rewrite Hid, Hsupply.
      * rewrite length_app. simpl. lia.
      * intros l i [Hl|Hl%list_elem_of_singleton]%elem_of_app; [by apply (Hrange l i)|].
        subst l. intros _ Hi. apply Hlt. by apply elem_of_where_eq.
      * done.
      * intros Hkeywords Hvalid. destruct (Hassign Hkeywords Hvalid) as [Hold Huntouched].
        destruct Hframe as [Hlen1 _].
        assert (∀ c' kw, c' ∈ acc → kw ∈ c_keyword_data c' → kw ∉ c_keyword_data c)
          as Hdisjoint.
        { intros c' kw Hc' Hkw Hkw'.
          apply list_elem_of_lookup_1 in Hc' as [n Hn].
          destruct (Forall2_lookup_r _ _ _ _ _ Hspec Hn) as (label' & Hlabel' & Hc'').
          apply list_elem_of_lookup_2, list_elem_of_filter in Hlabel' as [_ Hlabel'].
          rewrite (sc_keyword_data _ _ _ _ _ _ Hc'') in Hkw.
          rewrite (sc_keyword_data _ _ _ _ _ _ Hc) in Hkw'.
          apply (labelled_disjoint keywords cluster_labels (λ y, y = label')
                   (λ y, y = label) kw Hkeywords); [|done..].
          intros y -> <-. done. }
        split.
        -- intros c' kw [Hc'|Hc'%list_elem_of_singleton]%elem_of_app Hkw; [|subst c'].
           ++ rewrite !Hout by by eapply Hdisjoint. by apply Hold.
           ++ apply Hin; [done|]. rewrite Hlen1.
              rewrite Forall_forall in Hvalid. apply Hvalid.
              rewrite (sc_keyword_data _ _ _ _ _ _ Hc) in Hkw.
              by eapply labelled_subseteq.
        -- intros kw key Hkw. rewrite fmap_app, concat_app in Hkw. simpl in Hkw.
           rewrite app_nil_r in Hkw. apply not_elem_of_app in Hkw as [Hkw1 Hkw2].
           rewrite Hout by done. by apply Huntouched.
Qed.

(** *** What the builder returns *)

Lemma semantic_clusters_data keywords cluster_labels embeddings h ls cs :
  Forall2 (semantic_cluster keywords cluster_labels embeddings h) ls cs →
  c_keyword_data <$> cs
  = (λ label, labelled keywords cluster_labels (λ y, y = label)) <$> ls
  ∧ sum_list (c_size <$> cs) = length (concat (c_keyword_data <$> cs)).
Proof.
  induction 1 as [|label c ls cs Hc _ [IH1 IH2]]; [done|]. csimpl. split.
  - by rewrite IH1, (sc_keyword_data _ _ _ _ _ _ Hc).
  - by rewrite length_app, IH2, (sc_size _ _ _ _ _ _ Hc).
Qed.

(** [_create_cluster_objects] returns exactly when every position with a
    label other than -1 is a position of [keywords] and of [embeddings]; and
    when it raises, it raises [IndexError]: generating the label of a cluster
    never fails. *)
Theorem create_cluster_objects_returns_iff (keywords : list nat) (cluster_labels : list Z)
    (embeddings : list (list Q)) (h : heap) :
  ((∃ clusters h',
      _create_cluster_objects keywords cluster_labels embeddings h = (Ok clusters, h'))
   ↔ ∀ i label, cluster_labels !! i = Some label → label ≠ (-1)%Z →
                i < length keywords ∧ i < length embeddings)
  ∧ ∀ e h', _create_cluster_objects keywords cluster_labels embeddings h = (Raise e, h') →
            e = IndexError "index out of range".
Proof.
  split; [split|].
  - intros (clusters & h' & (_ & _ & _ & Hrange & _)%create_cluster_objects_inv).
    intros i label Hi Hlabel. by eapply Hrange.
  - intros Hrange. unfold _create_cluster_objects.
    assert (∀ label, label ∈ Np.unique cluster_labels → label ∈ cluster_labels) as Hsub
      by (intros label; apply elem_of_unique).
    revert Hsub. generalize (Np.unique cluster_labels) (@nil Cluster). revert h.
    intros h ls. revert h. induction ls as [|label ls IH]; intros h acc Hsub.
    { exists acc, h. by rewrite reraise_eq. }
    destruct (cluster_object_of_cases keywords cluster_labels embeddings acc label h)
      as [[-> Hrun]|[(Hlabel & _ & c & h3 & Hrun & _)|(Hlabel & (i & Hi & Hge) & _)]].
    + destruct (IH h acc) as (out & h' & Hout); [intros l Hl; apply Hsub; by right|].
      exists out, h'. rewrite reraise_eq in Hout |- *. cbn [foldM].
      by erewrite bind_run by done.
    + destruct (IH h3 (acc ++ [c])) as (out & h' & Hout); [intros l Hl; apply Hsub; by right|].
      exists out, h'. rewrite reraise_eq in Hout |- *. cbn [foldM].
      by erewrite bind_run by done.
    + apply elem_of_where_eq in Hi. destruct (Hrange i label Hi Hlabel). lia.
  - intros e h'. unfold _create_cluster_objects. rewrite reraise_eq.
    intros (acc & label & h1 & _ & Hstep)%foldM_M_Raise.
    destruct (cluster_object_of_cases keywords cluster_labels embeddings acc label h1)
      as [[-> Hrun]|[(_ & _ & c & h3 & Hrun & _)|(_ & _ & Hrun)]];
      rewrite Hrun in Hstep; congruence.
Qed.

(** When the builder returns, its clusters partition the keywords whose label
    is not -1: there is one cluster for every distinct label other than -1,
    in increasing order of the labels, made of the keywords with that label,
    their texts, their number and the mean of their embeddings; the clusters
    together hold every such keyword once and no other; their sizes add up to
    the number of these keywords; and their identifiers differ. *)
Theorem semantic_clusters_partition (keywords : list nat) (cluster_labels : list Z)
    (embeddings : list (list Q)) (h : heap) (clusters : list Cluster) (h' : heap) :
  _create_cluster_objects keywords cluster_labels embeddings h = (Ok clusters, h') →
  Forall2 (semantic_cluster keywords cluster_labels embeddings h)
          (filter (λ label, label ≠ (-1)%Z) (Np.unique cluster_labels)) clusters
  ∧ concat (c_keyword_data <$> clusters)
    ≡ₚ labelled keywords cluster_labels (λ label, label ≠ (-1)%Z)
  ∧ sum_list (c_size <$> clusters)
    = length (labelled keywords cluster_labels (λ label, label ≠ (-1)%Z))
  ∧ NoDup (c_id <$> clusters).
Proof.
  intros (Hspec & Hids & _)%create_cluster_objects_inv.
  destruct (semantic_clusters_data _ _ _ _ _ _ Hspec) as [Hdata Hsizes].
  assert (concat (c_keyword_data <$> clusters)
          ≡ₚ labelled keywords cluster_labels (λ label, label ≠ (-1)%Z)) as Hpartition.
  { rewrite Hdata. apply labelled_non_noise; [apply NoDup_unique|apply elem_of_unique]. }
  split_and!; [done|done| |].
  - by rewrite <-Hpartition.
  - rewrite Hids. apply (NoDup_fmap_2 _ (Inj0:=uuid_inj (uuid_supply h))), NoDup_seq.
Qed.

(** When the builder returns for keyword records that are all different, the
    records agree with the clusters: every keyword of a cluster carries the
    identifier and the label of that cluster in [cluster_id] and
    [cluster_label], and a record that is in no cluster (noise, or not among
    the labelled keywords) is as it was. *)
Theorem cluster_assignment_consistent (keywords : list nat) (cluster_labels : list Z)
    (embeddings : list (list Q)) (h : heap) (clusters : list Cluster) (h' : heap) :
  NoDup keywords →
  Forall (λ kw, kw < length (kw_objects h)) keywords →
  _create_cluster_objects keywords cluster_labels embeddings h = (Ok clusters, h') →
  (∀ c kw, c ∈ clusters → kw ∈ c_keyword_data c →
     field h' kw "cluster_id" = Some (VStr (c_id c))
     ∧ field h' kw "cluster_label" = Some (VStr (c_label c)))
  ∧ (∀ kw key, kw ∉ concat (c_keyword_data <$> clusters) →
               field h' kw key = field h kw key).
Proof.
  intros Hnodup Hvalid (_ & _ & _ & _ & Hassign)%create_cluster_objects_inv.
  by apply Hassign.
Qed.

End worker.

Lemma semantic_clusters_partition_witness :
  ∃ clusters,
    Forall2 (semantic_cluster [0; 1; 2] [0; -1; 0]%Z [[1; 0]; [0; 1]; [1; 0]]%Q
               (Heap [Samples.keyword "seo tools"; Samples.keyword "weather";
                      Samples.keyword "seo audit"] 0))
            [0%Z] clusters
    ∧ concat (c_keyword_data <$> clusters) ≡ₚ [0; 2]
    ∧ sum_list (c_size <$> clusters) = 2
    ∧ NoDup (c_id <$> clusters).
Proof.
  eexists.
  eapply (semantic_clusters_partition (H:=Samples.uniform) [0; 1; 2] [0; -1; 0]%Z
            [[1; 0]; [0; 1]; [1; 0]]%Q
            (Heap [Samples.keyword "seo tools"; Samples.keyword "weather";
                   Samples.keyword "seo audit"] 0)).
  vm_compute. reflexivity.
Defined.

Lemma cluster_assignment_consistent_witness :
  let h := Heap [Samples.keyword "seo tools"; Samples.keyword "weather";
                 Samples.keyword "seo audit"] 0 in
  ∃ clusters h',
    (∀ c kw, c ∈ clusters → kw ∈ c_keyword_data c →
       field h' kw "cluster_id" = Some (VStr (c_id c))
       ∧ field h' kw "cluster_label" = Some (VStr (c_label c)))
    ∧ (∀ kw key, kw ∉ concat (c_keyword_data <$> clusters) →
                 field h' kw key = field h kw key).
Proof.
  eexists _, _.
  eapply (cluster_assignment_consistent (H:=Samples.uniform) [0; 1; 2] [0; -1; 0]%Z
            [[1; 0]; [0; 1]; [1; 0]]%Q
            (Heap [Samples.keyword "seo tools"; Samples.keyword "weather";
                   Samples.keyword "seo audit"] 0)).
  - apply (bool_decide_unpack _). by vm_compute.
  - apply (bool_decide_unpack _). by vm_compute.
  - vm_compute. reflexivity.
Defined.

End BuilderFacts.

(** ** The hybrid strategy keeps the semantic clusters *)

Module HybridMore.
Import AdvancedClusteringWorker Spec Vocab HeapFacts HybridFacts RunFacts LabelFacts.
Import BuilderFacts.

Section worker.
Context `{External}.

Lemma refine_step_Ok keywords refined_clusters cluster h out h' :
  refine_step keywords refined_clusters cluster h = (Ok out, h') →
  ∃ r, out = refined_clusters ++ [r] ∧ refinement_of cluster r.
Proof.
  unfold refine_step.
  erewrite bind_run by apply keywords_of_cluster_spec.
  erewrite bind_run by apply keyword_texts_of_spec.
  case_decide.
  - intros (cluster_embeddings & h1 & _ & Hrun)%bind_M_Ok.
    apply bind_M_Ok in Hrun as (topic_clusters & h2 & _ & Hrun).
    apply ret_M_Ok in Hrun as [-> _]. eexists. split; [done|].
    right. rewrite refine_cluster_with_topics_spec. by eexists.
  - intros [-> _]%ret_M_Ok. eexists. split; [done|]. by left.
Qed.

Lemma hierarchical_clustering_Ok embeddings keywords n_clusters linkage distance_threshold
    h clusters h' :
  _hierarchical_clustering embeddings keywords n_clusters linkage distance_threshold h
  = (Ok clusters, h') →
  ∃ cluster_labels,
    _create_cluster_objects keywords cluster_labels embeddings h = (Ok clusters, h').
Proof.
  unfold _hierarchical_clustering. rewrite reraise_eq.
  intros (cluster_labels & h1 & [_ ->]%lift_Ok & Hrun)%bind_M_Ok. by eexists.
Qed.

Lemma hybrid_clustering_Ok embeddings keyword_texts keywords n_clusters h
    refined_clusters h' :
  _hybrid_clustering embeddings keyword_texts keywords n_clusters h
  = (Ok refined_clusters, h') →
  ∃ semantic_clusters h1,
    _hierarchical_clustering embeddings keywords n_clusters (VStr "ward") VNone h
    = (Ok semantic_clusters, h1)
    ∧ Forall2 refinement_of semantic_clusters refined_clusters.
Proof.
  unfold _hybrid_clustering. rewrite reraise_eq.
  intros (semantic_clusters & h1 & Hsemantic & Hloop)%bind_M_Ok.
  exists semantic_clusters, h1. split; [done|].
  apply (foldM_M_prefix_inv (λ pre out _, Forall2 refinement_of pre out)) in Hloop;
    [done|done|].
  intros pre cluster post acc h2 out h3 _ Hacc (r & -> & Hr)%refine_step_Ok.
  apply Forall2_app; [done|]. by apply Forall2_cons.
Qed.

(** The hybrid strategy returns the clusters of its hierarchical step (made
    with linkage ['ward'] and no distance threshold), in the same order and
    as many: each one as it was, or with a [sub_topics] list added. It does
    not drop, add, merge or relabel a cluster. *)
Theorem hybrid_keeps_semantic_clusters (embeddings : list (list Q))
    (keyword_texts : list Val) (keywords : list nat) (n_clusters : Val)
    (h : heap) (refined_clusters : list Cluster) (h' : heap) :
  _hybrid_clustering embeddings keyword_texts keywords n_clusters h
  = (Ok refined_clusters, h') →
  ∃ semantic_clusters h1,
    _hierarchical_clustering embeddings keywords n_clusters (VStr "ward") VNone h
    = (Ok semantic_clusters, h1)
    ∧ Forall2 refinement_of semantic_clusters refined_clusters
    ∧ c_id <$> refined_clusters = c_id <$> semantic_clusters
    ∧ c_keyword_data <$> refined_clusters = c_keyword_data <$> semantic_clusters
    ∧ c_size <$> refined_clusters = c_size <$> semantic_clusters.
Proof.
  intros (semantic_clusters & h1 & Hsemantic & Hrefined)%hybrid_clustering_Ok.
  exists semantic_clusters, h1. split; [done|]. split; [done|]. clear Hsemantic.
  induction Hrefined as [|s r ss rs Hr _ (IH1 & IH2 & IH3)]; [done|].
  csimpl. rewrite IH1, IH2, IH3. by destruct Hr as [->|[subs ->]].
Qed.

(** *** The hierarchy of semantic clusters *)

Lemma semantic_cluster_has_centroid keywords cluster_labels embeddings h label c D :
  Forall (λ row, length row = D) embeddings →
  semantic_cluster keywords cluster_labels embeddings h label c → has_centroid D c.
Proof.
  intros Hrows Hc. eexists. split; [apply (sc_centroid _ _ _ _ _ _ Hc)|].
  apply HierarchyFacts.length_mean_axis0.
  - pose proof (sc_rows _ _ _ _ _ _ Hc) as Hlen. pose proof (sc_members _ _ _ _ _ _ Hc).
    intros Hnil. rewrite Hnil in Hlen. by destruct (c_keyword_data c).
  - rewrite Forall_forall in Hrows. apply Forall_forall.
    intros row Hrow%labelled_subseteq. by apply Hrows.
Qed.

Lemma refinement_has_centroid D s r : refinement_of s r → has_centroid D s → has_centroid D r.
Proof. by intros [->|[subs ->]]. Qed.

(** The clusters of the strategies [hierarchical] and [hybrid] have what the
    hierarchy builder reads: when the rows of the embedding matrix have one
    length, every cluster has a centroid of that length, and the hierarchy
    builder returns on them. *)
Theorem semantic_strategies_build_hierarchy (embeddings : list (list Q))
    (keyword_texts : list Val) (keywords : list nat)
    (n_clusters linkage distance_threshold : Val) (h : heap)
    (clusters : list Cluster) (h' : heap) (D : nat) :
  Forall (λ row, length row = D) embeddings →
  _hierarchical_clustering embeddings keywords n_clusters linkage distance_threshold h
  = (Ok clusters, h')
  ∨ _hybrid_clustering embeddings keyword_texts keywords n_clusters h = (Ok clusters, h') →
  Forall (has_centroid D) clusters
  ∧ ∃ hierarchy, _build_cluster_hierarchy clusters = Ok hierarchy.
Proof.
  intros Hrows Hrun.
  assert (∀ semantic h1 linkage distance_threshold,
            _hierarchical_clustering embeddings keywords n_clusters linkage
              distance_threshold h = (Ok semantic, h1) →
            Forall (has_centroid D) semantic) as Hsemantic.
  { intros semantic h1 l d (cluster_labels & Hcreate)%hierarchical_clustering_Ok.
    apply create_cluster_objects_inv in Hcreate as (Hspec & _).
    apply Forall_forall. intros c (i & Hi)%list_elem_of_lookup_1.
    destruct (Forall2_lookup_r _ _ _ _ _ Hspec Hi) as (label & _ & Hc).
    by eapply semantic_cluster_has_centroid. }
  assert (Forall (has_centroid D) clusters) as Hcentroids.
  { destruct Hrun as [Hrun|(semantic & h1 & Hrun & Hrefined)%hybrid_clustering_Ok].
    - by eapply Hsemantic.
    - apply Hsemantic in Hrun. clear Hsemantic.
      induction Hrefined as [|s r ss rs Hr _ IH]; [done|].
      apply Forall_cons in Hrun as [Hs Hss].
      apply Forall_cons. split; [by eapply refinement_has_centroid|by apply IH]. }
  split; [done|]. by eapply HierarchyFacts.build_cluster_hierarchy_Ok.
Qed.

End worker.

Lemma hybrid_keeps_semantic_clusters_witness :
  ∃ refined_clusters semantic_clusters h1,
    @_hierarchical_clustering Samples.uniform Samples.ten_vectors (seq 0 10) (VInt 1)
      (VStr "ward") VNone (Heap Samples.ten_keywords 0)
    = (Ok semantic_clusters, h1)
    ∧ Forall2 refinement_of semantic_clusters refined_clusters
    ∧ c_id <$> refined_clusters = c_id <$> semantic_clusters
    ∧ c_keyword_data <$> refined_clusters = c_keyword_data <$> semantic_clusters
    ∧ c_size <$> refined_clusters = c_size <$> semantic_clusters.
Proof.
  eexists.
  eapply (hybrid_keeps_semantic_clusters (H:=Samples.uniform) Samples.ten_vectors
            (replicate 10 (VStr "seo tools")) (seq 0 10) (VInt 1)
            (Heap Samples.ten_keywords 0)).
  vm_compute. reflexivity.
Defined.

Lemma semantic_strategies_build_hierarchy_witness :
  ∃ clusters,
    Forall (has_centroid 2) clusters
    ∧ ∃ hierarchy, _build_cluster_hierarchy clusters = Ok hierarchy.
Proof.
  eexists.
  eapply (semantic_strategies_build_hierarchy (H:=Samples.uniform) Samples.ten_vectors
            (replicate 10 (VStr "seo tools")) (seq 0 10) (VInt 1) (VStr "ward") VNone
            (Heap Samples.ten_keywords 0)).
  - apply (bool_decide_unpack _). by vm_compute.
  - right. vm_compute. reflexivity.
Defined.

End HybridMore.

(** ** Grouping similar clusters *)

Module GroupingFacts.
Import AdvancedClusteringWorker Spec Vocab RunFacts.

(** *** The clusters covered by the items in use *)

Lemma covered_ext {A} (members : A → list Cluster) o items (used used' : gset nat) :
  (∀ k, o ≤ k → k ∈ used ↔ k ∈ used') →
  covered members o items used = covered members o items used'.
Proof.
  revert o. induction items as [|item items IH]; intros o Hused; [done|]. simpl.
  rewrite (IH (S o)) by (intros k Hk; apply Hused; lia).
  f_equal. pose proof (Hused o ltac:(lia)). repeat case_decide; tauto.
Qed.

Lemma covered_add {A} (members : A → list Cluster) o items (used : gset nat) k item :
  items !! k = Some item → o + k ∉ used →
  covered members o items ({[o + k]} ∪ used) ≡ₚ members item ++ covered members o items used.
Proof.
  revert o k. induction items as [|x items IH]; intros o k Hk Hnot; [done|]. simpl.
  destruct k as [|k]; simpl in Hk.
  - injection Hk as ->. rewrite Nat.add_0_r in *.
    rewrite decide_True by set_solver. rewrite decide_False by done. simpl.
    f_equiv. apply reflexive_eq, covered_ext. intros j Hj. set_solver by lia.
  - replace (o + S k) with (S o + k) in * by lia.
    rewrite (IH (S o) k) by done.
    destruct (decide (o ∈ used)) as [Ho|Ho].
    + rewrite decide_True by set_solver. rewrite !(assoc_L (++)).
      f_equiv. apply Permutation_app_comm.
    + rewrite decide_False by (set_solver by lia). done.
Qed.

Lemma covered_full {A} (members : A → list Cluster) o items (used : gset nat) :
  (∀ k, k < length items → o + k ∈ used) →
  covered members o items used = concat (members <$> items).
Proof.
  revert o. induction items as [|item items IH]; intros o Hused; [done|]. csimpl.
  rewrite decide_True by (specialize (Hused 0 ltac:(simpl; lia)); by rewrite Nat.add_0_r in Hused).
  f_equal. apply IH. intros k Hk. specialize (Hused (S k) ltac:(simpl; lia)).
  by replace (S o + k) with (o + S k) by lia.
Qed.

Lemma covered_empty {A} (members : A → list Cluster) o items :
  covered members o items ∅ = [].
Proof.
  revert o. induction items as [|item items IH]; intros o; [done|]. simpl.
  by rewrite IH, decide_False by set_solver.
Qed.

Lemma elem_of_enumerate {A} (l : list A) i x : (i, x) ∈ enumerate l ↔ l !! i = Some x.
Proof.
  unfold enumerate. rewrite elem_of_lookup_imap. split.
  - by intros (j & y & [= -> ->] & Hy).
  - intros Hi. by exists i, x.
Qed.

(** *** One greedy pass *)

Section pass.
Context {A : Type} (members : A → list Cluster) (similarity_matrix : list (list Q))
  (threshold : Q) (items : list A).

(** The inner loop, for the group opened at [i]: [others] are the clusters
    of the groups closed before. *)
Lemma absorb_loop (i : nat) (others : list Cluster) l group used :
  (∀ j other, (j, other) ∈ l → items !! j = Some other) →
  group ++ others ≡ₚ covered members 0 items used →
  ∃ rest used',
    foldl (absorb members similarity_matrix threshold i) (group, used) l
    = (group ++ rest, used')
    ∧ (group ++ rest) ++ others ≡ₚ covered members 0 items used'
    ∧ used ⊆ used'
    ∧ Forall (absorbed members similarity_matrix threshold items i) rest.
Proof.
  revert group used. induction l as [|[j other] l IH]; intros group used Hl Hcovered.
  { exists [], used. by rewrite app_nil_r. }
  cbn [foldl]. unfold absorb at 2.
  assert (items !! j = Some other) as Hj by (apply Hl; by left).
  destruct (bool_decide (j ∉ used) && Np.Qgtb (Np.at2 similarity_matrix i j) threshold)
    eqn:Htest.
  - apply andb_true_iff in Htest as [Hfresh%bool_decide_eq_true Hsimilar].
    destruct (IH (group ++ members other) ({[j]} ∪ used)) as (rest & used' & -> & Hc & Hsub & Hrest).
    + intros ???. apply Hl. by right.
    + rewrite (covered_add members 0 items used j other) by done.
      rewrite <-Hcovered, !(assoc_L (++)). f_equiv. apply Permutation_app_comm.
    + exists (members other ++ rest), used'. rewrite !(assoc_L (++)).
      split_and!; [done|by rewrite <-!(assoc_L (++)) in *|set_solver|].
      apply Forall_app. split; [|done]. apply Forall_forall. intros c Hc'. by exists j, other.
  - apply IH; [|done]. intros ???. apply Hl. by right.
Qed.

Lemma merge_pass_spec :
  concat (merge_pass members similarity_matrix threshold items)
  ≡ₚ concat (members <$> items)
  ∧ Forall (seeded members similarity_matrix threshold items)
           (merge_pass members similarity_matrix threshold items).
Proof.
  unfold merge_pass.
  pose proof (foldl_prefix_inv
    (λ pre (vars : list (list Cluster) * gset nat),
       concat vars.1 ≡ₚ covered members 0 items vars.2
       ∧ (∀ p, p ∈ pre → p.1 ∈ vars.2)
       ∧ Forall (seeded members similarity_matrix threshold items) vars.1)
    (open_group members similarity_matrix threshold items)
    (enumerate items) ([], ∅)) as Hloop.
  destruct Hloop as (Hcovered & Hused & Hseeded).
  - simpl. rewrite covered_empty. split_and!; [done| |done]. by intros p ?%elem_of_nil.
  - intros pre [i item] post [groups used] Henum (Hcovered & Hused & Hseeded). simpl in *.
    assert (items !! i = Some item) as Hi.
    { apply elem_of_enumerate. rewrite Henum. apply elem_of_app. right. by left. }
    unfold open_group. case_decide as Hin.
    { split_and!; [done| |done].
      intros p [Hp|Hp%list_elem_of_singleton]%elem_of_app; [by apply Hused|by subst]. }
    destruct (absorb_loop i (concat groups) (enumerate items) (members item) ({[i]} ∪ used))
      as (rest & used' & -> & Hc & Hsub & Hrest).
    + intros j other. apply elem_of_enumerate.
    + rewrite (covered_add members 0 items used i item) by done. by rewrite Hcovered.
    + simpl. split_and!.
      * rewrite concat_app. simpl. rewrite app_nil_r, <-Hc. apply Permutation_app_comm.
      * intros p [Hp|Hp%list_elem_of_singleton]%elem_of_app; [|subst p; set_solver].
        apply Hsub. apply elem_of_union_r. by apply Hused.
      * apply Forall_app. split; [done|]. apply Forall_singleton. by exists i, item, rest.
  - split; [|done]. rewrite Hcovered. apply reflexive_eq, covered_full.
    intros k Hk. destruct (lookup_lt_is_Some_2 items k Hk) as [x Hx].
    apply (Hused (k, x)). by apply elem_of_enumerate.
Qed.

End pass.

(** *** The levels *)

Lemma concat_singletons {A} (l : list A) : concat ((λ x, [x]) <$> l) = l.
Proof. induction l as [|x l IH]; [done|]. csimpl. by rewrite IH. Qed.

Lemma seeded_nonempty {A} (members : A → list Cluster) similarity_matrix threshold
    (items : list A) group :
  Forall (λ item, members item ≠ []) items →
  seeded members similarity_matrix threshold items group → group ≠ [].
Proof.
  intros Hitems (i & seed & rest & Hi & -> & _).
  rewrite Forall_forall in Hitems. specialize (Hitems seed (list_elem_of_lookup_2 _ _ _ Hi)).
  by destruct (members seed).
Qed.

(** A level is good for [clusters] when its groups hold every cluster once
    and none is empty. *)
Lemma group_cluster_groups_partition groups next :
  _group_cluster_groups groups = Ok next →
  Forall (λ group, group ≠ []) groups →
  next = [] ∨ (concat next ≡ₚ concat groups ∧ Forall (λ group, group ≠ []) next).
Proof.
  unfold _group_cluster_groups. case_decide; [intros [= <-]; by left|].
  intros (group_centroids & _ & (X & _ & Hnext)%bind_Ok)%bind_Ok Hgroups.
  cbv [mret result_ret] in Hnext. injection Hnext as <-.
  case_decide; [|by left]. right.
  destruct (merge_pass_spec (λ group : list Cluster, group) (Np.gram X) (6 # 10)%Q groups)
    as [Hpartition Hseeded].
  split; [by rewrite Hpartition, list_fmap_id|].
  eapply Forall_impl; [exact Hseeded|]. intros group. by apply seeded_nonempty.
Qed.

Section levels.
Context (good : list (list Cluster) → Prop).
Hypothesis good_next : ∀ current next,
  good current → _group_cluster_groups current = Ok next → next ≠ [] → good next.

(** A property of a level that a pass hands on to the next level holds of
    all levels. *)
Lemma levels_loop_inv current levels out :
  levels_loop current levels = Ok out →
  Forall good levels → (current ≠ [] → good current) → Forall good out.
Proof.
  funelim (levels_loop current levels); simp levels_loop.
  - by intros [= <-].
  - intros Hout Hlevels Hcurrent. specialize (Hcurrent ltac:(done)).
    match goal with IH : ∀ out, levels_loop _ _ = Ok out → _ |- _ =>
      apply (IH out Hout) end.
    + apply Forall_app. split; [done|]. by apply Forall_singleton.
    + intros Hnext. by eapply good_next.
  - done.
Qed.

End levels.

Lemma levels_loop_partition (clusters : list Cluster) current levels out :
  levels_loop current levels = Ok out →
  Forall (λ level, concat level ≡ₚ clusters ∧ Forall (λ group, group ≠ []) level) levels →
  (current ≠ [] → concat current ≡ₚ clusters ∧ Forall (λ group, group ≠ []) current) →
  Forall (λ level, concat level ≡ₚ clusters ∧ Forall (λ group, group ≠ []) level) out.
Proof.
  apply levels_loop_inv. intros groups next [Hpartition Hnonempty] Hpass Hnext.
  destruct (group_cluster_groups_partition _ _ Hpass Hnonempty) as [?|[Hp ?]]; [done|].
  split; [by rewrite Hp|done].
Qed.

Lemma array_Ok_eq rows X : Np.array rows = Ok X → X = rows.
Proof. unfold Np.array. destruct rows; [by intros [= <-]|]. case_decide; by intros [= <-]. Qed.

Lemma at2_gram (X : list (list Q)) i j u v :
  X !! i = Some u → X !! j = Some v → Np.at2 (Np.gram X) i j = Np.dot u v.
Proof.
  intros Hi Hj. unfold Np.at2, Np.gram.
  rewrite list_lookup_fmap, Hi. simpl. by rewrite list_lookup_fmap, Hj.
Qed.

Lemma Qgtb_lt (a b : Q) : Np.Qgtb a b = true ↔ (b < a)%Q.
Proof.
  unfold Np.Qgtb. rewrite negb_true_iff, <-not_true_iff_false, Qle_bool_iff.
  split; [apply Qnot_le_lt|apply Qlt_not_le].
Qed.

(** What [_group_similar_clusters] computes before its loop. *)
Lemma group_similar_clusters_inv clusters levels :
  _group_similar_clusters clusters = Ok levels →
  ∃ centroids,
    mapM centroid_of clusters = Ok centroids
    ∧ levels_loop (merge_pass (λ cluster, [cluster]) (Np.gram centroids) (7 # 10)%Q clusters) []
      = Ok levels.
Proof.
  unfold _group_similar_clusters.
  intros (centroids & Hcentroids & (X & ->%array_Ok_eq & Hloop)%bind_Ok)%bind_Ok.
  by exists centroids.
Qed.

Lemma group_similar_clusters_partition clusters levels :
  _group_similar_clusters clusters = Ok levels →
  Forall (λ level, concat level ≡ₚ clusters ∧ Forall (λ group, group ≠ []) level) levels.
Proof.
  intros (centroids & _ & Hloop)%group_similar_clusters_inv.
  apply (levels_loop_partition clusters) in Hloop; [done|done|].
  intros _.
  destruct (merge_pass_spec (λ cluster : Cluster, [cluster]) (Np.gram centroids)
              (7 # 10)%Q clusters) as [Hpartition Hseeded].
  split; [by rewrite Hpartition, concat_singletons|].
  eapply Forall_impl; [exact Hseeded|]. intros group. apply seeded_nonempty.
  by apply Forall_forall.
Qed.

(** Every level that [_group_similar_clusters] returns is a partition of the
    clusters: its groups together hold every cluster exactly once, and no
    group is empty. Grouping never loses or repeats a cluster. *)
Theorem grouping_levels_partition (clusters : list Cluster)
    (levels : list (list (list Cluster))) :
  _group_similar_clusters clusters = Ok levels →
  Forall (λ level, concat level ≡ₚ clusters ∧ Forall (λ group, group ≠ []) level) levels.
Proof. apply group_similar_clusters_partition. Qed.

(** The groups of the first level are built greedily around a seed: a group
    is a cluster followed by clusters whose centroid has an inner product
    above 0.7 with the centroid of that first cluster. Nothing is required
    between the other members of a group. *)
Theorem first_level_groups_similar (clusters : list Cluster)
    (first : list (list Cluster)) (rest : list (list (list Cluster))) :
  _group_similar_clusters clusters = Ok (first :: rest) →
  Forall (λ group, ∃ seed others,
            group = seed :: others ∧ seed ∈ clusters
            ∧ Forall (λ c, c ∈ clusters ∧ similar (7 # 10) seed c) others)
         first.
Proof.
  intros (centroids & Hcentroids & Hloop)%group_similar_clusters_inv.
  apply HierarchyFacts.levels_loop_prefix in Hloop.
  destruct (merge_pass_spec (λ cluster : Cluster, [cluster]) (Np.gram centroids)
              (7 # 10)%Q clusters) as [_ Hseeded].
  destruct (merge_pass _ _ _ _) as [|group groups] eqn:Hpass; [done|].
  destruct Hloop as [rest' [= -> ->]].
  eapply Forall_impl; [exact Hseeded|]. intros g (i & seed & others & Hi & -> & Hothers).
  exists seed, others. split_and!; [done|by eapply list_elem_of_lookup_2|].
  eapply Forall_impl; [exact Hothers|].
  intros c (j & other & Hj & ->%list_elem_of_singleton & Hsimilar).
  split; [by eapply list_elem_of_lookup_2|].
  destruct (mapM_Ok_lookup _ _ _ _ _ Hcentroids Hi) as (u & Hu & Hiu).
  destruct (mapM_Ok_lookup _ _ _ _ _ Hcentroids Hj) as (v & Hv & Hjv).
  exists u, v. unfold centroid_of in Hu, Hv.
  destruct (c_centroid seed), (c_centroid other); try done.
  injection Hu as ->. injection Hv as ->. split_and!; [done..|].
  apply Qgtb_lt. by rewrite <-(at2_gram centroids i j).
Qed.

Lemma grouping_levels_partition_witness :
  Forall (λ level, concat level ≡ₚ Samples.two_clusters
                   ∧ Forall (λ group, group ≠ []) level)
         [[[Samples.cluster "a" [1%Q; 0%Q] [0; 1; 2]]; [Samples.cluster "b" [0%Q; 1%Q] [3; 4]]]].
Proof. apply (grouping_levels_partition Samples.two_clusters). by vm_compute. Defined.

Lemma first_level_groups_similar_witness :
  let a := Samples.cluster "a" [1%Q; 0%Q] [0] in
  let b := Samples.cluster "b" [(9 # 10)%Q; (1 # 10)%Q] [1] in
  let c := Samples.cluster "c" [0%Q; 1%Q] [2] in
  Forall (λ group, ∃ seed others,
            group = seed :: others ∧ seed ∈ [a; b; c]
            ∧ Forall (λ x, x ∈ [a; b; c] ∧ similar (7 # 10) seed x) others)
         [[a; b]; [c]].
Proof.
  apply (first_level_groups_similar
           [Samples.cluster "a" [1%Q; 0%Q] [0];
            Samples.cluster "b" [(9 # 10)%Q; (1 # 10)%Q] [1];
            Samples.cluster "c" [0%Q; 1%Q] [2]] _ []).
  by vm_compute.
Defined.

End GroupingFacts.

(** ** The nodes and the levels of the hierarchy *)

Module HierarchyMore.
Import AdvancedClusteringWorker Spec Vocab RunFacts HierarchyFacts GroupingFacts.

Lemma level_size_insert (hierarchy : gmap string HierarchyNode) key node level :
  hierarchy !! key = None →
  level_size (<[key := node]> hierarchy) level
  = (if decide (n_level node = level) then n_size node else 0) + level_size hierarchy level.
Proof. intros Hkey. unfold level_size. by rewrite map_to_list_insert. Qed.

Lemma level_size_alter (hierarchy : gmap string HierarchyNode) f key node level :
  hierarchy !! key = Some node →
  n_level (f node) = n_level node → n_size (f node) = n_size node →
  level_size (alter f key hierarchy) level = level_size hierarchy level.
Proof.
  intros Hkey Hlevel Hsize.
  rewrite <-(insert_delete_id hierarchy key node) at 1 2 by done.
  rewrite alter_insert_eq, !level_size_insert by apply lookup_delete_eq.
  by rewrite Hlevel, Hsize.
Qed.

Lemma level_size_root total level :
  level_size {[ "root" := {| n_id := "root"; n_label := "All Keywords"; n_children := [];
                             n_level := 0; n_size := total |} ]} level
  = if decide (0 = level) then total else 0.
Proof. unfold level_size. rewrite map_to_list_singleton. simpl. case_decide; lia. Qed.

(** What adding the node of a group does to the sizes of the levels and to
    the nodes other than the root. *)
Lemma add_group_node_step total hierarchy level group :
  hierarchy_inv total hierarchy →
  (∀ L, level_size (add_group_node level hierarchy group) L
        = level_size hierarchy L
          + if decide (level = L) then sum_list (c_size <$> group) else 0)
  ∧ (∀ key node,
       add_group_node level hierarchy group !! key = Some node → key ≠ "root" →
       hierarchy !! key = Some node ∨ (node_of_group node group ∧ n_level node = level)).
Proof.
  intros Hinv. pose proof (add_group_node_fresh _ _ level Hinv) as Hfresh.
  destruct Hinv as [(root & Hroot & _) _].
  unfold add_group_node. fold (node_key level (size hierarchy)).
  set (key := node_key level (size hierarchy)) in *.
  assert (key ≠ "root") as Hkey by apply node_key_not_root.
  split.
  - intros L. rewrite (level_size_alter _ _ _ root);
      [|by rewrite lookup_insert_ne|done..].
    rewrite level_size_insert by done. simpl. lia.
  - intros k node Hk Hne. rewrite lookup_alter_ne, lookup_insert in Hk by done.
    case_decide; [|by left]. injection Hk as <-. by right.
Qed.

Lemma group_submseteq_concat {A} (group : list A) (level : list (list A)) :
  group ∈ level → group ⊆+ concat level.
Proof.
  induction level as [|g level IH]; [by intros ?%elem_of_nil|].
  intros [->|Hin]%elem_of_cons; simpl.
  - by apply submseteq_inserts_r.
  - by apply submseteq_inserts_l, IH.
Qed.

Lemma sum_list_concat_sizes (level : list (list Cluster)) :
  sum_list ((λ group, sum_list (c_size <$> group)) <$> level)
  = sum_list (c_size <$> concat level).
Proof.
  induction level as [|g level IH]; [done|]. csimpl.
  by rewrite fmap_app, sum_list_with_app, IH.
Qed.

Lemma enumerate_split {A} (l : list A) pre i x post :
  enumerate l = pre ++ (i, x) :: post → i = length pre ∧ l !! i = Some x.
Proof.
  intros Hsplit.
  assert (enumerate l !! length pre = Some (i, x)) as Hi
    by (rewrite Hsplit; apply list_lookup_middle; done).
  unfold enumerate in Hi. rewrite list_lookup_imap in Hi.
  destruct (l !! length pre) as [y|] eqn:Hy; [|done]. injection Hi as <- <-. done.
Qed.

Section hierarchy.
Context (clusters : list Cluster).

Lemma add_level depth hierarchy (level : list (list Cluster)) :
  concat level ≡ₚ clusters → Forall (λ group, group ≠ []) level →
  built clusters depth hierarchy →
  built clusters (S depth) (foldl (add_group_node (depth + 1)) hierarchy level).
Proof.
  intros Hpartition Hnonempty (Hinv & Hsizes & Hnodes).
  pose proof (foldl_prefix_inv
    (λ pre h,
       hierarchy_inv (sum_list (c_size <$> clusters)) h
       ∧ (∀ L, level_size h L
               = level_size hierarchy L
                 + if decide (depth + 1 = L) then sum_list (c_size <$> concat pre) else 0)
       ∧ (∀ key node, h !! key = Some node → key ≠ "root" →
            1 ≤ n_level node ≤ S depth
            ∧ ∃ group, group ≠ [] ∧ group ⊆+ clusters ∧ node_of_group node group))
    (add_group_node (depth + 1)) level hierarchy) as Hloop.
  destruct Hloop as (Hinv' & Hsizes' & Hnodes').
  - split_and!; [done| |].
    + intros L. simpl. case_decide; lia.
    + intros key node Hkey Hne. destruct (Hnodes key node Hkey Hne) as [? ?].
      split; [lia|done].
  - intros pre group post h Hlevel (Hinv' & Hsizes' & Hnodes').
    destruct (add_group_node_step _ h (depth + 1) group Hinv') as [Hstep_sizes Hstep_nodes].
    split_and!.
    + apply add_group_node_inv; [lia|done].
    + intros L. rewrite Hstep_sizes, Hsizes', concat_app, fmap_app, sum_list_with_app. simpl.
      rewrite app_nil_r. case_decide; lia.
    + intros key node Hkey Hne.
      destruct (Hstep_nodes key node Hkey Hne) as [Hold|[Hgroup Hlvl]]; [by apply (Hnodes' key node)|].
      split; [lia|]. exists group.
      assert (group ∈ level) as Hin by (rewrite Hlevel; apply elem_of_app; right; by left).
      split_and!; [|rewrite <-Hpartition; by apply group_submseteq_concat|done].
      rewrite Forall_forall in Hnonempty. by apply Hnonempty.
  - split_and!; [done| |done].
    assert (sum_list (c_size <$> concat level) = sum_list (c_size <$> clusters)) as Htotal
      by by rewrite Hpartition.
    intros L. rewrite Hsizes', Hsizes, Htotal.
    repeat case_decide; lia.
Qed.

Lemma build_cluster_hierarchy_built hierarchy :
  _build_cluster_hierarchy clusters = Ok hierarchy →
  ∃ depth, built clusters depth hierarchy.
Proof.
  unfold _build_cluster_hierarchy.
  intros (cluster_groups & Hgroups & Hhierarchy)%bind_Ok.
  cbv [mret result_ret] in Hhierarchy. injection Hhierarchy as <-.
  apply group_similar_clusters_partition in Hgroups.
  exists (length (enumerate cluster_groups)).
  apply (foldl_prefix_inv (λ pre h, built clusters (length pre) h)).
  - split_and!.
    + apply hierarchy_inv_init.
    + intros L. rewrite level_size_root. simpl. repeat case_decide; lia.
    + intros key node [<- <-]%lookup_singleton_Some. done.
  - intros pre [i level] post h [-> Hlevel]%enumerate_split Hbuilt.
    rewrite length_app. simpl. rewrite Nat.add_1_r. 
    rewrite Forall_forall in Hgroups.
    destruct (Hgroups level (list_elem_of_lookup_2 _ _ _ Hlevel)) as [Hpartition Hnonempty].
    rewrite <-(Nat.add_1_r (length pre)) at 2. by apply add_level.
Qed.

End hierarchy.

(** The hierarchy is flat: every node other than the root stands for a
    non-empty group of the clusters given to the builder. Its children are
    the identifiers of these clusters (never the key of another node) and
    its size is the sum of their sizes, so at most the size of the root. *)
Theorem hierarchy_nodes_are_groups (clusters : list Cluster)
    (hierarchy : gmap string HierarchyNode) :
  _build_cluster_hierarchy clusters = Ok hierarchy →
  ∀ key node, hierarchy !! key = Some node → key ≠ "root" →
    ∃ group,
      group ≠ [] ∧ group ⊆+ clusters
      ∧ n_children node = c_id <$> group
      ∧ n_size node = sum_list (c_size <$> group)
      ∧ n_size node ≤ sum_list (c_size <$> clusters).
Proof.
  intros (depth & _ & _ & Hnodes)%build_cluster_hierarchy_built key node Hkey Hne.
  destruct (Hnodes key node Hkey Hne) as (_ & group & Hnonempty & Hsub & Hchildren & Hsize).
  exists group. split_and!; [done..|]. rewrite Hsize.
  apply submseteq_Permutation in Hsub as [rest ->].
  rewrite fmap_app, sum_list_with_app. lia.
Qed.

(** Every level of the hierarchy accounts for all clusters: the levels of
    the nodes other than the root are the numbers from 1 to some depth, and
    at each of these levels, as at level 0 where the root is, the sizes of
    the nodes add up to the sum of the sizes of the clusters. *)
Theorem hierarchy_levels_account_for_all (clusters : list Cluster)
    (hierarchy : gmap string HierarchyNode) :
  _build_cluster_hierarchy clusters = Ok hierarchy →
  ∃ depth,
    (∀ key node, hierarchy !! key = Some node → key ≠ "root" → 1 ≤ n_level node ≤ depth)
    ∧ (∀ level, level ≤ depth → level_size hierarchy level = sum_list (c_size <$> clusters))
    ∧ (∀ level, depth < level → level_size hierarchy level = 0).
Proof.
  intros (depth & _ & Hsizes & Hnodes)%build_cluster_hierarchy_built.
  exists depth. split_and!.
  - intros key node Hkey Hne. by destruct (Hnodes key node Hkey Hne).
  - intros level Hlevel. by rewrite Hsizes, decide_True.
  - intros level Hlevel. rewrite Hsizes, decide_False; [done|lia].
Qed.

Lemma hierarchy_nodes_are_groups_witness :
  ∃ group,
    group ≠ [] ∧ group ⊆+ Samples.two_clusters
    ∧ ["b"] = c_id <$> group
    ∧ 2 = sum_list (c_size <$> group)
    ∧ 2 ≤ sum_list (c_size <$> Samples.two_clusters).
Proof.
  apply (hierarchy_nodes_are_groups Samples.two_clusters Samples.two_clusters_hierarchy
           eq_refl "level_1_2"
           {| n_id := "level_1_2"; n_label := "Group 2"; n_children := ["b"];
              n_level := 1; n_size := 2 |}).
  - by vm_compute.
  - done.
Defined.

Lemma hierarchy_levels_account_for_all_witness :
  ∃ depth,
    (∀ key node, Samples.two_clusters_hierarchy !! key = Some node → key ≠ "root" →
                 1 ≤ n_level node ≤ depth)
    ∧ (∀ level, level ≤ depth →
                level_size Samples.two_clusters_hierarchy level
                = sum_list (c_size <$> Samples.two_clusters))
    ∧ (∀ level, depth < level → level_size Samples.two_clusters_hierarchy level = 0).
Proof.
  apply (hierarchy_levels_account_for_all Samples.two_clusters
           Samples.two_clusters_hierarchy eq_refl).
Defined.

End HierarchyMore.

(** ** The quality metrics *)

Module MetricsFacts.
Import AdvancedClusteringWorker Spec Vocab HeapFacts HybridFacts RunFacts.

Lemma member_positions_from id (l : list (nat * nat)) acc h :
  foldM (λ acc '(i, kw), v ← kw_get kw "cluster_id" VNone;
                         mret (if eq_str v id then acc ++ [i] else acc)) acc l h
  = (Ok (acc ++ (filter (λ p, eq_str (default VNone (field h p.2 "cluster_id")) id = true)
                        l).*1), h).
Proof.
  revert acc. induction l as [|[i kw] l IH]; intros acc.
  - simpl. by rewrite app_nil_r.
  - cbn [foldM]. unfold mbind at 1, M_bind at 1. unfold mbind at 1, M_bind at 1.
    cbn [kw_get mret M_ret]. rewrite IH. rewrite filter_cons. simpl.
    fold (field h kw "cluster_id").
    destruct (eq_str _ id) eqn:Heq.
    + rewrite decide_True by done. by rewrite <-app_assoc.
    + rewrite decide_False by done. done.
Qed.

Lemma member_positions_lt h cluster i :
  i ∈ member_positions h cluster → i < length (c_keyword_data cluster).
Proof.
  unfold member_positions.
  intros ([j kw] & -> & [_ Hin]%list_elem_of_filter)%list_elem_of_fmap.
  apply elem_of_lookup_imap in Hin as (k & x & [= -> ->] & Hk). by eapply lookup_lt_Some.
Qed.

Section worker.
Context `{External}.

(** The loop over the clusters reads the heap and collects. *)
Lemma collect_loop embeddings clusters collected h :
  foldM (λ '(cluster_labels, cluster_embeddings) cluster,
           let cluster_keywords := c_keyword_data cluster in
           cluster_indices ←
             foldM (λ acc '(i, kw),
                      v ← kw_get kw "cluster_id" VNone;
                      mret (if eq_str v (c_id cluster) then acc ++ [i] else acc))
                   [] (enumerate cluster_keywords);
           cluster_emb ← lift (mapM (Np.index embeddings) cluster_indices);
           mret (cluster_labels ++ replicate (length cluster_emb) (c_id cluster),
                 cluster_embeddings ++ cluster_emb))
        collected clusters h
  = (collect embeddings h collected clusters, h).
Proof.
  revert collected. induction clusters as [|cluster clusters IH]; intros [ls es]; [done|].
  unfold collect. cbn [foldM]. cbv zeta. fold (collect embeddings h).
  destruct (mapM (Np.index embeddings) (member_positions h cluster)) as [emb|e] eqn:Hemb.
  - erewrite bind_run; [apply IH|].
    erewrite bind_run by apply (member_positions_from (c_id cluster) _ []).
    simpl. fold (member_positions h cluster). unfold lift. by rewrite Hemb.
  - apply bind_M_Raise.
    erewrite bind_run by apply (member_positions_from (c_id cluster) _ []).
    simpl. fold (member_positions h cluster). apply bind_M_Raise. unfold lift. by rewrite Hemb.
Qed.

(** *** What is collected *)

Lemma collect_ext embeddings embeddings' h collected clusters :
  (∀ c i, c ∈ clusters → i ∈ member_positions h c →
          Np.index embeddings i = Np.index embeddings' i) →
  collect embeddings h collected clusters = collect embeddings' h collected clusters.
Proof.
  revert collected. induction clusters as [|cluster clusters IH]; intros [ls es] Hrows; [done|].
  unfold collect. cbn [foldM]. fold (collect embeddings h) (collect embeddings' h).
  assert (mapM (Np.index embeddings) (member_positions h cluster)
          = mapM (Np.index embeddings') (member_positions h cluster)) as ->.
  { assert (∀ i, i ∈ member_positions h cluster →
                 Np.index embeddings i = Np.index embeddings' i) as Hcluster
      by (intros i; apply Hrows; by left).
    induction (member_positions h cluster) as [|i l IHl]; [done|]. cbn [mapM].
    rewrite (Hcluster i) by by left. rewrite IHl; [done|].
    intros j Hj. apply Hcluster. by right. }
  destruct (mapM _ _) as [emb|e]; [|done]. simpl. apply IH.
  intros c i Hc. apply Hrows. by right.
Qed.

Lemma collect_spec embeddings h ls es clusters ls' es' :
  collect embeddings h (ls, es) clusters = Ok (ls', es') →
  length es' = length es + sum_list ((λ c, length (member_positions h c)) <$> clusters)
  ∧ ∀ id, id ∈ ls' → id ∈ ls ∨ id ∈ c_id <$> clusters.
Proof.
  revert ls es. induction clusters as [|cluster clusters IH]; intros ls es.
  { intros [= <- <-]. split; [simpl; lia|by left]. }
  unfold collect. cbn [foldM]. fold (collect embeddings h).
  destruct (mapM _ _) as [emb|e] eqn:Hemb; [|done]. cbn [mbind result_bind mret result_ret].
  intros [Hlen Hids]%IH. apply mapM_Ok_length in Hemb. split.
  - rewrite Hlen, length_app, Hemb, fmap_cons. cbn [sum_list_with id]. lia.
  - intros id [[Hid|Hid%elem_of_replicate]%elem_of_app|Hid]%Hids.
    + by left.
    + right. rewrite fmap_cons. destruct Hid as [-> _]. by left.
    + right. rewrite fmap_cons. by right.
Qed.

Lemma remove_dups_constant {A} `{EqDecision A} (l : list A) (a : A) :
  (∀ x, x ∈ l → x = a) → length (remove_dups l) ≤ 1.
Proof.
  intros Hl. trans (length [a]); [|done].
  apply submseteq_length, NoDup_submseteq; [apply NoDup_remove_dups|].
  intros x Hx. rewrite elem_of_remove_dups in Hx. rewrite (Hl x Hx). by left.
Qed.

(** What [_calculate_cluster_metrics] returns, from what it collects. *)
Lemma calculate_cluster_metrics_Ok embeddings clusters h m h' :
  _calculate_cluster_metrics embeddings clusters h = (Ok m, h') →
  h' = h
  ∧ ∃ cluster_labels cluster_embeddings,
      collect embeddings h ([], []) clusters = Ok (cluster_labels, cluster_embeddings)
      ∧ m_total_clusters m = length clusters
      ∧ m_total_keywords m = length cluster_embeddings
      ∧ m_cluster_sizes m = c_size <$> clusters
      ∧ m_avg_cluster_size m
        = match clusters with
          | _ :: _ => (Qnat (length cluster_embeddings) / Qnat (length clusters))%Q
          | [] => 0%Q
          end
      ∧ (length (remove_dups cluster_labels) ≤ 1 →
         m_silhouette_score m = 0%Q ∧ m_calinski_harabasz_score m = 0%Q).
Proof.
  unfold _calculate_cluster_metrics. rewrite reraise_eq.
  intros ([ls es] & h1 & Hloop & Hrest)%bind_M_Ok.
  rewrite collect_loop in Hloop. injection Hloop as Hcollect <-.
  apply bind_M_Ok in Hrest as (silhouette_avg & h2 & Hsilhouette & Hrest).
  apply bind_M_Ok in Hrest as (calinski_harabasz & h3 & Hcalinski & Hrest).
  apply ret_M_Ok in Hrest as [-> ->].
  assert (h2 = h ∧ h3 = h2) as [-> ->].
  { destruct (bool_decide _).
    - apply lift_Ok in Hsilhouette as [_ ->]. by apply lift_Ok in Hcalinski as [_ ->].
    - apply ret_M_Ok in Hsilhouette as [_ ->]. by apply ret_M_Ok in Hcalinski as [_ ->]. }
  split; [done|]. exists ls, es. split_and!; try done. simpl.
  intros Hfew. rewrite bool_decide_eq_false_2 in Hsilhouette, Hcalinski by lia.
  apply ret_M_Ok in Hsilhouette as [-> _]. by apply ret_M_Ok in Hcalinski as [-> _].
Qed.

Lemma filter_all {A} (P : A → Prop) `{∀ x, Decision (P x)} (l : list A) :
  (∀ x, x ∈ l → P x) → filter P l = l.
Proof.
  induction l as [|x l IH]; intros Hl; [done|].
  rewrite filter_cons_True by (apply Hl; by left). f_equal. apply IH.
  intros y Hy. apply Hl. by right.
Qed.

Lemma member_positions_all h cluster :
  (∀ kw, kw ∈ c_keyword_data cluster →
         field h kw "cluster_id" = Some (VStr (c_id cluster))) →
  length (member_positions h cluster) = length (c_keyword_data cluster).
Proof.
  intros Hall. unfold member_positions. rewrite length_fmap, filter_all.
  - unfold enumerate. by rewrite length_imap.
  - intros [i kw] Hin. unfold enumerate in Hin.
    apply elem_of_lookup_imap in Hin as (j & x & [= -> ->] & Hj). simpl.
    rewrite (Hall x) by by eapply list_elem_of_lookup_2. simpl.
    by apply bool_decide_eq_true.
Qed.

(** [total_keywords] counts, for every cluster, the keywords of its
    [keyword_data] whose [cluster_id] still is the identifier of the
    cluster, and [avg_cluster_size] is that number over the number of
    clusters; the keyword records are only read. When every keyword of every
    cluster carries the identifier of its cluster, [total_keywords] is the
    sum of the lengths of the [keyword_data] lists. *)
Theorem total_keywords_counts_members (embeddings : list (list Q))
    (clusters : list Cluster) (h : heap) (m : ClusterMetrics) (h' : heap) :
  _calculate_cluster_metrics embeddings clusters h = (Ok m, h') →
  h' = h
  ∧ m_total_clusters m = length clusters
  ∧ m_cluster_sizes m = c_size <$> clusters
  ∧ m_total_keywords m = sum_list ((λ c, length (member_positions h c)) <$> clusters)
  ∧ (clusters ≠ [] →
     m_avg_cluster_size m = (Qnat (m_total_keywords m) / Qnat (length clusters))%Q)
  ∧ ((∀ c kw, c ∈ clusters → kw ∈ c_keyword_data c →
              field h kw "cluster_id" = Some (VStr (c_id c))) →
     m_total_keywords m = sum_list ((λ c, length (c_keyword_data c)) <$> clusters)).
Proof.
  intros (-> & ls & es & Hcollect & Htotal & Hkeywords & Hsizes & Havg & _)%calculate_cluster_metrics_Ok.
  apply collect_spec in Hcollect as [Hlen _]. simpl in Hlen.
  split_and!; [done..| | |].
  - by rewrite Hkeywords.
  - intros Hne. rewrite Havg, Hkeywords. by destruct clusters.
  - intros Hall. rewrite Hkeywords, Hlen. f_equal. apply list_fmap_ext.
    intros i c Hc. apply member_positions_all. intros kw. apply Hall.
    by eapply list_elem_of_lookup_2.
Qed.

(** The rows that are scored for a cluster are read from the embedding
    matrix at the positions that the keywords have inside the cluster (0, 1,
    ...), not at the positions they have in the batch. So the metrics depend
    on the first rows of the matrix only: two matrices that agree on their
    first [n] rows give the same outcome when no cluster has more than [n]
    keywords. *)
Theorem metrics_read_first_rows (embeddings embeddings' : list (list Q))
    (clusters : list Cluster) (h : heap) (n : nat) :
  (∀ c, c ∈ clusters → length (c_keyword_data c) ≤ n) →
  take n embeddings = take n embeddings' →
  _calculate_cluster_metrics embeddings clusters h
  = _calculate_cluster_metrics embeddings' clusters h.
Proof.
  intros Hsizes Hrows. unfold _calculate_cluster_metrics. rewrite !reraise_eq.
  apply bind_M_ext. rewrite !collect_loop. f_equal. apply collect_ext.
  intros c i Hc Hi%member_positions_lt. specialize (Hsizes c Hc).
  unfold Np.index.
  by rewrite <-(lookup_take_lt embeddings n i), Hrows, lookup_take_lt by lia.
Qed.

End worker.

(** With at most one cluster the two scores are not computed: the outcome is
    the same in every environment, and when it is a result, both scores in it
    are 0. *)
Theorem metrics_of_at_most_one_cluster (E1 E2 : External) (embeddings : list (list Q))
    (clusters : list Cluster) (h : heap) :
  length clusters ≤ 1 →
  @_calculate_cluster_metrics E1 embeddings clusters h
  = @_calculate_cluster_metrics E2 embeddings clusters h
  ∧ ∀ m h', @_calculate_cluster_metrics E1 embeddings clusters h = (Ok m, h') →
            m_silhouette_score m = 0%Q ∧ m_calinski_harabasz_score m = 0%Q.
Proof.
  intros Hclusters.
  assert (∀ ls es, collect embeddings h ([], []) clusters = Ok (ls, es) →
                   length (remove_dups ls) ≤ 1) as Hfew.
  { intros ls es [_ Hids]%collect_spec.
    destruct clusters as [|c [|]]; [| |simpl in *; lia].
    - apply (remove_dups_constant _ ""). intros id [[]%elem_of_nil|[]%elem_of_nil]%Hids.
    - apply (remove_dups_constant _ (c_id c)).
      by intros id [[]%elem_of_nil|?%list_elem_of_singleton]%Hids. }
  split.
  - unfold _calculate_cluster_metrics. rewrite !reraise_eq.
    apply bind_M_ext_r. intros [ls es] h1. rewrite collect_loop. intros [= Hcollect <-].
    specialize (Hfew ls es Hcollect). by rewrite bool_decide_eq_false_2 by lia.
  - intros m h' (_ & ls & es & Hcollect & _ & _ & _ & _ & Hscores)%calculate_cluster_metrics_Ok.
    apply Hscores. by eapply Hfew.
Qed.

Lemma total_keywords_counts_members_witness :
  ∃ (m : ClusterMetrics) (h' : heap),
    h' = Samples.ten_heap
    ∧ m_total_clusters m = 1
    ∧ m_cluster_sizes m = [10]
    ∧ m_total_keywords m = 10
    ∧ ([Samples.ten_cluster] ≠ [] →
       m_avg_cluster_size m = (Qnat (m_total_keywords m) / Qnat 1)%Q)
    ∧ ((∀ c kw, c ∈ [Samples.ten_cluster] → kw ∈ c_keyword_data c →
                field Samples.ten_heap kw "cluster_id" = Some (VStr (c_id c))) →
       m_total_keywords m = 10).
Proof.
  eexists _, _.
  eapply (total_keywords_counts_members (H:=Samples.uniform) Samples.ten_vectors
            [Samples.ten_cluster] Samples.ten_heap).
  vm_compute. reflexivity.
Defined.

Lemma metrics_read_first_rows_witness :
  @_calculate_cluster_metrics Samples.uniform
    (replicate 10 [1%Q; 0%Q] ++ [[0%Q; 1%Q]]) [Samples.ten_cluster] Samples.ten_heap
  = @_calculate_cluster_metrics Samples.uniform
      (replicate 10 [1%Q; 0%Q] ++ [[5%Q; 5%Q]; [7%Q; 7%Q]]) [Samples.ten_cluster]
      Samples.ten_heap.
Proof.
  apply (metrics_read_first_rows (H:=Samples.uniform) _ _ _ _ 10).
  - intros c ->%list_elem_of_singleton. vm_compute. lia.
  - reflexivity.
Defined.

Lemma metrics_of_at_most_one_cluster_witness :
  @_calculate_cluster_metrics Samples.uniform Samples.ten_vectors [Samples.ten_cluster]
    Samples.ten_heap
  = @_calculate_cluster_metrics Samples.failing Samples.ten_vectors [Samples.ten_cluster]
      Samples.ten_heap
  ∧ ∀ m h', @_calculate_cluster_metrics Samples.uniform Samples.ten_vectors
              [Samples.ten_cluster] Samples.ten_heap = (Ok m, h') →
            m_silhouette_score m = 0%Q ∧ m_calinski_harabasz_score m = 0%Q.
Proof.
  apply (metrics_of_at_most_one_cluster Samples.uniform Samples.failing). simpl. lia.
Defined.

End MetricsFacts.

(** ** The labels of the clusters *)

Module ClusterLabelFacts.
Import AdvancedClusteringWorker Spec Vocab HeapFacts HybridFacts RunFacts CountFacts TopFacts.

Lemma foldl_words {B} (g : B → string → B) (keywords : list string) acc :
  foldl (λ acc keyword, foldl g acc (String.words keyword)) acc keywords
  = foldl g acc (concat (String.words <$> keywords)).
Proof.
  revert acc. induction keywords as [|keyword keywords IH]; intros acc; [done|]. csimpl.
  by rewrite IH, foldl_app.
Qed.

Lemma foldl_filter_bool {A B} (f : B → A → B) (b : A → bool) (P : A → Prop)
    `{∀ x, Decision (P x)} (l : list A) acc :
  (∀ x, b x = bool_decide (P x)) →
  foldl (λ acc x, if b x then f acc x else acc) acc l = foldl f acc (filter P l).
Proof.
  intros Hb. revert acc. induction l as [|x l IH]; intros acc; [done|]. simpl.
  rewrite filter_cons, Hb. destruct (decide (P x)).
  - rewrite bool_decide_eq_true_2 by done. simpl. by rewrite IH.
  - rewrite bool_decide_eq_false_2 by done. by rewrite IH.
Qed.

Lemma foldl_ext_all {A B} (f g : B → A → B) (l : list A) acc :
  (∀ acc x, f acc x = g acc x) → foldl f acc l = foldl g acc l.
Proof.
  intros Hfg. revert acc. induction l as [|x l IH]; intros acc; [done|]. simpl.
  by rewrite Hfg, IH.
Qed.

(** The words that [AdvancedClusteringWorker._generate_cluster_label] counts:
    the words of the lower-cased texts that have more than three
    characters. *)
Lemma word_freq_spec (keywords : list string) :
  foldl (λ word_freq keyword,
           foldl (λ word_freq word,
                    if decide (3 < String.length word) then count_word word word_freq
                    else word_freq)
                 word_freq (String.words keyword))
        [] keywords
  = foldl (λ counts x, ClusterWorker.count x counts) []
          (filter (λ word, 3 < String.length word) (concat (String.words <$> keywords))).
Proof.
  rewrite foldl_words.
  rewrite (foldl_filter (λ word_freq word, count_word word word_freq)).
  apply foldl_ext_all. intros acc x. apply count_word_count.
Qed.

Lemma lower_text kw h :
  (v ← kw_get kw "keyword" (VStr ""); lift (Str.val_lower v)) h
  = (Str.val_lower (text_of h kw), h).
Proof. done. Qed.

Lemma lowered_texts keywords (texts : list string) h :
  text_of h <$> keywords = VStr <$> texts →
  mapM (λ kw, v ← kw_get kw "keyword" (VStr ""); lift (Str.val_lower v)) keywords h
  = (Ok (Str.lower <$> texts), h).
Proof.
  revert texts. induction keywords as [|kw keywords IH]; intros [|text texts] Htexts;
    try done.
  injection Htexts as Htext Htexts. cbn [mapM].
  erewrite bind_run by (rewrite lower_text, Htext; reflexivity).
  by erewrite bind_run by by apply IH.
Qed.

Lemma not_lowered_texts keywords h :
  (∃ kw, kw ∈ keywords ∧ ∀ text, text_of h kw ≠ VStr text) →
  ∃ e, mapM (λ kw, v ← kw_get kw "keyword" (VStr ""); lift (Str.val_lower v)) keywords h
       = (Raise e, h).
Proof.
  intros (kw & Hin & Hkw). induction keywords as [|kw' keywords IH]; [by apply elem_of_nil in Hin|].
  cbn [mapM].
  destruct (Str.val_lower (text_of h kw')) as [s|e] eqn:Hlower.
  - apply elem_of_cons in Hin as [->|Hin].
    { destruct (text_of h kw') eqn:Htext; try done. by destruct (Hkw s0). }
    destruct (IH Hin) as [e He]. exists e.
    erewrite bind_run by (rewrite lower_text, Hlower; reflexivity).
    by apply bind_M_Raise.
  - exists e. apply bind_M_Raise. by rewrite lower_text, Hlower.
Qed.

Section worker.
Context `{External}.


End worker.


(** *** The label of [ClusterWorker] *)

Section cluster_worker.
Import ClusterWorker.

Lemma word_counts_spec (keywords : list string) :
  foldl (λ word_counts keyword,
           foldl (λ word_counts word,
                    if bool_decide (word ∉ stop_words) && bool_decide (2 < String.length word)
                    then count word word_counts else word_counts)
                 word_counts (String.words keyword))
        [] keywords
  = foldl (λ counts x, count x counts) []
          (filter (λ word, (word ∉ stop_words) ∧ 2 < String.length word)
                  (concat (String.words <$> keywords))).
Proof.
  rewrite foldl_words.
  apply (foldl_filter_bool (λ word_counts word, count word word_counts)).
  intros word. do 2 case_bool_decide; simpl.
  - by rewrite bool_decide_eq_true_2.
  - rewrite bool_decide_eq_false_2; [done|tauto].
  - rewrite bool_decide_eq_false_2; [done|tauto].
  - rewrite bool_decide_eq_false_2; [done|tauto].
Qed.

Lemma lowered_keyword_texts (cluster_keywords : list (gmap string Val)) (texts : list string) :
  Forall2 (λ kw text, kw !! "keyword" = Some (VStr text)) cluster_keywords texts →
  mapM (λ kw, v ← item kw "keyword"; Str.val_lower v) cluster_keywords
  = Ok (Str.lower <$> texts).
Proof.
  induction 1 as [|kw text kws texts Hkw _ IH]; [done|].
  assert (item kw "keyword" = Ok (VStr text)) as Hitem by (unfold item; by rewrite Hkw).
  cbn [mapM]. rewrite Hitem. cbn [mbind result_bind Str.val_lower]. by rewrite IH.
Qed.


End cluster_worker.


End ClusterLabelFacts.

(** ** The hybrid strategy moves keywords to their sub-topics *)

Module HybridIds.
Import AdvancedClusteringWorker Spec Vocab HeapFacts HybridFacts RunFacts LabelFacts.
Import BuilderFacts HybridMore MetricsFacts.

Lemma mapM_result_length {A B} (f : A → result B) (l : list A) (out : list B) :
  mapM f l = Ok out → length out = length l.
Proof.
  revert out. induction l as [|x l IH]; intros out; [by intros [= <-]|].
  cbn [mapM]. destruct (f x) as [y|e]; [|done]. cbn [mbind result_bind].
  destruct (mapM f l) as [ys|e]; [|done]. cbn [mbind result_bind].
  intros Hout. cbv [mret result_ret] in Hout. injection Hout as <-.
  simpl. by rewrite (IH ys).
Qed.

(** The loop [for kw in cluster_keywords] of the topic clusters. *)
Lemma topic_assign_loop (kws : list nat) (v1 v2 v3 : Val) h :
  ∃ h',
    for_ kws (λ kw, kw_set kw "cluster_id" v1;; kw_set kw "cluster_label" v2;;
                    kw_set kw "topic_id" v3) h = (Ok (), h')
    ∧ uuid_supply h' = uuid_supply h
    ∧ length (kw_objects h') = length (kw_objects h)
    ∧ (∀ kw key, kw ∉ kws → field h' kw key = field h kw key)
    ∧ (∀ kw, kw ∈ kws → kw < length (kw_objects h) → field h' kw "cluster_id" = Some v1).
Proof.
  revert h. induction kws as [|kw kws IH]; intros h.
  { exists h. split_and!; [done..|]. by intros kw ?%elem_of_nil. }
  set (h0 := (kw_set kw "cluster_id" v1 h).2).
  set (h1 := (kw_set kw "cluster_label" v2 h0).2).
  set (h2 := (kw_set kw "topic_id" v3 h1).2).
  destruct (IH h2) as (h' & Hloop & Hsupply & Hlen & Hout & Hin).
  assert (length (kw_objects h2) = length (kw_objects h)) as Hlen2
    by (subst h2 h1 h0; simpl; by rewrite !length_alter).
  exists h'. split_and!.
  - cbn [for_]. erewrite bind_run by reflexivity. exact Hloop.
  - by rewrite Hsupply.
  - by rewrite Hlen.
  - intros kw' key [Hne Hnot]%not_elem_of_cons. rewrite Hout by done.
    subst h2 h1 h0. rewrite !field_kw_set. by rewrite !decide_False by tauto.
  - intros kw' Hkw' Hvalid. destruct (decide (kw' ∈ kws)) as [Htail|Htail].
    { apply Hin; [done|]. by rewrite Hlen2. }
    apply elem_of_cons in Hkw' as [->|?]; [|done].
    rewrite !Hout by done. subst h2 h1 h0. rewrite !field_kw_set. simpl.
    rewrite !length_alter.
    rewrite decide_False by (by intros (_ & [=] & _)).
    rewrite decide_False by (by intros (_ & [=] & _)).
    by rewrite decide_True.
Qed.

Section worker.
Context `{External}.

(** *** One topic cluster *)

Lemma topic_cluster_of_inv keywords cluster_labels topic_model clusters label h out h' :
  topic_cluster_of keywords cluster_labels topic_model clusters label h = (Ok out, h') →
  ∃ c,
    out = clusters ++ [c]
    ∧ c_keyword_data c = labelled keywords cluster_labels (λ y, y = label)
    ∧ c_id c = "uuid-" +:+ pretty (uuid_supply h)
    ∧ uuid_supply h' = S (uuid_supply h)
    ∧ length (kw_objects h') = length (kw_objects h)
    ∧ (∀ kw key, kw ∉ c_keyword_data c → field h' kw key = field h kw key)
    ∧ (∀ kw, kw ∈ c_keyword_data c → kw < length (kw_objects h) →
         field h' kw "cluster_id" = Some (VStr (c_id c))).
Proof.
  unfold topic_cluster_of.
  intros (ks & h1 & [Hks ->]%lift_Ok & Hrun)%bind_M_Ok.
  apply bind_M_Ok in Hrun as (rows & h2 & [_ ->]%lift_Ok & Hrun).
  apply bind_M_Ok in Hrun as (top_words & h3 & [_ ->]%lift_Ok & Hrun).
  erewrite bind_run in Hrun by reflexivity.
  erewrite bind_run in Hrun by apply keyword_texts_of_spec.
  match type of Hrun with context [for_ ks (λ kw, kw_set kw _ ?v1;; kw_set kw _ ?v2;; kw_set kw _ ?v3)] =>
    destruct (topic_assign_loop ks v1 v2 v3 (Heap (kw_objects h) (S (uuid_supply h))))
      as (h4 & Hloop & Hsupply & Hlen & Hout & Hin)
  end.
  erewrite bind_run in Hrun by exact Hloop.
  apply ret_M_Ok in Hrun as [-> ->].
  apply index_where_eq in Hks as ->.
  eexists. split; [done|]. simpl. split_and!; done.
Qed.

(** *** The topic clusters of a list of keywords *)

Lemma create_topic_clusters_inv keywords cluster_labels topic_model h clusters h' :
  _create_topic_clusters keywords cluster_labels topic_model h = (Ok clusters, h') →
  c_id <$> clusters
  = (λ k, "uuid-" +:+ pretty (uuid_supply h + k)) <$> seq 0 (length clusters)
  ∧ uuid_supply h' = uuid_supply h + length clusters
  ∧ length (kw_objects h') = length (kw_objects h)
  ∧ (∀ kw key, kw ∉ keywords → field h' kw key = field h kw key)
  ∧ (∀ i kw label, keywords !! i = Some kw → cluster_labels !! i = Some label →
       kw < length (kw_objects h) →
       ∃ c, c ∈ clusters ∧ field h' kw "cluster_id" = Some (VStr (c_id c))).
Proof.
  unfold _create_topic_clusters. rewrite reraise_eq. intros Hloop.
  apply (foldM_M_prefix_inv
    (λ pre cs h1,
       c_id <$> cs = (λ k, "uuid-" +:+ pretty (uuid_supply h + k)) <$> seq 0 (length cs)
       ∧ uuid_supply h1 = uuid_supply h + length cs
       ∧ length (kw_objects h1) = length (kw_objects h)
       ∧ (∀ kw key, kw ∉ keywords → field h1 kw key = field h kw key)
       ∧ (∀ i kw label, keywords !! i = Some kw → cluster_labels !! i = Some label →
            label ∈ pre → kw < length (kw_objects h) →
            ∃ c, c ∈ cs ∧ field h1 kw "cluster_id" = Some (VStr (c_id c))))) in Hloop.
  - destruct Hloop as (Hids & Hsupply & Hlen & Hout & Hin). split_and!; try done.
    intros i kw label Hkw Hlabel. apply (Hin i kw label); [done..|].
    apply elem_of_unique. by eapply list_elem_of_lookup_2.
  - split_and!; try done; try (simpl; lia). by intros i kw label _ _ ?%elem_of_nil.
  - clear Hloop. intros pre label post acc h1 out h2 _
      (Hids & Hsupply & Hlen & Hout & Hin)
      (c & -> & Hdata & Hid & Hsupply2 & Hlen2 & Hout2 & Hin2)%topic_cluster_of_inv.
    split_and!.
    + rewrite fmap_app, length_app, Hids. simpl. rewrite (seq_app (length acc) 1 0).
      rewrite fmap_app. simpl. by rewrite Hid, Hsupply.
    + rewrite length_app. simpl. lia.
    + by rewrite Hlen2.
    + intros kw key Hkw. rewrite Hout2; [by apply Hout|].
      rewrite Hdata. by intros ?%labelled_subseteq.
    + intros i kw l Hkw Hl Hpre Hvalid.
      destruct (decide (kw ∈ c_keyword_data c)) as [Hc|Hc].
      { exists c. split; [apply elem_of_app; right; by left|].
        apply Hin2; [done|]. by rewrite Hlen. }
      rewrite Hout2 by done.
      apply elem_of_app in Hpre as [Hpre|Hpre%list_elem_of_singleton].
      * destruct (Hin i kw l) as (c' & Hc' & Hfield); [done..|].
        exists c'. split; [|done]. apply elem_of_app. by left.
      * subst l. destruct Hc. rewrite Hdata. apply elem_of_labelled. by exists i, label.
Qed.

Lemma topic_modeling_clustering_inv keyword_texts keywords n_topics h clusters h' :
  one_row_per_text →
  length keyword_texts = length keywords →
  _topic_modeling_clustering keyword_texts keywords n_topics (VStr "lda") h
  = (Ok clusters, h') →
  c_id <$> clusters
  = (λ k, "uuid-" +:+ pretty (uuid_supply h + k)) <$> seq 0 (length clusters)
  ∧ uuid_supply h' = uuid_supply h + length clusters
  ∧ length (kw_objects h') = length (kw_objects h)
  ∧ (∀ kw key, kw ∉ keywords → field h' kw key = field h kw key)
  ∧ (∀ kw, kw ∈ keywords → kw < length (kw_objects h) →
       ∃ c, c ∈ clusters ∧ field h' kw "cluster_id" = Some (VStr (c_id c))).
Proof.
  intros Hrows Htexts. unfold _topic_modeling_clustering. rewrite reraise_eq.
  intros (fit & h1 & [Hfit ->]%lift_Ok & Hrun)%bind_M_Ok.
  apply bind_M_Ok in Hrun as (labels & h2 & [Hlabels ->]%lift_Ok & Hrun).
  apply Hrows in Hfit. apply mapM_result_length in Hlabels.
  apply create_topic_clusters_inv in Hrun as (Hids & Hsupply & Hlen & Hout & Hin).
  split_and!; try done.
  intros kw (i & Hi)%list_elem_of_lookup_1 Hvalid.
  destruct (lookup_lt_is_Some_2 (Z.of_nat <$> labels) i) as [label Hlabel].
  { rewrite length_fmap, Hlabels, Hfit, Htexts. by eapply lookup_lt_Some. }
  by apply (Hin i kw label).
Qed.

(** *** One pass of the refiner *)

Lemma elem_of_members_of h keywords id kw :
  kw ∈ members_of h keywords id
  ↔ kw ∈ keywords ∧ field h kw "cluster_id" = Some (VStr id).
Proof.
  unfold members_of. rewrite list_elem_of_filter.
  destruct (field h kw "cluster_id") as [[]|]; simpl;
    try (split; [by intros [[=] _]|by intros [_ [=]]]).
  rewrite bool_decide_eq_true. split; [by intros [-> ?]|by intros [? [= ->]]].
Qed.

Lemma field_valid h kw key v : field h kw key = Some v → kw < length (kw_objects h).
Proof.
  unfold field. destruct (kw_objects h !! kw) eqn:Hkw; [|done].
  intros _. by eapply lookup_lt_Some.
Qed.

Lemma refine_step_moves keywords refined_clusters cluster h out h' :
  one_row_per_text →
  refine_step keywords refined_clusters cluster h = (Ok out, h') →
  (out = refined_clusters ++ [cluster] ∧ h' = h
   ∧ length (members_of h keywords (c_id cluster)) ≤ 5)
  ∨ (∃ topic_clusters,
       out = refined_clusters ++ [set_sub_topics cluster (sub_topic_of <$> topic_clusters)]
       ∧ 5 < length (members_of h keywords (c_id cluster))
       ∧ c_id <$> topic_clusters
         = (λ k, "uuid-" +:+ pretty (uuid_supply h + k)) <$> seq 0 (length topic_clusters)
       ∧ uuid_supply h' = uuid_supply h + length topic_clusters
       ∧ (∀ kw key, kw ∉ members_of h keywords (c_id cluster) →
                    field h' kw key = field h kw key)
       ∧ (∀ kw, kw ∈ members_of h keywords (c_id cluster) →
            ∃ c, c ∈ topic_clusters ∧ field h' kw "cluster_id" = Some (VStr (c_id c)))).
Proof.
  intros Hrows. unfold refine_step.
  erewrite bind_run by apply keywords_of_cluster_spec.
  erewrite bind_run by apply keyword_texts_of_spec.
  rewrite length_fmap.
  case_decide; [|intros [-> ->]%ret_M_Ok; left; split_and!; [done..|lia]].
  intros (cluster_embeddings & h1 & Hemb & Hrun)%bind_M_Ok.
  unfold _generate_embeddings in Hemb. rewrite reraise_eq in Hemb.
  apply lift_Ok in Hemb as [_ ->].
  apply bind_M_Ok in Hrun as (topic_clusters & h2 & Htopic & Hrun).
  apply ret_M_Ok in Hrun as [-> ->].
  apply topic_modeling_clustering_inv in Htopic
    as (Hids & Hsupply & Hlen & Hout & Hin); [|done|by rewrite length_fmap].
  right. exists topic_clusters. rewrite refine_cluster_with_topics_spec.
  split_and!; try done.
  intros kw Hkw. apply Hin; [done|].
  apply elem_of_members_of in Hkw as [_ Hfield]. by eapply field_valid.
Qed.

(** *** The semantic clusters own their keywords *)

Lemma labelled_NoDup {A} (keywords : list A) (labels : list Z) (P : Z → Prop)
    `{∀ label, Decision (P label)} :
  NoDup keywords → NoDup (labelled keywords labels P).
Proof.
  intros Hnodup. revert labels.
  induction Hnodup as [|k keywords Hk Hnodup IH]; intros [|label labels]; try constructor.
  unfold labelled. simpl. rewrite filter_cons. simpl. case_decide.
  - rewrite fmap_cons. constructor; [|apply IH].
    intros Hin. apply Hk. by eapply (labelled_subseteq keywords labels P).
  - apply IH.
Qed.

Lemma uuid_eq (k1 k2 : nat) : "uuid-" +:+ pretty k1 = "uuid-" +:+ pretty k2 → k1 = k2.
Proof.
  intros Heq. apply (uuid_inj 0 k1 k2). exact Heq.
Qed.

Lemma uuid_field_eq (k1 k2 : nat) :
  Some (VStr ("uuid-" +:+ pretty k1)) = Some (VStr ("uuid-" +:+ pretty k2)) → k1 = k2.
Proof. intros Heq. apply uuid_eq. congruence. Qed.

Lemma semantic_clusters_own keywords cluster_labels embeddings h clusters h1 :
  NoDup keywords →
  Forall (λ kw, kw < length (kw_objects h)) keywords →
  fresh_ids h →
  _create_cluster_objects keywords cluster_labels embeddings h = (Ok clusters, h1) →
  Forall (λ c, c_sub_topics c = None ∧ NoDup (c_keyword_data c)) clusters
  ∧ (∀ i c, clusters !! i = Some c → c_id c = "uuid-" +:+ pretty (uuid_supply h + i))
  ∧ uuid_supply h1 = uuid_supply h + length clusters
  ∧ (∀ i j c c' kw, clusters !! i = Some c → clusters !! j = Some c' →
       kw ∈ c_keyword_data c → kw ∈ c_keyword_data c' → i = j)
  ∧ (∀ c kw, c ∈ clusters → kw ∈ c_keyword_data c →
       kw ∈ keywords ∧ field h1 kw "cluster_id" = Some (VStr (c_id c)))
  ∧ (∀ kw k, kw ∉ concat (c_keyword_data <$> clusters) → uuid_supply h ≤ k →
       field h1 kw "cluster_id" ≠ Some (VStr ("uuid-" +:+ pretty k))).
Proof.
  intros Hnodup Hvalid Hfresh
    (Hspec & Hids & Hsupply & _ & Hassign)%create_cluster_objects_inv.
  destruct (Hassign Hnodup Hvalid) as [Hin Hout]. clear Hassign.
  assert (NoDup (filter (λ label, label ≠ (-1)%Z) (Np.unique cluster_labels))) as Hls
    by apply NoDup_filter, NoDup_unique.
  split_and!.
  - apply Forall_forall. intros c (i & Hc)%list_elem_of_lookup_1.
    destruct (Forall2_lookup_r _ _ _ _ _ Hspec Hc) as (label & _ & Hsem).
    split; [apply (sc_plain _ _ _ _ _ _ Hsem)|].
    rewrite (sc_keyword_data _ _ _ _ _ _ Hsem). by apply labelled_NoDup.
  - intros i c Hc.
    assert ((c_id <$> clusters) !! i = Some (c_id c)) as Hi by (by rewrite list_lookup_fmap, Hc).
    rewrite Hids, list_lookup_fmap in Hi.
    rewrite lookup_seq_lt in Hi by (by eapply lookup_lt_Some). by injection Hi as <-.
  - done.
  - intros i j c c' kw Hc Hc' Hkw Hkw'.
    destruct (Forall2_lookup_r _ _ _ _ _ Hspec Hc) as (label & Hlabel & Hsem).
    destruct (Forall2_lookup_r _ _ _ _ _ Hspec Hc') as (label' & Hlabel' & Hsem').
    rewrite (sc_keyword_data _ _ _ _ _ _ Hsem) in Hkw.
    rewrite (sc_keyword_data _ _ _ _ _ _ Hsem') in Hkw'.
    destruct (decide (label = label')) as [->|Hne]; [by eapply NoDup_lookup|].
    destruct (labelled_disjoint keywords cluster_labels (λ y, y = label)
                (λ y, y = label') kw Hnodup); [|done..].
    intros y -> <-. done.
  - intros c kw Hc Hkw. split; [|by apply Hin].
    apply list_elem_of_lookup_1 in Hc as [i Hc].
    destruct (Forall2_lookup_r _ _ _ _ _ Hspec Hc) as (label & _ & Hsem).
    rewrite (sc_keyword_data _ _ _ _ _ _ Hsem) in Hkw. by eapply labelled_subseteq.
  - intros kw k Hkw Hk. rewrite Hout by done. by apply Hfresh.
Qed.

Lemma elem_of_keyword_data (clusters : list Cluster) (kw : nat) :
  kw ∈ concat (c_keyword_data <$> clusters)
  ↔ ∃ i c, clusters !! i = Some c ∧ kw ∈ c_keyword_data c.
Proof.
  induction clusters as [|c clusters IH]; simpl.
  - split; [by intros ?%elem_of_nil|by intros (i & c & [=] & _)].
  - rewrite elem_of_app, IH. split.
    + intros [Hc|(i & c' & Hi & Hc')]; [by exists 0, c|by exists (S i), c'].
    + intros ([|i] & c' & Hi & Hc'); [left; by injection Hi as ->|right; by exists i, c'].
Qed.

(** *** The loop of the refiner *)

Lemma hybrid_clustering_moves (embeddings : list (list Q))
    (keyword_texts : list Val) (keywords : list nat) (n_clusters : Val)
    (h : heap) (refined_clusters : list Cluster) (h' : heap) :
  NoDup keywords →
  Forall (λ kw, kw < length (kw_objects h)) keywords →
  fresh_ids h →
  one_row_per_text →
  _hybrid_clustering embeddings keyword_texts keywords n_clusters h
  = (Ok refined_clusters, h') →
  ∀ cluster, cluster ∈ refined_clusters →
    match c_sub_topics cluster with
    | None =>
        length (c_keyword_data cluster) ≤ 5
        ∧ ∀ kw, kw ∈ c_keyword_data cluster →
                field h' kw "cluster_id" = Some (VStr (c_id cluster))
    | Some sub_topics =>
        5 < length (c_keyword_data cluster)
        ∧ ∀ kw, kw ∈ c_keyword_data cluster →
                ∃ sub, sub ∈ sub_topics
                       ∧ field h' kw "cluster_id" = Some (VStr (st_id sub))
                       ∧ st_id sub ≠ c_id cluster
    end.
Proof.
  intros Hnodup Hvalid Hfresh Hrows Hrun.
  unfold _hybrid_clustering in Hrun. rewrite reraise_eq in Hrun.
  apply bind_M_Ok in Hrun as (cs & h1 & Hsem & Hloop).
  apply hierarchical_clustering_Ok in Hsem as [labels Hsem].
  apply semantic_clusters_own in Hsem
    as (Hplain & Hids & Hsupply & Hdisj & Hown & Hnoise); [|done..].
  apply (foldM_M_prefix_inv
    (λ pre rs h2,
       Forall2 refinement_of pre rs
       ∧ uuid_supply h1 ≤ uuid_supply h2
       ∧ (∀ kw key, kw ∉ concat (c_keyword_data <$> pre) →
                    field h2 kw key = field h1 kw key)
       ∧ (∀ i c r, pre !! i = Some c → rs !! i = Some r →
            match c_sub_topics r with
            | None =>
                length (c_keyword_data c) ≤ 5
                ∧ ∀ kw, kw ∈ c_keyword_data c →
                        field h2 kw "cluster_id" = Some (VStr (c_id c))
            | Some sub_topics =>
                5 < length (c_keyword_data c)
                ∧ ∀ kw, kw ∈ c_keyword_data c →
                        ∃ sub k, sub ∈ sub_topics
                                 ∧ field h2 kw "cluster_id" = Some (VStr (st_id sub))
                                 ∧ st_id sub = "uuid-" +:+ pretty k
                                 ∧ uuid_supply h1 ≤ k
            end))) in Hloop.
  - destruct Hloop as (Hrefined & _ & _ & Hagree).
    intros r (i & Hr)%list_elem_of_lookup_1.
    destruct (Forall2_lookup_r _ _ _ _ _ Hrefined Hr) as (c & Hc & Href).
    specialize (Hagree i c r Hc Hr).
    assert (c_keyword_data r = c_keyword_data c ∧ c_id r = c_id c) as [-> ->]
      by (by destruct Href as [->|[subs ->]]).
    destruct (c_sub_topics r) as [subs|]; [|done].
    destruct Hagree as [Hsize Hagree]. split; [done|].
    intros kw (sub & k & Hsub & Hfield & Hk & Hge)%Hagree.
    exists sub. split_and!; [done..|].
    rewrite Hk, (Hids i c Hc). intros ->%uuid_eq.
    apply lookup_lt_Some in Hc. lia.
  - split_and!; [constructor|done|done|]. by intros i c r [=].
  - clear Hloop. intros pre c post rs h2 out h3 Hsplit (Hrefined & Hge & Hout & Hagree) Hstep.
    assert (cs !! length pre = Some c) as Hc by (by rewrite Hsplit, list_lookup_middle).
    assert (∀ i c', pre !! i = Some c' → cs !! i = Some c' ∧ i < length pre) as Hpre.
    { intros i c' Hi. apply lookup_lt_Some in Hi as Hlt.
      by rewrite Hsplit, lookup_app_l. }
    assert (length pre < length cs) as Hlt by (by eapply lookup_lt_Some).
    assert (c_sub_topics c = None ∧ NoDup (c_keyword_data c)) as [Hnone Hdata].
    { rewrite Forall_forall in Hplain. apply Hplain. by eapply list_elem_of_lookup_2. }
    assert (∀ kw, kw ∈ c_keyword_data c → kw ∉ concat (c_keyword_data <$> pre)) as Hnew.
    { intros kw Hkw (i & c' & [Hi Hi']%Hpre & Hkw')%elem_of_keyword_data.
      assert (i = length pre) by by eapply (Hdisj i (length pre)). lia. }
    assert (∀ kw, kw ∈ c_keyword_data c →
                  field h2 kw "cluster_id" = Some (VStr (c_id c))) as Hfield.
    { intros kw Hkw. rewrite Hout by by apply Hnew.
      apply Hown; [|done]. by eapply list_elem_of_lookup_2. }
    assert (∀ kw, kw ∈ members_of h2 keywords (c_id c) ↔ kw ∈ c_keyword_data c) as Hmembers.
    { intros kw. rewrite elem_of_members_of. split.
      - intros [Hkw Hf]. rewrite (Hids _ c Hc) in Hf.
        destruct (decide (kw ∈ concat (c_keyword_data <$> pre))) as [Hin|Hin].
        + apply elem_of_keyword_data in Hin as (i & c' & Hi & Hkw').
          destruct (Forall2_lookup_l _ _ _ _ _ Hrefined Hi) as (r & Hr & _).
          specialize (Hagree i c' r Hi Hr). apply Hpre in Hi as [Hi Hi'].
          destruct (c_sub_topics r) as [subs|].
          * destruct Hagree as [_ Hagree].
            destruct (Hagree kw Hkw') as (sub & k & _ & Hf' & Hk & Hk').
            rewrite Hf', Hk in Hf. apply uuid_field_eq in Hf. lia.
          * destruct Hagree as [_ Hagree].
            rewrite (Hagree kw Hkw'), (Hids i c' Hi) in Hf.
            apply uuid_field_eq in Hf. lia.
        + rewrite Hout in Hf by done.
          destruct (decide (kw ∈ concat (c_keyword_data <$> cs))) as [Hin'|Hin'].
          * apply elem_of_keyword_data in Hin' as (j & c' & Hj & Hkw').
            destruct (Hown c' kw) as [_ Hf']; [by eapply list_elem_of_lookup_2|done|].
            rewrite Hf', (Hids j c' Hj) in Hf. apply uuid_field_eq in Hf.
            assert (j = length pre) as -> by lia. congruence.
          * by destruct (Hnoise kw (uuid_supply h + length pre) Hin'); [lia|].
      - intros Hkw. split; [|by apply Hfield].
        apply (Hown c); [by eapply list_elem_of_lookup_2|done]. }
    assert (length (members_of h2 keywords (c_id c)) = length (c_keyword_data c)) as Hsize.
    { apply Permutation_length, NoDup_Permutation; [|done..].
      unfold members_of. by apply NoDup_filter. }
    assert (∀ i c' r h4,
              pre !! i = Some c' → rs !! i = Some r →
              (∀ kw, kw ∈ c_keyword_data c' →
                     field h4 kw "cluster_id" = field h2 kw "cluster_id") →
              match c_sub_topics r with
              | None =>
                  length (c_keyword_data c') ≤ 5
                  ∧ ∀ kw, kw ∈ c_keyword_data c' →
                          field h4 kw "cluster_id" = Some (VStr (c_id c'))
              | Some sub_topics =>
                  5 < length (c_keyword_data c')
                  ∧ ∀ kw, kw ∈ c_keyword_data c' →
                          ∃ sub k, sub ∈ sub_topics
                                   ∧ field h4 kw "cluster_id" = Some (VStr (st_id sub))
                                   ∧ st_id sub = "uuid-" +:+ pretty k
                                   ∧ uuid_supply h1 ≤ k
              end) as Hold.
    { intros i c' r h4 Hi Hr Hsame. specialize (Hagree i c' r Hi Hr).
      destruct (c_sub_topics r) as [subs|]; destruct Hagree as [Hsz Hagree];
        (split; [done|]); intros kw Hkw; rewrite (Hsame kw Hkw); by apply Hagree. }
    assert (length pre = length rs) as Hlen by (by eapply Forall2_length).
    destruct (refine_step_moves _ _ _ _ _ _ Hrows Hstep)
      as [(-> & -> & Hsmall)
         |(tcs & -> & Hlarge & Htids & Hsupply3 & Hout3 & Hin3)].
    + split_and!.
      * apply Forall2_app; [done|]. constructor; [by left|constructor].
      * done.
      * intros kw key Hkw. apply Hout. rewrite fmap_app, concat_app in Hkw.
        by apply not_elem_of_app in Hkw as [? _].
      * intros i c' r Hi Hr.
        destruct (decide (i < length pre)) as [Hi'|Hi'].
        { rewrite lookup_app_l in Hi, Hr by lia. by eapply Hold. }
        apply lookup_lt_Some in Hi as Hi''. rewrite length_app in Hi''. simpl in Hi''.
        assert (i = length pre) as -> by lia.
        rewrite list_lookup_middle in Hi by done.
        rewrite list_lookup_middle in Hr by done.
        injection Hi as <-. injection Hr as <-. rewrite Hnone. split; [lia|done].
    + assert (∀ kw, kw ∉ c_keyword_data c → ∀ key, field h3 kw key = field h2 kw key)
        as Hout3'.
      { intros kw Hkw key. apply Hout3. by rewrite Hmembers. }
      split_and!.
      * apply Forall2_app; [done|]. constructor; [right; by eexists|constructor].
      * lia.
      * intros kw key Hkw. rewrite fmap_app, concat_app in Hkw. simpl in Hkw.
        rewrite app_nil_r in Hkw. apply not_elem_of_app in Hkw as [Hkw1 Hkw2].
        rewrite Hout3' by done. by apply Hout.
      * intros i c' r Hi Hr.
        destruct (decide (i < length pre)) as [Hi'|Hi'].
        { rewrite lookup_app_l in Hi, Hr by lia. eapply Hold; [done..|].
          intros kw Hkw. apply Hout3'. intros Hkw'.
          apply Hpre in Hi as [Hi _].
          assert (i = length pre) by (by eapply (Hdisj i (length pre))). lia. }
        apply lookup_lt_Some in Hi as Hi''. rewrite length_app in Hi''. simpl in Hi''.
        assert (i = length pre) as -> by lia.
        rewrite list_lookup_middle in Hi by done.
        rewrite list_lookup_middle in Hr by done.
        injection Hi as <-. injection Hr as <-. simpl. split; [lia|].
        intros kw Hkw. apply Hmembers in Hkw.
        destruct (Hin3 kw Hkw) as (tc & (j & Hj)%list_elem_of_lookup_1 & Hf).
        exists (sub_topic_of tc), (uuid_supply h2 + j). split_and!.
        -- apply list_elem_of_fmap. exists tc. split; [done|]. by eapply list_elem_of_lookup_2.
        -- done.
        -- simpl.
           assert ((c_id <$> tcs) !! j = Some (c_id tc)) as Hid
             by (by rewrite list_lookup_fmap, Hj).
           rewrite Htids, list_lookup_fmap in Hid.
           rewrite lookup_seq_lt in Hid by (by eapply lookup_lt_Some).
           by injection Hid as <-.
        -- lia.
Qed.

(** When the hybrid strategy returns for keyword records that are all
    different and carry no identifier that is yet to be generated, and the
    topic decomposition gives one row of weights for every text, the records
    and the returned clusters agree as follows. A cluster without
    [sub_topics] has at most five keywords, and each of them carries the
    identifier of the cluster in [cluster_id]. A cluster with [sub_topics]
    has more than five keywords, and each of them carries in [cluster_id]
    the identifier of one of the sub-topics, which is not the identifier of
    the cluster: the refiner has overwritten the assignment of the
    hierarchical step. *)
Theorem hybrid_moves_keywords_to_sub_topics (embeddings : list (list Q))
    (keyword_texts : list Val) (keywords : list nat) (n_clusters : Val)
    (h : heap) (refined_clusters : list Cluster) (h' : heap) :
  NoDup keywords →
  Forall (λ kw, kw < length (kw_objects h)) keywords →
  fresh_ids h →
  one_row_per_text →
  _hybrid_clustering embeddings keyword_texts keywords n_clusters h
  = (Ok refined_clusters, h') →
  ∀ cluster, cluster ∈ refined_clusters →
    match c_sub_topics cluster with
    | None =>
        length (c_keyword_data cluster) ≤ 5
        ∧ ∀ kw, kw ∈ c_keyword_data cluster →
                field h' kw "cluster_id" = Some (VStr (c_id cluster))
    | Some sub_topics =>
        5 < length (c_keyword_data cluster)
        ∧ ∀ kw, kw ∈ c_keyword_data cluster →
                ∃ sub, sub ∈ sub_topics
                       ∧ field h' kw "cluster_id" = Some (VStr (st_id sub))
                       ∧ st_id sub ≠ c_id cluster
    end.
Proof. apply hybrid_clustering_moves. Qed.

(** *** What the metrics make of it *)

Lemma member_positions_none h cluster :
  (∀ kw, kw ∈ c_keyword_data cluster →
         field h kw "cluster_id" ≠ Some (VStr (c_id cluster))) →
  member_positions h cluster = [].
Proof.
  intros Hnone. unfold member_positions.
  rewrite (filter_iff_elem _ (λ _, False)); [by induction (enumerate _)|].
  intros [i kw] Hin. simpl. split; [|done]. intros Heq.
  unfold enumerate in Hin. apply elem_of_lookup_imap in Hin as (j & x & [= -> ->] & Hj).
  apply (Hnone x); [by eapply list_elem_of_lookup_2|].
  destruct (field h x "cluster_id") as [[]|]; simpl in Heq; try done.
  by apply bool_decide_eq_true in Heq as ->.
Qed.

Lemma bind_kwargs_Ok allowed kwargs h u h' :
  bind_kwargs allowed kwargs h = (Ok u, h') → h' = h.
Proof. unfold bind_kwargs. case_decide; [by intros [_ ->]%ret_M_Ok|done]. Qed.

(** With the strategy [hybrid], under the same conditions, the metric
    [total_keywords] of a returned result leaves out every refined cluster:
    it is the number of keywords of the clusters without [sub_topics]. The
    metrics look for the keywords whose [cluster_id] is the identifier of
    the cluster, and the refiner has replaced it. *)
Theorem hybrid_metrics_skip_refined (keywords : list nat) (kwargs : gmap string Val)
    (h : heap) (result : ClusteringResult) (h' : heap) :
  NoDup keywords →
  Forall (λ kw, kw < length (kw_objects h)) keywords →
  fresh_ids h →
  one_row_per_text →
  perform_advanced_clustering keywords "hybrid" kwargs h = (Ok result, h') →
  m_total_keywords (r_metrics result)
  = sum_list ((λ cluster, match c_sub_topics cluster with
                          | None => length (c_keyword_data cluster)
                          | Some _ => 0
                          end) <$> r_clusters result).
Proof.
  intros Hnodup Hvalid Hfresh Hrows Hrun.
  unfold perform_advanced_clustering in Hrun. rewrite reraise_eq in Hrun.
  erewrite bind_run in Hrun by apply keyword_texts_of_spec.
  apply bind_M_Ok in Hrun as (embeddings & h1 & Hemb & Hrun).
  unfold _generate_embeddings in Hemb. rewrite reraise_eq in Hemb.
  apply lift_Ok in Hemb as [_ ->].
  apply bind_M_Ok in Hrun as (clusters & h2 & Hdispatch & Hrun).
  rewrite DispatchFacts.dispatch_hybrid in Hdispatch.
  apply bind_M_Ok in Hdispatch as (u & h1 & ->%bind_kwargs_Ok & Hhybrid).
  apply bind_M_Ok in Hrun as (hierarchy & h3 & [_ ->]%lift_Ok & Hrun).
  apply bind_M_Ok in Hrun as (topic_model & h4 & Htm & Hrun).
  apply bind_M_Ok in Hrun as (metrics & h5 & Hmetrics & Hrun).
  apply ret_M_Ok in Hrun as [-> _]. simpl.
  pose proof (writes_only_generate_topic_model [] (text_of h <$> keywords) clusters h2)
    as [_ Hfields].
  rewrite Htm in Hfields. simpl in Hfields.
  apply calculate_cluster_metrics_Ok in Hmetrics
    as (_ & ls & es & Hcollect & _ & -> & _).
  apply collect_spec in Hcollect as [-> _]. simpl. f_equal.
  apply Forall_fmap_ext_1, Forall_forall. intros c Hc.
  pose proof (hybrid_clustering_moves _ _ _ _ _ _ _ Hnodup Hvalid Hfresh Hrows Hhybrid c Hc)
    as Hagree.
  destruct (c_sub_topics c) as [subs|]; destruct Hagree as [_ Hagree].
  - rewrite member_positions_none; [done|].
    intros kw Hkw. rewrite Hfields by apply not_elem_of_nil.
    destruct (Hagree kw Hkw) as (sub & _ & -> & Hne). congruence.
  - apply member_positions_all. intros kw Hkw.
    rewrite Hfields by apply not_elem_of_nil. by apply Hagree.
Qed.

End worker.

Lemma fresh_ids_unassigned (h : heap) :
  Forall (λ kw, kw !! "cluster_id" = None) (kw_objects h) → fresh_ids h.
Proof.
  intros Hall kw k _. unfold field.
  destruct (kw_objects h !! kw) as [m|] eqn:Hkw; [|done]. simpl.
  rewrite Forall_forall in Hall. rewrite (Hall m); [done|].
  by eapply list_elem_of_lookup_2.
Qed.

Lemma uniform_one_row_per_text : @one_row_per_text Samples.uniform.
Proof. intros lda n_topics texts fit [= <-]. simpl. by rewrite length_fmap. Qed.

Lemma hybrid_moves_keywords_to_sub_topics_witness :
  ∃ cluster sub_topics h',
    @_hybrid_clustering Samples.uniform Samples.ten_vectors
      (replicate 10 (VStr "seo tools")) (seq 0 10) (VInt 1) (Heap Samples.ten_keywords 0)
    = (Ok [cluster], h')
    ∧ c_sub_topics cluster = Some sub_topics
    ∧ 5 < length (c_keyword_data cluster)
    ∧ ∀ kw, kw ∈ c_keyword_data cluster →
            ∃ sub, sub ∈ sub_topics
                   ∧ field h' kw "cluster_id" = Some (VStr (st_id sub))
                   ∧ st_id sub ≠ c_id cluster.
Proof.
  eexists _, _, _. split; [vm_compute; reflexivity|]. split; [reflexivity|].
  match goal with |- 5 < length (c_keyword_data ?c) ∧ _ =>
    refine (hybrid_moves_keywords_to_sub_topics (H:=Samples.uniform) Samples.ten_vectors
              (replicate 10 (VStr "seo tools")) (seq 0 10) (VInt 1)
              (Heap Samples.ten_keywords 0) [c] _ (NoDup_seq 0 10) _ _ _ _ c _)
  end.
  - apply (bool_decide_unpack _). by vm_compute.
  - apply fresh_ids_unassigned. by repeat constructor.
  - apply uniform_one_row_per_text.
  - vm_compute. reflexivity.
  - apply list_elem_of_here.
Defined.

Lemma hybrid_metrics_skip_refined_witness :
  ∃ result h',
    @perform_advanced_clustering Samples.uniform (seq 0 10) "hybrid" ∅
      (Heap Samples.ten_keywords 0) = (Ok result, h')
    ∧ c_size <$> r_clusters result = [10]
    ∧ m_total_keywords (r_metrics result) = 0.
Proof.
  eexists _, _. split; [vm_compute; reflexivity|]. split; [reflexivity|].
  match goal with |- m_total_keywords (r_metrics ?r) = _ =>
    refine (hybrid_metrics_skip_refined (H:=Samples.uniform) (seq 0 10) ∅
              (Heap Samples.ten_keywords 0) r _ (NoDup_seq 0 10) _ _ _ _)
  end.
  - apply (bool_decide_unpack _). by vm_compute.
  - apply fresh_ids_unassigned. by repeat constructor.
  - apply uniform_one_row_per_text.
  - vm_compute. reflexivity.
Defined.

End HybridIds.
